(** * Retrieval pipeline of the Lev-Boots RAG service

    A shallow embedding of [src/server/services/ragService.ts]:
    the chunker ([chunkText]), the embedding adapter ([getEmbedding]),
    the knowledge store operations ([sourceExists], [storeChunks],
    [findSimilarChunks]), the batch loader ([loadAllData]) and the
    answering entry point ([ask]).

    Conventions.
    - A JavaScript string is the list of its UTF-16 code units ([N]).
    - A JavaScript number is a real number: arithmetic is exact, the
      rounding of IEEE doubles and of pgvector's floats is not modelled.
    - Asynchronous code is sequential code: every [await] is a bind of
      the effect monad [M]; the 100 ms pauses are dropped.
    - The outside world (PDF files, HTTP endpoints, the Gemini models,
      database faults) is a record [World] the functions read from. *)

From Stdlib Require Import String Ascii.
From Stdlib Require Import List Arith Lia Bool NArith.
From Stdlib Require Import Reals Lra Permutation Sorted DecimalString.
Import ListNotations.

(* ================================================================= *)
(** ** JavaScript strings *)

Module JS.

Definition char := N.
Definition jsstring := list char.

(** Code units of an ASCII literal. *)
Definition u (s : string) : jsstring :=
  map N_of_ascii (list_ascii_of_string s).

(** The class [\s] of a regular expression, which is also the set
    [String.prototype.trim] strips: WhiteSpace and LineTerminator. *)
Definition isWhiteSpace (c : char) : bool :=
  (((9 <=? c) && (c <=? 13)) || (c =? 32) || (c =? 160) || (c =? 5760)
   || ((8192 <=? c) && (c <=? 8202)) || (c =? 8232) || (c =? 8233)
   || (c =? 8239) || (c =? 8287) || (c =? 12288) || (c =? 65279))%N.

Definition space : char := 32%N.

(** [s.split(/\s+/)]: the pieces between maximal runs of white space.
    A run at the very start or end leaves an empty piece there, and the
    empty string splits into one empty piece. The head of the result is
    the piece being read; a white-space unit closes it unless the run
    goes on. *)
Fixpoint split (s : jsstring) : list jsstring :=
  match s with
  | [] => [[]]
  | c :: r =>
      if isWhiteSpace c then
        match r with
        | c' :: _ => if isWhiteSpace c' then split r else [] :: split r
        | [] => [] :: split r
        end
      else
        match split r with
        | w :: ws => (c :: w) :: ws
        | [] => [[c]]
        end
  end.

(** [a.join(sep)] on an array of strings. *)
Fixpoint join (sep : jsstring) (a : list jsstring) : jsstring :=
  match a with
  | [] => []
  | [w] => w
  | w :: rest => w ++ sep ++ join sep rest
  end.

Fixpoint trimStart (s : jsstring) : jsstring :=
  match s with
  | [] => []
  | c :: r => if isWhiteSpace c then trimStart r else s
  end.

Fixpoint trimEnd (s : jsstring) : jsstring :=
  match s with
  | [] => []
  | c :: r =>
      match trimEnd r with
      | [] => if isWhiteSpace c then [] else [c]
      | r' => c :: r'
      end
  end.

(** [s.trim()] *)
Definition trim (s : jsstring) : jsstring := trimEnd (trimStart s).

(** [a.slice(i, j)] for [0 <= i <= j]. *)
Definition slice {A} (a : list A) (i j : nat) : list A :=
  firstn (j - i) (skipn i a).

Definition nonEmpty (s : jsstring) : bool :=
  match s with [] => false | _ => true end.

(** The words of a string: the non-empty pieces of its split. *)
Definition words (s : jsstring) : list jsstring := filter nonEmpty (split s).

Definition wsFree (w : jsstring) : Prop :=
  Forall (fun c => isWhiteSpace c = false) w.

Definition startsClean (s : jsstring) : Prop :=
  match s with [] => True | c :: _ => isWhiteSpace c = false end.

Fixpoint endsClean (s : jsstring) : Prop :=
  match s with
  | [] => True
  | [c] => isWhiteSpace c = false
  | _ :: r => endsClean r
  end.

End JS.
Import JS.

(* ================================================================= *)
(** ** Chunker *)

(** The [for] loop of [chunkText]: [i] is the loop counter, [chunks] the
    array built so far. The loop does not end when [wordsPerChunk] is
    0; [fuel] bounds the number of iterations and [None] stands for a
    loop that is still running when the fuel is spent. *)
Fixpoint chunkLoop (fuel : nat) (words : list jsstring)
    (wordsPerChunk i : nat) (chunks : list jsstring)
  : option (list jsstring) :=
  if i <? length words then
    match fuel with
    | O => None
    | S fuel' =>
        let chunk := join [space] (slice words i (i + wordsPerChunk)) in
        let chunks' :=
          if 0 <? length (trim chunk) then chunks ++ [trim chunk]
          else chunks in
        chunkLoop fuel' words wordsPerChunk (i + wordsPerChunk) chunks'
    end
  else Some chunks.

(** One iteration per word is enough as soon as the step is positive. *)
Definition chunkText (text : jsstring) (wordsPerChunk : nat)
  : option (list jsstring) :=
  let words := split text in
  chunkLoop (length words) words wordsPerChunk 0 [].

Definition defaultWordsPerChunk : nat := 400.

(** The chunks of an array of words, window by window: what the loop of
    [chunkText] pushes from a given index on. *)
Fixpoint chunksOf (fuel wordsPerChunk : nat) (l : list jsstring)
  : list jsstring :=
  match fuel with
  | O => []
  | S fuel' =>
      match l with
      | [] => []
      | _ :: _ =>
          let chunk := trim (join [space] (firstn wordsPerChunk l)) in
          (if 0 <? length chunk then [chunk] else [])
            ++ chunksOf fuel' wordsPerChunk (skipn wordsPerChunk l)
      end
  end.

(** Every chunk but the last holds exactly [n] pieces. *)
Fixpoint nonFinalExact (n : nat) (chunks : list jsstring) : Prop :=
  match chunks with
  | [] => True
  | c :: rest =>
      match rest with
      | [] => True
      | _ :: _ => length (split c) = n /\ nonFinalExact n rest
      end
  end.

(** Every member but the last is non-empty. *)
Fixpoint innerNonEmpty (l : list jsstring) : Prop :=
  match l with
  | [] => True
  | w :: rest =>
      match rest with
      | [] => True
      | _ :: _ => w <> [] /\ innerNonEmpty rest
      end
  end.

(* ================================================================= *)
(** ** Numbers, vectors and cosine distance *)

(** JavaScript numbers and the entries of stored vectors are real
    numbers here, and the arithmetic of the distance is exact; the
    database computes it in floating point. What a cast to [vector]
    does to a number is the [float4] of the world, further down. *)
Definition number := R.
Definition vector := list number.

Fixpoint dot (a b : vector) : R :=
  match a, b with
  | x :: a', y :: b' => (x * y + dot a' b')%R
  | _, _ => 0%R
  end.

Definition norm (a : vector) : R := sqrt (dot a a).

(** pgvector's [a <=> b], over the reals: one minus the cosine of the
    angle between the two vectors. When one of them has norm 0 the
    quotient is 0/0 and pgvector yields NaN, which is [None] here. *)
Definition cosineDistance (a b : vector) : option R :=
  if Req_EM_T (norm a * norm b) 0 then None
  else Some (1 - dot a b / (norm a * norm b))%R.

(** The ascending order of [ORDER BY] on a float column: NaN sorts after
    every number, and equal to itself. *)
Definition nanLast (x y : option R) : Prop :=
  match x, y with
  | Some a, Some b => (a <= b)%R
  | _, None => True
  | None, Some _ => False
  end.

Definition nanLast_dec (x y : option R) : {nanLast x y} + {~ nanLast x y}.
Proof.
  destruct x as [a|], y as [b|]; simpl.
  - apply Rle_dec.
  - left; exact I.
  - right; intros H; exact H.
  - left; exact I.
Defined.

(** Stable insertion sort by ascending key: [ORDER BY key]. Rows with
    equal keys keep their table order. *)
Fixpoint insertBy {A} (key : A -> option R) (x : A) (l : list A) : list A :=
  match l with
  | [] => [x]
  | y :: l' =>
      if nanLast_dec (key x) (key y) then x :: l else y :: insertBy key x l'
  end.

Fixpoint orderBy {A} (key : A -> option R) (l : list A) : list A :=
  match l with
  | [] => []
  | x :: l' => insertBy key x (orderBy key l')
  end.

Definition keyLe {A} (key : A -> option R) (a b : A) : Prop :=
  nanLast (key a) (key b).

(* ================================================================= *)
(** ** The knowledge_base table *)

Fixpoint streq (a b : jsstring) : bool :=
  match a, b with
  | [], [] => true
  | x :: a', y :: b' => (x =? y)%N && streq a' b'
  | _, _ => false
  end.

(** Modelled from the spec: the model class [KnowledgeBase]
    (models/KnowledgeBase) is not among the sources; a row has the
    columns of the persisted layout, which are the ones the statements
    of the service name. The serial [id] and the two timestamps are
    filled in by the database and read by none of the functions below;
    they are left out. *)
Record Row := mkRow {
  source : jsstring;
  source_id : jsstring;
  chunk_index : nat;
  chunk_content : jsstring;
  embeddings_768 : option vector;
  embeddings_1536 : option vector
}.

(** [where: { source, source_id: sourceId }] *)
Definition matches (src sourceId : jsstring) (r : Row) : bool :=
  streq (source r) src && streq (source_id r) sourceId.

(** [EMBEDDING_DIMENSION === 768 ? 'embeddings_768' : 'embeddings_1536'] *)
Definition embeddingField (dimension : nat) (r : Row) : option vector :=
  if dimension =? 768 then embeddings_768 r else embeddings_1536 r.

Definition isNotNull {A} (o : option A) : bool :=
  match o with Some _ => true | None => false end.

(** The row an [INSERT] of [storeChunks] writes: only the column named by
    [embeddingField] receives the vector. *)
Definition insertedRow (dimension : nat) (src sourceId : jsstring)
    (i : nat) (content : jsstring) (e : vector) : Row :=
  {| source := src; source_id := sourceId; chunk_index := i;
     chunk_content := content;
     embeddings_768 := if dimension =? 768 then Some e else None;
     embeddings_1536 := if dimension =? 768 then None else Some e |}.

(** [field <=> query] of a row; the [WHERE] clause keeps only rows where
    the field is not null. *)
Definition rowDistance (dimension : nat) (q : vector) (r : Row)
  : option R :=
  match embeddingField dimension r with
  | Some v => cosineDistance v q
  | None => None
  end.


(** [SELECT ... WHERE field IS NOT NULL ORDER BY field <=> q LIMIT limit],
    evaluated as the statement reads, over every row whose field is not
    null. (The README speaks of IVFFlat indexes on the vector columns;
    the migrations that would define them are not among the sources.) *)
Definition nearestRows (dimension : nat) (table : list Row) (q : vector)
    (limit : nat) : list Row :=
  firstn limit
    (orderBy (rowDistance dimension q)
       (filter (fun r => isNotNull (embeddingField dimension r)) table)).

(** [KnowledgeBase.build] on a raw result row: the query selects only the
    column named by [embeddingField], the other one is undefined. *)
Definition build (dimension : nat) (r : Row) : Row :=
  {| source := source r; source_id := source_id r;
     chunk_index := chunk_index r; chunk_content := chunk_content r;
     embeddings_768 :=
       if dimension =? 768 then embeddings_768 r else None;
     embeddings_1536 :=
       if dimension =? 768 then None else embeddings_1536 r |}.

(* ================================================================= *)
(** ** Effects *)

Inductive Error :=
| MissingApiKey      (* GEMINI_API_KEY is not set *)
| EmbedApiError      (* embedContent rejects *)
| ExtractFailed      (* no usable array in the response *)
| PdfError           (* reading or parsing the PDF throws *)
| UnknownArticle
| FetchFailed        (* fetch rejects, or the body cannot be read *)
| HttpNotOk
| DbError            (* a statement fails in the database *)
| TypeError          (* property access on undefined *)
| LlmError.          (* generateContent rejects *)

(** The places that call [console.error]. *)
Inductive Site :=
| InvalidFormat | AtGetEmbedding | AtLoadPDF | AtLoadArticle
| AtLoadSlackChannel | AtSourceExists | AtStoreChunks | AtLoadAllData
| InvalidEmbedding | AtFindSimilarChunks | AtAsk.

(** What the program does to the outside, in the order it does it. *)
Inductive Event :=
| DbCount (src sourceId : jsstring)
| DbCountAll
| DbDestroy (src sourceId : jsstring)
| DbInsert (src sourceId : jsstring) (i : nat)
| DbSelect (limit : nat)
| ReadPdf (file : jsstring)
| FetchArticle (articleNumber : nat) (articleId : jsstring)
| FetchSlack (channel : jsstring) (page : nat)
| EmbedCall (text : jsstring)
| GenerateCall (prompt : jsstring)
| ConsoleError (s : Site).

Record State := mkState {
  table : list Row;      (* the rows of knowledge_base, oldest first *)
  dbClock : nat;         (* statements sent to the database so far *)
  trace : list Event
}.

Inductive Outcome (A : Type) :=
| Returned (a : A)
| Thrown (e : Error)
| Running.               (* the fuel of a loop is spent *)
Arguments Returned {A} a.
Arguments Thrown {A} e.
Arguments Running {A}.

Definition M (A : Type) := State -> Outcome A * State.

Definition ret {A} (a : A) : M A := fun st => (Returned a, st).

Definition bind {A B} (m : M A) (k : A -> M B) : M B :=
  fun st =>
    match m st with
    | (Returned a, st') => k a st'
    | (Thrown e, st') => (Thrown e, st')
    | (Running, st') => (Running, st')
    end.

Definition throw {A} (e : Error) : M A := fun st => (Thrown e, st).

Definition running {A} : M A := fun st => (Running, st).

(** [try { m } catch (error) { handler error }] *)
Definition tryCatch {A} (m : M A) (handler : Error -> M A) : M A :=
  fun st =>
    match m st with
    | (Thrown e, st') => handler e st'
    | r => r
    end.

Definition emit (ev : Event) : M unit :=
  fun st =>
    (Returned tt,
     {| table := table st; dbClock := dbClock st;
        trace := trace st ++ [ev] |}).

Declare Scope monad_scope.
Delimit Scope monad_scope with monad.
Notation "x <- m ;; k" := (bind m (fun x => k))
  (at level 61, m at next level, right associativity) : monad_scope.
Notation "m ;; k" := (bind m (fun _ => k))
  (at level 61, right associativity) : monad_scope.
Open Scope monad_scope.

(** [for (const x of xs) { body x }] *)
Fixpoint forEach {A} (xs : list A) (body : A -> M unit) : M unit :=
  match xs with
  | [] => ret tt
  | x :: rest => body x ;; forEach rest body
  end.

(* ================================================================= *)
(** ** The outside world *)

(** The shapes of [result.embedding] the adapter tells apart. *)
Inductive EmbedResponse :=
| EmbeddingObject (values embedding : option vector)
    (* a plain object; [None] is a property that is not there *)
| EmbeddingArray (a : vector)      (* the embedding is itself an array *)
| EmbeddingMissing.                (* undefined or null *)

(** What [pdfParser.getText()] hands back. *)
Inductive PdfText :=
| PdfString (s : jsstring)
| PdfPages (pages : list jsstring)
| PdfTextField (s : jsstring)
| PdfContentField (s : jsstring)
| PdfOther (asString : jsstring).   (* [String(textResult || '')] *)

(** A [fetch]: it rejects, or resolves to a response whose [ok] flag is
    given and whose body may fail to read ([None]). *)
Inductive Http (T : Type) :=
| Rejected
| Response (ok : bool) (body : option T).
Arguments Rejected {T}.
Arguments Response {T} ok body.

(** A chat message; an empty string stands for a missing field. *)
Record SlackMessage := mkMsg { user : jsstring; text : jsstring }.

(** [data.messages]: an array of messages, or anything else. Of a value
    that is not an array the loader only asks whether it is truthy and
    has a [length] above 0, as a non-empty string has. *)
Inductive SlackMessages :=
| MessageArray (msgs : list SlackMessage)
| NotAnArray (truthyWithLength : bool).

Record SlackData := mkData {
  data_messages : SlackMessages;
  hasMoreIsFalse : bool                    (* [data.hasMore === false] *)
}.

Record World := mkWorld {
  apiKeySet : bool;
  embedContent : jsstring -> option EmbedResponse;
  generateContent : jsstring -> option jsstring;
  readPdf : jsstring -> option PdfText;
  fetchArticle : nat -> jsstring -> Http jsstring;
  fetchSlack : jsstring -> nat -> Http SlackData;
  dbFault : nat -> bool;     (* does the n-th statement fail? *)
  float4 : number -> number  (* the single-precision number the database
                                keeps for an entry of a [vector] *)
}.

(** ['[x1,...,xn]'::vector]: the entries as the database keeps them. The
    length test of [vector(dimension)] is made where the cast is used. *)
Definition castVector (W : World) (v : vector) : vector :=
  map (float4 W) v.

(* ================================================================= *)
(** ** The service *)

(** [embedding.length >= n ? embedding.slice(0, n)
     : [...embedding, ...new Array(n - embedding.length).fill(0)]] *)
Definition fitDimension (n : nat) (embedding : vector) : vector :=
  if n <=? length embedding then firstn n embedding
  else embedding ++ repeat 0%R (n - length embedding).

(** The chain of shape tests of [getEmbedding]. An array has a [values]
    method, so it passes the first test, and [Array.from] of a method
    is the empty array. *)
Definition extractEmbedding (result : EmbedResponse) : vector :=
  match result with
  | EmbeddingObject (Some values) _ => values
  | EmbeddingObject None (Some embedding) => embedding
  | EmbeddingObject None None => []
  | EmbeddingArray _ => []
  | EmbeddingMissing => []
  end.

Definition pdfToString (t : PdfText) : jsstring :=
  match t with
  | PdfString s => s
  | PdfPages pages => join [space] pages
  | PdfTextField s => s
  | PdfContentField s => s
  | PdfOther s => s
  end.

Definition articleIds : list jsstring :=
  [u "military-deployment-report"; u "urban-commuting"; u "hover-polo";
   u "warehousing"; u "consumer-safety"].

Definition pdfFiles : list jsstring :=
  [u "OpEd - A Revolution at Our Feet.pdf";
   u "Research Paper - Gravitational Reversal Physics.pdf";
   u "White Paper - The Development of Localized Gravity Reversal Technology.pdf"].

Definition channels : list jsstring :=
  [u "lab-notes"; u "engineering"; u "offtopic"].

Fixpoint indexOf (xs : list jsstring) (x : jsstring) : option nat :=
  match xs with
  | [] => None
  | y :: rest =>
      if streq y x then Some 0 else option_map S (indexOf rest x)
  end.

(** [`${msg.user}: ${msg.text}`] when both are there, else the text. *)
Definition formatMessage (msg : SlackMessage) : jsstring :=
  if nonEmpty (user msg) && nonEmpty (text msg)
  then user msg ++ u ": " ++ text msg
  else text msg.

Definition pageMessages (msgs : list SlackMessage) : list jsstring :=
  filter (fun t => 0 <? length (trim t)) (map formatMessage msgs).

Definition decimal (n : nat) : jsstring :=
  u (NilEmpty.string_of_uint (Nat.to_uint n)).

Definition newline : char := 10%N.
Definition quote : char := 34%N.

Definition emptyKnowledgeBase : jsstring :=
  u "The knowledge base is empty. Please load data first by calling the /api/load_data endpoint.".

Definition noRelevantInformation : jsstring :=
  u "I couldn't find any relevant information in the knowledge base to answer your question.".

(** [`[Source ${index + 1}: ${chunk.source} - ${chunk.source_id}]\n${chunk.chunk_content}`] *)
Definition renderChunk (index : nat) (chunk : Row) : jsstring :=
  u "[Source " ++ decimal (index + 1) ++ u ": " ++ source chunk
    ++ u " - " ++ source_id chunk ++ u "]" ++ [newline]
    ++ chunk_content chunk.

Fixpoint mapi {A B} (f : nat -> A -> B) (i : nat) (l : list A) : list B :=
  match l with
  | [] => []
  | x :: rest => f i x :: mapi f (S i) rest
  end.

Definition contextOf (similarChunks : list Row) : jsstring :=
  join ([newline; newline] ++ u "---" ++ [newline; newline])
    (mapi renderChunk 0 similarChunks).

Definition promptOf (contextText userQuestion : jsstring) : jsstring :=
  u "You are a helpful assistant answering questions about Lev-Boots technology based on the provided knowledge base."
  ++ [newline; newline]
  ++ u "Context from knowledge base:" ++ [newline]
  ++ contextText ++ [newline; newline]
  ++ u "User question: " ++ userQuestion ++ [newline; newline]
  ++ u "Instructions:" ++ [newline]
  ++ u "- Answer the question based ONLY on the information provided in the context above"
  ++ [newline]
  ++ u "- If the context doesn't contain enough information to answer the question, say so clearly"
  ++ [newline]
  ++ u "- Do not make up information or use knowledge outside of the provided context"
  ++ [newline]
  ++ u "- Be concise and accurate" ++ [newline]
  ++ u "- Cite the source when relevant (e.g., " ++ [quote]
  ++ u "According to [source name]..." ++ [quote] ++ u ")"
  ++ [newline; newline]
  ++ u "Answer:".

Section Service.

(** The constant [EMBEDDING_DIMENSION] of the module (768 in the
    repository) and the world the service runs in. *)
Variable EMBEDDING_DIMENSION : nat.
Variable W : World.

(** *** Database statements *)

(** Send one statement: the clock advances, and the statement fails when
    the world says so. *)
Definition statement : M unit :=
  fun st =>
    let st' := {| table := table st; dbClock := S (dbClock st);
                  trace := trace st |} in
    if dbFault W (dbClock st) then (Thrown DbError, st')
    else (Returned tt, st').

Definition setTable (f : list Row -> list Row) : M unit :=
  fun st =>
    (Returned tt,
     {| table := f (table st); dbClock := dbClock st;
        trace := trace st |}).

Definition getTable : M (list Row) := fun st => (Returned (table st), st).

(** [KnowledgeBase.count({ where: { source, source_id } })] *)
Definition dbCount (src sourceId : jsstring) : M nat :=
  emit (DbCount src sourceId) ;;
  statement ;;
  t <- getTable ;;
  ret (length (filter (matches src sourceId) t)).

(** [KnowledgeBase.count()] *)
Definition dbCountAll : M nat :=
  emit DbCountAll ;;
  statement ;;
  t <- getTable ;;
  ret (length t).

(** [KnowledgeBase.destroy({ where: { source, source_id } })] *)
Definition dbDestroy (src sourceId : jsstring) : M unit :=
  emit (DbDestroy src sourceId) ;;
  statement ;;
  setTable (filter (fun r => negb (matches src sourceId r))).

(** The [INSERT] statement of [storeChunks]. The cast
    ['[...]'::vector(dimension)] fails on a vector of another length;
    the row keeps the entries in single precision. *)
Definition dbInsert (src sourceId : jsstring) (i : nat)
    (content : jsstring) (e : vector) : M unit :=
  emit (DbInsert src sourceId i) ;;
  statement ;;
  if length e =? EMBEDDING_DIMENSION then
    setTable (fun t =>
      t ++ [insertedRow EMBEDDING_DIMENSION src sourceId i content
              (castVector W e)])
  else throw DbError.

(** The [SELECT] statement of [findSimilarChunks]; the query vector is
    cast as the stored ones are. *)
Definition dbNearest (q : vector) (limit : nat) : M (list Row) :=
  emit (DbSelect limit) ;;
  statement ;;
  t <- getTable ;;
  ret (nearestRows EMBEDDING_DIMENSION t (castVector W q) limit).

(** *** Embedding adapter *)

Definition getEmbedding (text : jsstring) : M vector :=
  tryCatch
    (if negb (apiKeySet W) then throw MissingApiKey
     else
       emit (EmbedCall text) ;;
       match embedContent W text with
       | None => throw EmbedApiError
       | Some result =>
           let embedding := extractEmbedding result in
           if length embedding =? 0 then
             emit (ConsoleError InvalidFormat) ;; throw ExtractFailed
           else if EMBEDDING_DIMENSION =? 768 then
             ret (fitDimension 768 embedding)
           else
             ret (fitDimension 1536 embedding)
       end)
    (fun error => emit (ConsoleError AtGetEmbedding) ;; throw error).

(** *** Source adapters *)

Definition loadPDF (file : jsstring) : M jsstring :=
  tryCatch
    (emit (ReadPdf file) ;;
     match readPdf W file with
     | None => throw PdfError
     | Some textResult => ret (pdfToString textResult)
     end)
    (fun error => emit (ConsoleError AtLoadPDF) ;; throw error).

Definition loadArticle (articleId : jsstring) : M jsstring :=
  tryCatch
    (match indexOf articleIds articleId with
     | None => throw UnknownArticle
     | Some index =>
         let articleNumber := index + 1 in
         emit (FetchArticle articleNumber articleId) ;;
         match fetchArticle W articleNumber articleId with
         | Rejected => throw FetchFailed
         | Response false _ => throw HttpNotOk
         | Response true None => throw FetchFailed
         | Response true (Some body) => ret body
         end
     end)
    (fun error => emit (ConsoleError AtLoadArticle) ;; throw error).

(** The [while (hasMore)] loop of [loadSlackChannel] together with the
    [try]/[catch] around it: the handler logs and falls through to
    [return messages], the array as filled so far. [fuel] bounds the
    number of pages read. *)
Fixpoint slackLoop (fuel : nat) (channel : jsstring) (page : nat)
    (messages : list jsstring) : M (list jsstring) :=
  match fuel with
  | O => running
  | S fuel' =>
      emit (FetchSlack channel page) ;;
      match fetchSlack W channel page with
      | Rejected =>
          emit (ConsoleError AtLoadSlackChannel) ;; ret messages
      | Response false _ => ret messages
      | Response true None =>
          emit (ConsoleError AtLoadSlackChannel) ;; ret messages
      | Response true (Some data) =>
          let messages' :=
            match data_messages data with
            | MessageArray msgs => messages ++ pageMessages msgs
            | NotAnArray _ => messages
            end in
          let hasMore :=
            negb (hasMoreIsFalse data)
            && match data_messages data with
               | MessageArray msgs => 0 <? length msgs
               | NotAnArray truthyWithLength => truthyWithLength
               end in
          if hasMore then slackLoop fuel' channel (S page) messages'
          else ret messages'
      end
  end.

Definition loadSlackChannel (fuel : nat) (channel : jsstring)
  : M (list jsstring) :=
  slackLoop fuel channel 1 [].

(** *** Knowledge store *)

Definition sourceExists (src sourceId : jsstring) : M bool :=
  tryCatch
    (count <- dbCount src sourceId ;; ret (0 <? count))
    (fun _ => emit (ConsoleError AtSourceExists) ;; ret false).

(** The [for] loop of [storeChunks]; [i] is the loop counter and
    [chunks] what is left of the array from index [i] on.
    [embeddings[i].join] throws when [embeddings[i]] is undefined. *)
Fixpoint insertLoop (src sourceId : jsstring) (chunks : list jsstring)
    (embeddings : list vector) (i : nat) : M unit :=
  match chunks with
  | [] => ret tt
  | chunk :: rest =>
      match nth_error embeddings i with
      | None => throw TypeError
      | Some e =>
          dbInsert src sourceId i chunk e ;;
          insertLoop src sourceId rest embeddings (S i)
      end
  end.

Definition storeChunks (src sourceId : jsstring) (chunks : list jsstring)
    (embeddings : list vector) : M unit :=
  tryCatch
    (dbDestroy src sourceId ;;
     insertLoop src sourceId chunks embeddings 0)
    (fun error => emit (ConsoleError AtStoreChunks) ;; throw error).

Definition findSimilarChunks (questionEmbedding : vector) (limit : nat)
  : M (list Row) :=
  tryCatch
    (if negb (length questionEmbedding =? EMBEDDING_DIMENSION) then
       emit (ConsoleError InvalidEmbedding) ;; ret []
     else
       results <- dbNearest questionEmbedding limit ;;
       ret (map (build EMBEDDING_DIMENSION) results))
    (fun error => emit (ConsoleError AtFindSimilarChunks) ;; throw error).

(** *** Ingestion *)

(** [chunkText(text)] with the default window; the loop ends since the
    window is positive. *)
Definition chunkTextM (text : jsstring) : M (list jsstring) :=
  match chunkText text defaultWordsPerChunk with
  | Some chunks => ret chunks
  | None => running
  end.

(** The inner loop that embeds every chunk in order. *)
Fixpoint embedAll (chunks : list jsstring) : M (list vector) :=
  match chunks with
  | [] => ret []
  | chunk :: rest =>
      embedding <- getEmbedding chunk ;;
      embeddings <- embedAll rest ;;
      ret (embedding :: embeddings)
  end.

Inductive SourceKind := Pdf | Article | Slack.

Definition sourceName (k : SourceKind) : jsstring :=
  match k with
  | Pdf => u "pdf"
  | Article => u "article"
  | Slack => u "slack"
  end.

(** The body of the three loops of [loadAllData], one source each. *)
Definition ingestSource (fuel : nat) (k : SourceKind) (sourceId : jsstring)
  : M unit :=
  loaded <- sourceExists (sourceName k) sourceId ;;
  if loaded then ret tt
  else
    match k with
    | Pdf =>
        text <- loadPDF sourceId ;;
        chunks <- chunkTextM text ;;
        embeddings <- embedAll chunks ;;
        storeChunks (sourceName Pdf) sourceId chunks embeddings
    | Article =>
        text <- loadArticle sourceId ;;
        chunks <- chunkTextM text ;;
        embeddings <- embedAll chunks ;;
        storeChunks (sourceName Article) sourceId chunks embeddings
    | Slack =>
        messages <- loadSlackChannel fuel sourceId ;;
        if length messages =? 0 then ret tt
        else
          let combinedText := join [newline] messages in
          chunks <- chunkTextM combinedText ;;
          embeddings <- embedAll chunks ;;
          storeChunks (sourceName Slack) sourceId chunks embeddings
    end.

(** The sources in the order [loadAllData] visits them. *)
Definition allSources : list (SourceKind * jsstring) :=
  map (pair Pdf) pdfFiles ++ map (pair Article) articleIds
    ++ map (pair Slack) channels.

Definition loadAllData (fuel : nat) : M unit :=
  tryCatch
    (forEach pdfFiles (ingestSource fuel Pdf) ;;
     forEach articleIds (ingestSource fuel Article) ;;
     forEach channels (ingestSource fuel Slack))
    (fun error => emit (ConsoleError AtLoadAllData) ;; throw error).

(** *** Answering *)

Definition ask (userQuestion : jsstring) : M jsstring :=
  tryCatch
    (totalChunks <- dbCountAll ;;
     if totalChunks =? 0 then ret emptyKnowledgeBase
     else
       questionEmbedding <- getEmbedding userQuestion ;;
       similarChunks <- findSimilarChunks questionEmbedding 5 ;;
       if length similarChunks =? 0 then ret noRelevantInformation
       else
         let prompt := promptOf (contextOf similarChunks) userQuestion in
         emit (GenerateCall prompt) ;;
         match generateContent W prompt with
         | None => throw LlmError
         | Some answer => ret answer
         end)
    (fun error => emit (ConsoleError AtAsk) ;; throw error).

End Service.

(** The dimension the repository is configured with. *)
Definition configuredDimension : nat := 768.

(* ================================================================= *)
(** ** Vocabulary of the specifications *)

(** The rows that the loop of [storeChunks] inserts when it starts at
    index [i] with [chunks] left: one per chunk that has an embedding. *)
Definition rowsFrom (dimension : nat) (W : World) (src sourceId : jsstring)
    (i : nat) (chunks : list jsstring) (embeddings : list vector)
  : list Row :=
  mapi (fun k ce =>
          insertedRow dimension src sourceId k (fst ce)
            (castVector W (snd ce)))
    i (combine chunks (skipn i embeddings)).

Definition newRows (dimension : nat) (W : World) (src sourceId : jsstring)
    (chunks : list jsstring) (embeddings : list vector) : list Row :=
  rowsFrom dimension W src sourceId 0 chunks embeddings.

(** Does the insert of chunk [i], sent as statement number [clock], go
    through? It needs an embedding at index [i], of the configured
    length, and a database that takes the statement. *)
Definition insertOk (dimension : nat) (W : World) (embeddings : list vector)
    (clock i : nat) : bool :=
  match nth_error embeddings i with
  | Some e => negb (dbFault W clock) && (length e =? dimension)
  | None => false
  end.

(** How many inserts go through before the first one that does not. *)
Fixpoint successes (dimension : nat) (W : World) (embeddings : list vector)
    (clock i : nat) (chunks : list jsstring) : nat :=
  match chunks with
  | [] => 0
  | _ :: rest =>
      if insertOk dimension W embeddings clock i
      then S (successes dimension W embeddings (S clock) (S i) rest)
      else 0
  end.

(** After the specification: the cosine similarity of two vectors is
    one minus their cosine distance, the distance being one minus the
    sum of the products of their entries over the product of their
    lengths. It has a value when neither vector has length 0. *)
Definition sumOfProducts (a b : vector) : R :=
  fold_right Rplus 0%R (map (fun p => (fst p * snd p)%R) (combine a b)).

Definition euclideanLength (a : vector) : R := sqrt (sumOfProducts a a).

Definition cosineDefined (a b : vector) : Prop :=
  (euclideanLength a * euclideanLength b <> 0)%R.

Definition specCosineDistance (a b : vector) : R :=
  (1 - sumOfProducts a b / (euclideanLength a * euclideanLength b))%R.

Definition cosineSimilarity (a b : vector) : R :=
  (1 - specCosineDistance a b)%R.

(** Row [a] may stand before row [b] in a ranking by descending cosine
    similarity to [q]: when [b] has a similarity, so has [a], and it is
    at least as large. Rows without one (a stored vector of length 0)
    come after all the others. *)
Definition rankedBefore (dimension : nat) (q : vector) (a b : Row) : Prop :=
  forall va vb,
    embeddingField dimension a = Some va ->
    embeddingField dimension b = Some vb ->
    cosineDefined vb q ->
    cosineDefined va q
    /\ (cosineSimilarity va q >= cosineSimilarity vb q)%R.

(** [m] run from any state only adds events that satisfy [P] to the
    trace, and a value it returns satisfies [Q]. *)
Definition extends (P : Event -> Prop) (st st' : State) : Prop :=
  exists evs, trace st' = trace st ++ evs /\ Forall P evs.

Definition hoare {A} (P : Event -> Prop) (Q : A -> Prop) (m : M A) : Prop :=
  forall st,
    extends P st (snd (m st))
    /\ (forall a, fst (m st) = Returned a -> Q a).

(** The events added to the trace between two states. *)
Definition eventsBetween (st st' : State) : list Event :=
  skipn (length (trace st)) (trace st').

Definition isThrown {A} (o : Outcome A) : bool :=
  match o with Thrown _ => true | _ => false end.

Definition isFetch (ev : Event) : bool :=
  match ev with
  | ReadPdf _ | FetchArticle _ _ | FetchSlack _ _ => true
  | _ => false
  end.

Definition isEmbedCall (ev : Event) : bool :=
  match ev with EmbedCall _ => true | _ => false end.

Definition isStoreWrite (ev : Event) : bool :=
  match ev with DbDestroy _ _ | DbInsert _ _ _ => true | _ => false end.

(** Any event but the error message of the dimension guard. *)
Definition notGuard (ev : Event) : Prop :=
  ev <> ConsoleError InvalidEmbedding.

(* ================================================================= *)
(** ** Sample worlds and states *)

Definition emptyState : State :=
  {| table := []; dbClock := 0; trace := [] |}.

(** A world where everything answers: short texts, a two-entry
    embedding, one page of chat, a database without faults that keeps
    the numbers as it is given them (1 and 2, which single precision
    has exactly). *)
Definition calmWorld : World :=
  {| apiKeySet := true;
     embedContent := fun _ => Some (EmbeddingObject (Some [1; 2]%R) None);
     generateContent := fun _ => Some (u "an answer");
     readPdf := fun _ => Some (PdfString (u "alpha beta"));
     fetchArticle := fun _ _ => Response true (Some (u "gamma delta"));
     fetchSlack := fun _ _ =>
       Response true
         (Some {| data_messages := MessageArray [mkMsg (u "ann") (u "hello")];
                  hasMoreIsFalse := true |});
     dbFault := fun _ => false;
     float4 := fun x => x |}.

(** The same world with one collaborator failing. *)
Definition noPdfWorld : World :=
  {| apiKeySet := true;
     embedContent := embedContent calmWorld;
     generateContent := generateContent calmWorld;
     readPdf := fun _ => None;
     fetchArticle := fetchArticle calmWorld;
     fetchSlack := fetchSlack calmWorld;
     dbFault := dbFault calmWorld;
     float4 := float4 calmWorld |}.

Definition noEmbeddingWorld : World :=
  {| apiKeySet := true;
     embedContent := fun _ => None;
     generateContent := generateContent calmWorld;
     readPdf := readPdf calmWorld;
     fetchArticle := fetchArticle calmWorld;
     fetchSlack := fetchSlack calmWorld;
     dbFault := dbFault calmWorld;
     float4 := float4 calmWorld |}.

Definition noSlackWorld : World :=
  {| apiKeySet := true;
     embedContent := embedContent calmWorld;
     generateContent := generateContent calmWorld;
     readPdf := readPdf calmWorld;
     fetchArticle := fetchArticle calmWorld;
     fetchSlack := fun _ _ => Rejected;
     dbFault := dbFault calmWorld;
     float4 := float4 calmWorld |}.

(** The database fails on every statement / on one statement only. *)
Definition noDbWorld : World :=
  {| apiKeySet := true;
     embedContent := embedContent calmWorld;
     generateContent := generateContent calmWorld;
     readPdf := readPdf calmWorld;
     fetchArticle := fetchArticle calmWorld;
     fetchSlack := fetchSlack calmWorld;
     dbFault := fun _ => true;
     float4 := float4 calmWorld |}.

Definition faultAt (n : nat) : World :=
  {| apiKeySet := true;
     embedContent := embedContent calmWorld;
     generateContent := generateContent calmWorld;
     readPdf := readPdf calmWorld;
     fetchArticle := fetchArticle calmWorld;
     fetchSlack := fetchSlack calmWorld;
     dbFault := fun k => k =? n;
     float4 := float4 calmWorld |}.

(** The three vectors and the query of the ranking example, stored for
    one source under dimension 2. *)
Definition vecA : vector := [1; 0]%R.
Definition vecB : vector := [0; 1]%R.
Definition vecC : vector := [9 / 10; 1 / 10]%R.
Definition vecQ : vector := [1; 0]%R.

Definition rowA : Row := insertedRow 2 (u "pdf") (u "doc") 0 (u "A") vecA.
Definition rowB : Row := insertedRow 2 (u "pdf") (u "doc") 1 (u "B") vecB.
Definition rowC : Row := insertedRow 2 (u "pdf") (u "doc") 2 (u "C") vecC.

Definition rankingState : State :=
  {| table := [rowA; rowB; rowC]; dbClock := 0; trace := [] |}.

(** A vector opposite to the query and a vector of zeros. *)
Definition vecN : vector := [-1; 0]%R.
Definition vecZ : vector := [0; 0]%R.

Definition rowN : Row := insertedRow 2 (u "pdf") (u "doc") 0 (u "N") vecN.
Definition rowZ : Row := insertedRow 2 (u "pdf") (u "doc") 1 (u "Z") vecZ.

Definition zeroVectorState : State :=
  {| table := [rowZ; rowN]; dbClock := 0; trace := [] |}.

Definition firstPdf : jsstring := u "OpEd - A Revolution at Our Feet.pdf".

(** The state after one ingestion of the first PDF in the calm world. *)
Definition onceIngested : State :=
  snd (ingestSource 768 calmWorld 3 Pdf firstPdf emptyState).

Definition secondPdf : jsstring :=
  u "Research Paper - Gravitational Reversal Physics.pdf".

(** The calm world, except that the second PDF cannot be read. *)
Definition secondPdfFails : World :=
  {| apiKeySet := true;
     embedContent := embedContent calmWorld;
     generateContent := generateContent calmWorld;
     readPdf := fun file =>
       if streq file secondPdf then None else readPdf calmWorld file;
     fetchArticle := fetchArticle calmWorld;
     fetchSlack := fetchSlack calmWorld;
     dbFault := dbFault calmWorld;
     float4 := float4 calmWorld |}.

(* ================================================================= *)
(** ** Further vocabulary *)

(** A text made of white space only (the empty text is one). *)
Definition allBlank (s : jsstring) : Prop :=
  Forall (fun c => isWhiteSpace c = true) s.

(** [n] divided by [w], rounded up. *)
Definition ceilDiv (n w : nat) : nat := (n + w - 1) / w.

(** An array of words whose empty members, if any, sit at its two ends:
    the shape of [split] and of every window cut out of it. *)
Definition emptiesAtEnds (S : list jsstring) : Prop :=
  exists E1 M E2,
    S = E1 ++ M ++ E2
    /\ Forall (fun w => w = []) E1
    /\ Forall (fun w => w <> []) M
    /\ Forall (fun w => w = []) E2.

(** A chunk as [chunkText] builds them: not empty, no white space at
    either end, and equal to its own words joined by single spaces. *)
Definition tidyChunk (c : jsstring) : Prop :=
  c <> [] /\ startsClean c /\ endsClean c /\ join [space] (split c) = c.

(** [m] run from any state ends in a state related to it by [R]. *)
Definition respects {A} (R : State -> State -> Prop) (m : M A) : Prop :=
  forall st, R st (snd (m st)).

(** No statement was sent and the table is the same. *)
Definition sameDb (st st' : State) : Prop :=
  table st' = table st /\ dbClock st' = dbClock st.

Definition sameTable (st st' : State) : Prop := table st' = table st.

(** The rows of one pair (source, sourceId) are the same. *)
Definition pairKept (src sourceId : jsstring) (st st' : State) : Prop :=
  filter (matches src sourceId) (table st')
  = filter (matches src sourceId) (table st).

(** Every embedding stored in the configured column has the configured
    number of entries. *)
Definition wellDimensioned (dimension : nat) (t : list Row) : Prop :=
  Forall (fun r => match embeddingField dimension r with
                   | Some v => length v = dimension
                   | None => True
                   end) t.

Definition dimensionKept (dimension : nat) (st st' : State) : Prop :=
  wellDimensioned dimension (table st) ->
  wellDimensioned dimension (table st').

(** The state after one full batch in the calm world. *)
Definition allLoaded : State := snd (loadAllData 768 calmWorld 3 emptyState).

(** The callback of [app.listen] in [server.ts]. [initializeDB] belongs
    to the models, which are not among the sources: it is any
    computation. [autoLoad] is [process.env.AUTO_LOAD_DATA === 'true'].
    The two handlers only write to the console and go on; the messages
    of the server are not recorded in the trace. *)
Definition onListen (initializeDB : M unit) (autoLoad : bool)
    (EMBEDDING_DIMENSION : nat) (W : World) (fuel : nat) : M unit :=
  tryCatch
    (initializeDB ;;
     totalChunks <- dbCountAll W ;;
     if totalChunks =? 0 then
       if autoLoad then
         tryCatch (loadAllData EMBEDDING_DIMENSION W fuel)
           (fun _ => ret tt)
       else ret tt
     else ret tt)
    (fun _ => ret tt).

(** A message that [trim] does not empty. *)
Definition nonBlank (t : jsstring) : Prop := trim t <> [].

(** The vector [getEmbedding] makes of the answer of the model for a
    text (meaningful when the model answers with a usable array). *)
Definition embeddingOf (dimension : nat) (W : World) (text : jsstring)
  : vector :=
  match embedContent W text with
  | Some result =>
      if dimension =? 768 then fitDimension 768 (extractEmbedding result)
      else fitDimension 1536 (extractEmbedding result)
  | None => []
  end.

(** The model answers every one of these texts with a usable array. *)
Definition embeddable (W : World) (texts : list jsstring) : Prop :=
  Forall (fun t => exists result,
            embedContent W t = Some result
            /\ extractEmbedding result <> []) texts.

(** The value of a computation that returned ([d] otherwise). *)
Definition returnedOr {A} (d : A) (r : Outcome A * State) : A :=
  match fst r with Returned a => a | _ => d end.

Definition isCount (ev : Event) : bool :=
  match ev with DbCount _ _ => true | _ => false end.

Definition notCount (ev : Event) : Prop := isCount ev = false.

(** The existence check of a source, as an event. *)
Definition countOf (p : SourceKind * jsstring) : Event :=
  DbCount (sourceName (fst p)) (snd p).

(** The calm world without the API key. *)
Definition noKeyWorld : World :=
  {| apiKeySet := false;
     embedContent := embedContent calmWorld;
     generateContent := generateContent calmWorld;
     readPdf := readPdf calmWorld;
     fetchArticle := fetchArticle calmWorld;
     fetchSlack := fetchSlack calmWorld;
     dbFault := dbFault calmWorld;
     float4 := float4 calmWorld |}.

(** A text of 401 words, one more than a chunk holds. *)
Definition longText : jsstring := join [space] (repeat (u "w") 401).

(** The calm world, except that the second PDF is that text, on two
    pages, and that the embedding of a text tells its length. *)
Definition longPdfWorld : World :=
  {| apiKeySet := true;
     embedContent := fun t =>
       Some (EmbeddingObject (Some [1%R; INR (length t)]) None);
     generateContent := generateContent calmWorld;
     readPdf := fun file =>
       if streq file secondPdf
       then Some (PdfPages [u "w"; skipn 2 longText])
       else readPdf calmWorld file;
     fetchArticle := fetchArticle calmWorld;
     fetchSlack := fetchSlack calmWorld;
     dbFault := dbFault calmWorld;
     float4 := float4 calmWorld |}.

(** The calm world, except that the first page of a channel carries a
    string where the messages should be and the second an empty array. *)
Definition stringPageWorld : World :=
  {| apiKeySet := true;
     embedContent := embedContent calmWorld;
     generateContent := generateContent calmWorld;
     readPdf := readPdf calmWorld;
     fetchArticle := fetchArticle calmWorld;
     fetchSlack := fun _ page =>
       Response true
         (Some {| data_messages :=
                    if page =? 1 then NotAnArray true else MessageArray [];
                  hasMoreIsFalse := false |});
     dbFault := dbFault calmWorld;
     float4 := float4 calmWorld |}.

(* ================================================================= *)
(** * Sanity checks of the string model *)

Example split_empty : split (u "") = [u ""].
Proof. reflexivity. Qed.

Example split_edges : split (u " ab  c ") = [u ""; u "ab"; u "c"; u ""].
Proof. reflexivity. Qed.

Example chunkText_three :
  chunkText (u "a b c d e") 2 = Some [u "a b"; u "c d"; u "e"].
Proof. reflexivity. Qed.

Example chunkText_blank : chunkText (u "  ") 3 = Some [].
Proof. reflexivity. Qed.

Example chunkText_zero_step : chunkText (u "a b") 0 = None.
Proof. reflexivity. Qed.

(* ================================================================= *)
(** * Facts about strings *)

Lemma split_not_nil s : split s <> [].
Proof.
  induction s as [|c r IH]; simpl; [discriminate|].
  destruct (isWhiteSpace c).
  - destruct r as [|c' r']; [discriminate|].
    destruct (isWhiteSpace c'); [exact IH | discriminate].
  - destruct (split r); discriminate.
Qed.

Lemma split_cons_clean c r :
  isWhiteSpace c = false ->
  split (c :: r) = (c :: hd [] (split r)) :: tl (split r).
Proof.
  intros Hc. simpl. rewrite Hc.
  destruct (split r) eqn:E; [now apply split_not_nil in E | reflexivity].
Qed.

Lemma split_ws_ws c c' r :
  isWhiteSpace c = true -> isWhiteSpace c' = true ->
  split (c :: c' :: r) = split (c' :: r).
Proof.
  intros Hc Hc'. change (split (c :: c' :: r)) with
    (if isWhiteSpace c then
       if isWhiteSpace c' then split (c' :: r) else [] :: split (c' :: r)
     else match split (c' :: r) with
          | w :: ws => (c :: w) :: ws
          | [] => [[c]]
          end).
  now rewrite Hc, Hc'.
Qed.

Lemma split_ws_clean c c' r :
  isWhiteSpace c = true -> isWhiteSpace c' = false ->
  split (c :: c' :: r) = [] :: split (c' :: r).
Proof.
  intros Hc Hc'. change (split (c :: c' :: r)) with
    (if isWhiteSpace c then
       if isWhiteSpace c' then split (c' :: r) else [] :: split (c' :: r)
     else match split (c' :: r) with
          | w :: ws => (c :: w) :: ws
          | [] => [[c]]
          end).
  now rewrite Hc, Hc'.
Qed.

Lemma split_ws_last c :
  isWhiteSpace c = true -> split [c] = [[]; []].
Proof. intros Hc. simpl. now rewrite Hc. Qed.

(** A string that starts with white space has an empty first piece. *)
Lemma split_ws_head c r :
  isWhiteSpace c = true -> hd [] (split (c :: r)) = [].
Proof.
  revert c. induction r as [|c' r' IH]; intros c Hc.
  - now rewrite split_ws_last.
  - destruct (isWhiteSpace c') eqn:Hc'.
    + rewrite split_ws_ws by assumption. now apply IH.
    + now rewrite split_ws_clean.
Qed.

Lemma words_cons_ws c r :
  isWhiteSpace c = true -> words (c :: r) = words r.
Proof.
  intros Hc. unfold words. destruct r as [|c' r'].
  - now rewrite split_ws_last.
  - destruct (isWhiteSpace c') eqn:Hc'.
    + now rewrite split_ws_ws.
    + now rewrite split_ws_clean.
Qed.

Lemma filter_tl_empty_head (l : list jsstring) :
  hd [] l = [] -> filter nonEmpty (tl l) = filter nonEmpty l.
Proof. destruct l as [|h t]; simpl; [easy|]. now intros ->. Qed.

(** Reading a word without white space in front of any string. *)
Lemma split_app_clean w r :
  wsFree w ->
  split (w ++ r) = (w ++ hd [] (split r)) :: tl (split r).
Proof.
  induction 1 as [|c w Hc Hw IH]; simpl app.
  - destruct (split r) eqn:E; [now apply split_not_nil in E | reflexivity].
  - rewrite split_cons_clean by assumption. now rewrite IH.
Qed.

Lemma split_clean_word w : wsFree w -> split w = [w].
Proof.
  intros Hw. rewrite <- (app_nil_r w) at 1.
  rewrite split_app_clean by assumption. simpl. now rewrite app_nil_r.
Qed.

Lemma isWhiteSpace_space : isWhiteSpace space = true.
Proof. reflexivity. Qed.

Lemma join_cons2 sep w w' rest :
  join sep (w :: w' :: rest) = w ++ sep ++ join sep (w' :: rest).
Proof. reflexivity. Qed.

(** The words of a list of clean words joined by single spaces are its
    non-empty members. *)
Lemma words_join (S : list jsstring) :
  Forall wsFree S -> words (join [space] S) = filter nonEmpty S.
Proof.
  induction 1 as [|w S Hw HS IH]; [reflexivity|].
  destruct S as [|w' S'].
  - simpl join. unfold words. now rewrite split_clean_word.
  - rewrite join_cons2. unfold words.
    rewrite split_app_clean by assumption.
    simpl app at 2.
    rewrite (split_ws_head space _ isWhiteSpace_space), app_nil_r.
    assert (E : filter nonEmpty (tl (split (space :: join [space] (w' :: S'))))
                = filter nonEmpty (w' :: S')).
    { rewrite filter_tl_empty_head
        by apply (split_ws_head space _ isWhiteSpace_space).
      fold (words (space :: join [space] (w' :: S'))).
      now rewrite (words_cons_ws space _ isWhiteSpace_space). }
    change ([space] ++ join [space] (w' :: S'))
      with (space :: join [space] (w' :: S')).
    cbn [filter] in E |- *. rewrite E. reflexivity.
Qed.

(** Every piece of a split is free of white space. *)
Lemma split_wsFree s : Forall wsFree (split s).
Proof.
  induction s as [|c r IH]; [repeat constructor|].
  destruct (isWhiteSpace c) eqn:Hc.
  - destruct r as [|c' r'].
    + rewrite split_ws_last by assumption. repeat constructor.
    + destruct (isWhiteSpace c') eqn:Hc'.
      * now rewrite split_ws_ws.
      * rewrite split_ws_clean by assumption. constructor; [constructor|easy].
  - rewrite split_cons_clean by assumption.
    destruct (split r) as [|h t]; inversion IH; subst; simpl.
    + repeat constructor. assumption.
    + constructor; [constructor|]; assumption.
Qed.

(** *** Trimming *)

Lemma words_nil : words [] = [].
Proof. reflexivity. Qed.

Lemma words_trimStart s : words (trimStart s) = words s.
Proof.
  induction s as [|c r IH]; [reflexivity|]. simpl.
  destruct (isWhiteSpace c) eqn:Hc; [|reflexivity].
  now rewrite words_cons_ws.
Qed.

Lemma split_snoc_ws_head s c :
  isWhiteSpace c = true -> hd [] (split (s ++ [c])) = hd [] (split s).
Proof.
  intros Hc. induction s as [|e r IH].
  - simpl. now rewrite Hc.
  - simpl app. destruct (isWhiteSpace e) eqn:He.
    + now rewrite !split_ws_head.
    + rewrite !split_cons_clean by assumption. simpl. now rewrite IH.
Qed.

(** White space at the end adds no word. *)
Lemma words_snoc_ws s c :
  isWhiteSpace c = true -> words (s ++ [c]) = words s.
Proof.
  intros Hc. induction s as [|d r IH].
  - simpl. now rewrite words_cons_ws.
  - simpl app. destruct (isWhiteSpace d) eqn:Hd.
    + now rewrite !words_cons_ws.
    + unfold words in *. rewrite !split_cons_clean by assumption.
      simpl. rewrite (split_snoc_ws_head r c Hc). f_equal.
      pose proof (split_snoc_ws_head r c Hc) as Hhd.
      destruct (split (r ++ [c])) as [|h t] eqn:E1;
        [now apply split_not_nil in E1|].
      destruct (split r) as [|h' t'] eqn:E2;
        [now apply split_not_nil in E2|].
      simpl in *. subst h'. destruct (nonEmpty h); [now injection IH|easy].
Qed.

Lemma words_app_ws s r :
  Forall (fun c => isWhiteSpace c = true) r -> words (s ++ r) = words s.
Proof.
  intros Hr. revert s. induction Hr as [|c r Hc Hr IH]; intros s.
  - now rewrite app_nil_r.
  - change (c :: r) with ([c] ++ r). rewrite app_assoc, IH.
    now apply words_snoc_ws.
Qed.

Lemma trimEnd_split s :
  exists r, s = trimEnd s ++ r /\ Forall (fun c => isWhiteSpace c = true) r.
Proof.
  induction s as [|c s' [r [E Hr]]].
  - exists []. split; [reflexivity | constructor].
  - simpl. destruct (trimEnd s') as [|d t] eqn:Et.
    + destruct (isWhiteSpace c) eqn:Hc.
      * exists (c :: s'). split; [reflexivity|].
        simpl in E. subst r. constructor; assumption.
      * exists r. simpl in E |- *. split; [now rewrite <- E | exact Hr].
    + exists r. simpl in E |- *. split; [now rewrite <- E | exact Hr].
Qed.

Lemma words_trimEnd s : words (trimEnd s) = words s.
Proof.
  destruct (trimEnd_split s) as [r [E Hr]].
  rewrite E at 2. symmetry. now apply words_app_ws.
Qed.

Lemma words_trim s : words (trim s) = words s.
Proof. unfold trim. now rewrite words_trimEnd, words_trimStart. Qed.

Lemma trimStart_startsClean s : startsClean (trimStart s).
Proof.
  induction s as [|c r IH]; simpl; [exact I|].
  destruct (isWhiteSpace c) eqn:Hc; [exact IH | exact Hc].
Qed.

Lemma trimEnd_startsClean s : startsClean s -> startsClean (trimEnd s).
Proof.
  destruct s as [|c r]; simpl; [easy|]. intros Hc.
  destruct (trimEnd r); [now rewrite Hc | exact Hc].
Qed.

Lemma trimEnd_endsClean s : endsClean (trimEnd s).
Proof.
  induction s as [|c r IH]; simpl; [exact I|].
  destruct (trimEnd r) as [|d t] eqn:Et.
  - destruct (isWhiteSpace c) eqn:Hc; simpl; [exact I | exact Hc].
  - exact IH.
Qed.

(** A non-empty string with no white space at either end splits into
    non-empty pieces only. *)
Lemma split_clean_ends_aux s :
  s <> [] -> endsClean s ->
  filter nonEmpty (tl (split s)) = tl (split s)
  /\ (startsClean s -> hd [] (split s) <> []).
Proof.
  induction s as [|c r IH]; [easy|]. intros _ He.
  destruct r as [|c' r'].
  - simpl in He. rewrite split_cons_clean by assumption. simpl.
    split; [reflexivity | discriminate].
  - assert (Hr : endsClean (c' :: r')) by exact He.
    destruct (IH ltac:(discriminate) Hr) as [IHt IHh].
    destruct (isWhiteSpace c) eqn:Hc.
    + destruct (isWhiteSpace c') eqn:Hc'.
      * rewrite split_ws_ws by assumption. split; [exact IHt|].
        simpl. congruence.
      * rewrite split_ws_clean by assumption. split; [|simpl; congruence].
        cbn [tl]. specialize (IHh Hc').
        destruct (split (c' :: r')) as [|h t]; [reflexivity|].
        simpl in IHt, IHh |- *. destruct h; [easy|]. simpl. now rewrite IHt.
    + rewrite split_cons_clean by assumption. split; [exact IHt|].
      discriminate.
Qed.

Lemma split_clean_ends s :
  s <> [] -> startsClean s -> endsClean s -> split s = words s.
Proof.
  intros Hs Hb He. unfold words.
  destruct (split_clean_ends_aux s Hs He) as [Ht Hh]. specialize (Hh Hb).
  destruct (split s) as [|h t]; [reflexivity|].
  simpl in *. destruct h; [easy|]. simpl. now rewrite Ht.
Qed.

Lemma trim_nonEmpty_split s :
  trim s <> [] -> split (trim s) = words s.
Proof.
  intros H. rewrite <- words_trim. apply split_clean_ends; [exact H| |].
  - apply trimEnd_startsClean, trimStart_startsClean.
  - apply trimEnd_endsClean.
Qed.

(** The chunk built from a window of clean words holds exactly the
    non-empty words of the window; it is empty when there is none. *)
Lemma chunk_of_window (S : list jsstring) :
  Forall wsFree S ->
  let chunk := trim (join [space] S) in
  (chunk = [] /\ filter nonEmpty S = [])
  \/ (chunk <> [] /\ split chunk = filter nonEmpty S).
Proof.
  intros HS chunk. pose proof (words_join S HS) as Hw.
  destruct chunk as [|c t] eqn:E.
  - left. split; [reflexivity|].
    rewrite <- Hw, <- words_trim. fold chunk in E.
    unfold chunk in E. now rewrite E.
  - right. split; [discriminate|]. rewrite <- E. unfold chunk.
    rewrite trim_nonEmpty_split; [exact Hw|]. fold chunk. now rewrite E.
Qed.

(* ================================================================= *)
(** * The chunker *)

Lemma chunksOf_nil fuel w : chunksOf fuel w [] = [].
Proof. destruct fuel; reflexivity. Qed.

Lemma chunksOf_cons fuel w x l :
  chunksOf (S fuel) w (x :: l) =
  (if 0 <? length (trim (join [space] (firstn w (x :: l))))
   then [trim (join [space] (firstn w (x :: l)))] else [])
  ++ chunksOf fuel w (skipn w (x :: l)).
Proof. reflexivity. Qed.

Lemma slice_window {A} (a : list A) i w :
  slice a i (i + w) = firstn w (skipn i a).
Proof. unfold slice. now rewrite Nat.add_comm, Nat.add_sub. Qed.

(** The loop computes [chunksOf] of what is left of the array, as soon
    as the fuel covers the words that are left. *)
Lemma chunkLoop_chunksOf fuel ws w :
  0 < w ->
  forall i acc,
    length ws - i <= fuel ->
    chunkLoop fuel ws w i acc = Some (acc ++ chunksOf fuel w (skipn i ws)).
Proof.
  intros Hw. induction fuel as [|fuel IH]; intros i acc Hf.
  - simpl. destruct (Nat.ltb_spec i (length ws)); [lia|].
    now rewrite app_nil_r.
  - cbn [chunkLoop]. destruct (Nat.ltb_spec i (length ws)) as [Hi|Hi].
    + rewrite slice_window, IH by lia.
      destruct (skipn i ws) as [|x l] eqn:E.
      { apply (f_equal (@length _)) in E. rewrite length_skipn in E.
        simpl in E. lia. }
      rewrite chunksOf_cons. rewrite <- E.
      replace (skipn (i + w) ws) with (skipn w (skipn i ws))
        by (rewrite skipn_skipn; f_equal; lia).
      destruct (0 <? length (trim (join [space] (firstn w (skipn i ws)))));
        now rewrite <- ?app_assoc.
    + rewrite skipn_all2 by lia. now rewrite chunksOf_nil, app_nil_r.
Qed.

Lemma chunkText_chunksOf text w :
  0 < w ->
  chunkText text w =
  Some (chunksOf (length (split text)) w (split text)).
Proof.
  intros Hw. unfold chunkText.
  rewrite chunkLoop_chunksOf by (assumption || lia). reflexivity.
Qed.

Lemma Forall_firstn {A} (P : A -> Prop) n (l : list A) :
  Forall P l -> Forall P (firstn n l).
Proof.
  intros H. rewrite <- (firstn_skipn n l) in H.
  now apply Forall_app in H.
Qed.

Lemma Forall_skipn {A} (P : A -> Prop) n (l : list A) :
  Forall P l -> Forall P (skipn n l).
Proof.
  intros H. rewrite <- (firstn_skipn n l) in H.
  now apply Forall_app in H.
Qed.

Lemma ltb_length_nonEmpty (s : jsstring) :
  (0 <? length s) = nonEmpty s.
Proof. now destruct s. Qed.

(** One step of [chunksOf] in terms of the words of the window. *)
Lemma chunk_step (S : list jsstring) :
  Forall wsFree S ->
  flat_map split
    (if 0 <? length (trim (join [space] S))
     then [trim (join [space] S)] else [])
  = filter nonEmpty S.
Proof.
  intros HS. destruct (chunk_of_window S HS) as [[E F]|[E F]].
  - rewrite E, F. reflexivity.
  - rewrite ltb_length_nonEmpty.
    destruct (trim (join [space] S)) eqn:T; [easy|].
    simpl. now rewrite app_nil_r.
Qed.

Lemma chunksOf_words fuel w :
  0 < w ->
  forall l, Forall wsFree l -> length l <= fuel ->
  flat_map split (chunksOf fuel w l) = filter nonEmpty l.
Proof.
  intros Hw. induction fuel as [|fuel IH]; intros l Hl Hf.
  - destruct l; [reflexivity | simpl in Hf; lia].
  - destruct l as [|x l]; [reflexivity|].
    rewrite chunksOf_cons, flat_map_app.
    rewrite chunk_step by now apply Forall_firstn.
    rewrite IH.
    + rewrite <- filter_app. now rewrite firstn_skipn.
    + now apply Forall_skipn.
    + rewrite length_skipn. lia.
Qed.

Lemma filter_length_le {A} (f : A -> bool) l :
  length (filter f l) <= length l.
Proof.
  induction l as [|x l IH]; simpl; [lia|]. destruct (f x); simpl; lia.
Qed.

Lemma chunksOf_bounded fuel w :
  forall l, Forall wsFree l ->
  Forall (fun c => 1 <= length (split c) <= w) (chunksOf fuel w l).
Proof.
  induction fuel as [|fuel IH]; intros l Hl; [constructor|].
  destruct l as [|x l]; [constructor|].
  rewrite chunksOf_cons. apply Forall_app. split.
  - set (S := firstn w (x :: l)).
    destruct (chunk_of_window S (Forall_firstn _ w _ Hl)) as [[E F]|[E F]].
    + rewrite E. constructor.
    + rewrite ltb_length_nonEmpty.
      destruct (trim (join [space] S)) eqn:T; [easy|].
      constructor; [|constructor]. split.
      * pose proof (split_not_nil (c :: j)).
        destruct (split (c :: j)); [easy | simpl; lia].
      * rewrite F. etransitivity; [apply filter_length_le|].
        unfold S. rewrite length_firstn. lia.
  - apply IH. now apply Forall_skipn.
Qed.

(** *** Windows of a text that starts with a word *)

Lemma innerNonEmpty_cons x t :
  x <> [] -> innerNonEmpty t -> innerNonEmpty (x :: t).
Proof. intros Hx Ht. simpl. now destruct t. Qed.

Lemma innerNonEmpty_tl x t : innerNonEmpty (x :: t) -> innerNonEmpty t.
Proof. simpl. destruct t; [easy|]. now intros [_ H]. Qed.

Lemma split_tl_inner s : innerNonEmpty (tl (split s)).
Proof.
  induction s as [|c r IH]; [exact I|].
  destruct (isWhiteSpace c) eqn:Hc.
  - destruct r as [|c' r'].
    + now rewrite split_ws_last.
    + destruct (isWhiteSpace c') eqn:Hc'.
      * now rewrite split_ws_ws.
      * rewrite split_ws_clean by assumption. cbn [tl].
        rewrite split_cons_clean in IH |- * by assumption.
        apply innerNonEmpty_cons; [discriminate | exact IH].
  - now rewrite split_cons_clean.
Qed.

Lemma split_inner s : startsClean s -> innerNonEmpty (split s).
Proof.
  destruct s as [|c r]; [easy|]. simpl startsClean. intros Hc.
  rewrite split_cons_clean by assumption.
  apply innerNonEmpty_cons; [discriminate|].
  pose proof (split_tl_inner (c :: r)) as H.
  now rewrite split_cons_clean in H.
Qed.

Lemma innerNonEmpty_skipn n : forall l,
  innerNonEmpty l -> innerNonEmpty (skipn n l).
Proof.
  induction n as [|n IH]; intros l Hl; [exact Hl|].
  destruct l as [|x l]; [exact I|]. simpl skipn.
  apply IH. now apply innerNonEmpty_tl in Hl.
Qed.

Lemma innerNonEmpty_firstn n : forall l,
  innerNonEmpty l -> skipn n l <> [] ->
  Forall (fun w => w <> []) (firstn n l) /\ length (firstn n l) = n.
Proof.
  induction n as [|n IH]; intros l Hl Hs; [split; [constructor|easy]|].
  destruct l as [|x l]; [easy|]. simpl in Hs |- *.
  destruct l as [|y l]; [now destruct n|].
  destruct Hl as [Hx Hl]. destruct (IH (y :: l) Hl Hs) as [H1 H2].
  split; [now constructor | now rewrite H2].
Qed.

Lemma filter_nonEmpty_all (S : list jsstring) :
  Forall (fun w => w <> []) S -> filter nonEmpty S = S.
Proof.
  induction 1 as [|w S Hw HS IH]; [reflexivity|].
  simpl. destruct w; [easy|]. simpl. now rewrite IH.
Qed.

Lemma chunksOf_exact fuel w :
  0 < w ->
  forall l, Forall wsFree l -> innerNonEmpty l ->
  nonFinalExact w (chunksOf fuel w l).
Proof.
  intros Hw. induction fuel as [|fuel IH]; intros l Hl Hin; [exact I|].
  destruct l as [|x l]; [exact I|].
  rewrite chunksOf_cons.
  destruct (skipn w (x :: l)) as [|y l'] eqn:E.
  - rewrite chunksOf_nil, app_nil_r.
    now destruct (0 <? length (trim (join [space] (firstn w (x :: l))))).
  - assert (Hs : skipn w (x :: l) <> []) by now rewrite E.
    destruct (innerNonEmpty_firstn w _ Hin Hs) as [Hne Hlen].
    set (S := firstn w (x :: l)) in *.
    destruct (chunk_of_window S (Forall_firstn _ w _ Hl)) as [[_ F]|[T F]].
    + rewrite filter_nonEmpty_all in F by assumption.
      rewrite F in Hlen. simpl in Hlen. lia.
    + rewrite ltb_length_nonEmpty.
      destruct (trim (join [space] S)) as [|c t] eqn:ET; [easy|].
      cbn [nonEmpty app].
      assert (IH' : nonFinalExact w (chunksOf fuel w (y :: l'))).
      { apply IH; rewrite <- E;
          [now apply Forall_skipn | now apply innerNonEmpty_skipn]. }
      cbn [nonFinalExact]. fold nonFinalExact.
      destruct (chunksOf fuel w (y :: l')); [exact I|].
      split; [|exact IH'].
      rewrite F, filter_nonEmpty_all by assumption. exact Hlen.
Qed.

Lemma nonFinalExact_nth n chunks :
  nonFinalExact n chunks ->
  forall i, S i < length chunks -> length (split (nth i chunks [])) = n.
Proof.
  induction chunks as [|c rest IH]; intros H i Hi; [simpl in Hi; lia|].
  simpl in H. destruct rest as [|c' rest']; [simpl in Hi; lia|].
  destruct H as [Hc Hr]. destruct i as [|i]; [exact Hc|].
  apply (IH Hr). simpl in Hi |- *. lia.
Qed.

Lemma chunkText_total text w :
  0 < w -> exists chunks, chunkText text w = Some chunks.
Proof. intros Hw. rewrite chunkText_chunksOf by assumption. eauto. Qed.

(** With no white space at either end of a non-empty text, splitting
    the chunks gives back the split of the text itself. *)
Lemma chunkText_trimmed_roundtrip text w chunks :
  0 < w -> text <> [] -> startsClean text -> endsClean text ->
  chunkText text w = Some chunks ->
  flat_map split chunks = split text.
Proof.
  intros Hw Ht Hb He. rewrite chunkText_chunksOf by assumption.
  intros [= <-]. rewrite chunksOf_words; try assumption; try lia.
  - symmetry. now apply split_clean_ends.
  - apply split_wsFree.
Qed.

(** Whatever the text, no chunk is empty or longer than the window. *)
Lemma chunkText_at_most text w chunks :
  0 < w -> chunkText text w = Some chunks ->
  Forall (fun c => 1 <= length (split c) <= w) chunks.
Proof.
  intros Hw. rewrite chunkText_chunksOf by assumption. intros [= <-].
  apply chunksOf_bounded, split_wsFree.
Qed.

(** C4 (amended). For every text and every positive window size,
    [chunkText] returns, and splitting its chunks on white space, one
    after the other, gives exactly the non-empty words of the text in
    their order: the empty pieces that [split] leaves for white space
    at the start or the end of the text are not reproduced. *)
Theorem chunkText_roundtrip text w :
  0 < w ->
  exists chunks,
    chunkText text w = Some chunks
    /\ flat_map split chunks = filter nonEmpty (split text).
Proof.
  intros Hw. rewrite chunkText_chunksOf by assumption.
  eexists. split; [reflexivity|].
  apply chunksOf_words; [assumption | apply split_wsFree | lia].
Qed.

Lemma chunkText_roundtrip_witness :
  0 < 2 /\
  exists chunks,
    chunkText (u " a b  c ") 2 = Some chunks
    /\ flat_map split chunks = filter nonEmpty (split (u " a b  c ")).
Proof.
  split; [lia | apply (chunkText_roundtrip (u " a b  c ") 2); lia].
Defined.

(** C4 as stated fails on a text that starts with white space: the
    split of [" a"] has an empty first piece, and the chunks do not. *)
Lemma chunkText_leading_space :
  u " a" <> []
  /\ chunkText (u " a") 1 = Some [u "a"]
  /\ flat_map split [u "a"] = [u "a"]
  /\ split (u " a") = [u ""; u "a"]
  /\ flat_map split [u "a"] <> split (u " a").
Proof. repeat split; discriminate. Qed.

(** C7 (amended). For every text that does not start with white space
    and every positive window size, [chunkText] returns chunks whose
    words, in order, are the words of the text; every chunk but the
    last holds exactly [w] words, and every chunk holds at least one
    and at most [w]. *)
Theorem chunkText_windows text w :
  0 < w -> startsClean text ->
  exists chunks,
    chunkText text w = Some chunks
    /\ flat_map split chunks = words text
    /\ (forall i, S i < length chunks ->
          length (split (nth i chunks [])) = w)
    /\ Forall (fun c => 1 <= length (split c) <= w) chunks.
Proof.
  intros Hw Hb. rewrite chunkText_chunksOf by assumption.
  eexists. split; [reflexivity|]. split; [|split].
  - apply chunksOf_words; [assumption | apply split_wsFree | lia].
  - apply nonFinalExact_nth, chunksOf_exact;
      [assumption | apply split_wsFree | now apply split_inner].
  - apply chunksOf_bounded, split_wsFree.
Qed.

Lemma chunkText_windows_witness :
  0 < 2 /\ startsClean (u "a b c d e ") /\
  exists chunks,
    chunkText (u "a b c d e ") 2 = Some chunks
    /\ flat_map split chunks = words (u "a b c d e ")
    /\ (forall i, S i < length chunks ->
          length (split (nth i chunks [])) = 2)
    /\ Forall (fun c => 1 <= length (split c) <= 2) chunks.
Proof.
  split; [lia|]. split; [reflexivity|].
  apply (chunkText_windows (u "a b c d e ") 2); [lia | reflexivity].
Defined.

(** C7 as stated fails on a text that starts with white space: the
    first window holds the empty first piece of the split, so the
    first chunk, which is not the last, has one word instead of two. *)
Lemma chunkText_short_first_chunk :
  chunkText (u " a b c") 2 = Some [u "a"; u "b c"]
  /\ split (u "a") = [u "a"]
  /\ length (split (nth 0 [u "a"; u "b c"] [])) <> 2.
Proof. repeat split; discriminate. Qed.

(* ================================================================= *)
(** * The embedding adapter *)

Lemma fitDimension_length n e : length (fitDimension n e) = n.
Proof.
  unfold fitDimension. destruct (Nat.leb_spec n (length e)).
  - rewrite length_firstn. lia.
  - rewrite length_app, repeat_length. lia.
Qed.

Lemma fitDimension_long n e :
  n <= length e -> fitDimension n e = firstn n e.
Proof.
  intros H. unfold fitDimension.
  now destruct (Nat.leb_spec n (length e)); [|lia].
Qed.

Lemma fitDimension_short n e :
  length e < n -> fitDimension n e = e ++ repeat 0%R (n - length e).
Proof.
  intros H. unfold fitDimension.
  now destruct (Nat.leb_spec n (length e)); [lia|].
Qed.

(** The illustration of the specification, on the truncate-or-pad step
    at width 4. *)
Example fitDimension_truncates :
  fitDimension 4 [1; 2; 3; 4; 5; 6]%R = [1; 2; 3; 4]%R.
Proof. reflexivity. Qed.

Example fitDimension_pads :
  fitDimension 4 [1; 2]%R = [1; 2; 0; 0]%R.
Proof. reflexivity. Qed.

Lemma length_eqb_0 {A} (l : list A) : (length l =? 0) = true <-> l = [].
Proof. destruct l; simpl; split; congruence. Qed.

(** What [getEmbedding] does with a response that holds a non-empty
    array. *)
Lemma getEmbedding_usable D W text result st :
  apiKeySet W = true ->
  embedContent W text = Some result ->
  extractEmbedding result <> [] ->
  getEmbedding D W text st =
  (Returned (if D =? 768 then fitDimension 768 (extractEmbedding result)
             else fitDimension 1536 (extractEmbedding result)),
   {| table := table st; dbClock := dbClock st;
      trace := trace st ++ [EmbedCall text] |}).
Proof.
  intros Hk Hr He. unfold getEmbedding, tryCatch, bind, emit.
  rewrite Hk, Hr. simpl.
  destruct (length (extractEmbedding result) =? 0) eqn:E.
  - now apply length_eqb_0 in E.
  - now destruct (D =? 768).
Qed.

(** Whatever the world and the configured dimension, a vector that
    [getEmbedding] returns has 768 or 1536 entries; 768 when that is
    the configured dimension. *)
Lemma getEmbedding_returns D W text st v st' :
  getEmbedding D W text st = (Returned v, st') ->
  length v = if D =? 768 then 768 else 1536.
Proof.
  unfold getEmbedding, tryCatch, bind, emit, throw, ret.
  destruct (apiKeySet W); simpl; [|discriminate].
  destruct (embedContent W text) as [result|]; [|discriminate].
  destruct (length (extractEmbedding result) =? 0); simpl; [discriminate|].
  destruct (D =? 768); intros [= <- _]; apply fitDimension_length.
Qed.

(** C3. For the configured dimension 768, and for 1536, the other
    dimension the adapter knows: when the call to the embedding model
    answers with a response from which a non-empty array is extracted,
    [getEmbedding] returns a vector of exactly [D] entries, the first
    [D] entries of the array when it has at least [D], and else the
    array followed by zeros. *)
Theorem getEmbedding_dimension D W text result st :
  D = 768 \/ D = 1536 ->
  apiKeySet W = true ->
  embedContent W text = Some result ->
  extractEmbedding result <> [] ->
  exists v,
    fst (getEmbedding D W text st) = Returned v
    /\ length v = D
    /\ (D <= length (extractEmbedding result) ->
        v = firstn D (extractEmbedding result))
    /\ (length (extractEmbedding result) < D ->
        v = extractEmbedding result
              ++ repeat 0%R (D - length (extractEmbedding result))).
Proof.
  intros HD Hk Hr He.
  rewrite (getEmbedding_usable D W text result st Hk Hr He).
  exists (fitDimension D (extractEmbedding result)). split.
  - simpl. now destruct HD as [-> | ->].
  - split; [apply fitDimension_length|].
    split; [apply fitDimension_long | apply fitDimension_short].
Qed.

Lemma getEmbedding_dimension_witness :
  (768 = 768 \/ 768 = 1536)
  /\ apiKeySet calmWorld = true
  /\ embedContent calmWorld (u "q")
     = Some (EmbeddingObject (Some [1; 2]%R) None)
  /\ extractEmbedding (EmbeddingObject (Some [1; 2]%R) None) <> []
  /\ exists v,
       fst (getEmbedding 768 calmWorld (u "q") emptyState) = Returned v
       /\ length v = 768
       /\ (768 <= length (extractEmbedding
                            (EmbeddingObject (Some [1; 2]%R) None)) ->
           v = firstn 768 (extractEmbedding
                            (EmbeddingObject (Some [1; 2]%R) None)))
       /\ (length (extractEmbedding
                     (EmbeddingObject (Some [1; 2]%R) None)) < 768 ->
           v = extractEmbedding (EmbeddingObject (Some [1; 2]%R) None)
               ++ repeat 0%R
                    (768 - length (extractEmbedding
                                     (EmbeddingObject (Some [1; 2]%R) None)))).
Proof.
  split; [left; reflexivity|]. split; [reflexivity|].
  split; [reflexivity|]. split; [discriminate|].
  apply (getEmbedding_dimension 768 calmWorld (u "q")
           (EmbeddingObject (Some [1; 2]%R) None) emptyState);
    [left; reflexivity | reflexivity | reflexivity | discriminate].
Defined.

(* ================================================================= *)
(** * Traces *)

Lemma extends_refl P st : extends P st st.
Proof. exists []. now rewrite app_nil_r. Qed.

Lemma extends_same P st st' : trace st' = trace st -> extends P st st'.
Proof. intros E. exists []. now rewrite app_nil_r. Qed.

Lemma extends_trans P st1 st2 st3 :
  extends P st1 st2 -> extends P st2 st3 -> extends P st1 st3.
Proof.
  intros [e1 [E1 F1]] [e2 [E2 F2]]. exists (e1 ++ e2). split.
  - now rewrite E2, E1, app_assoc.
  - now apply Forall_app.
Qed.

Lemma hoare_ret {A} P (Q : A -> Prop) a : Q a -> hoare P Q (ret a).
Proof.
  intros HQ st. split; [apply extends_refl|].
  simpl. now intros ? [= <-].
Qed.

Lemma hoare_throw {A} P (Q : A -> Prop) e : hoare P Q (throw e).
Proof. intros st. split; [apply extends_refl | discriminate]. Qed.

Lemma hoare_running {A} P (Q : A -> Prop) : hoare P Q running.
Proof. intros st. split; [apply extends_refl | discriminate]. Qed.

Lemma hoare_bind {A B} P (Q : A -> Prop) (R : B -> Prop) m k :
  hoare P Q m -> (forall a, Q a -> hoare P R (k a)) ->
  hoare P R (bind m k).
Proof.
  intros Hm Hk st. unfold bind. destruct (Hm st) as [He Hq].
  destruct (m st) as [[a|e|] st1]; simpl in *.
  - destruct (Hk a (Hq a eq_refl) st1) as [He' Hr].
    split; [now apply (extends_trans P st st1) | exact Hr].
  - split; [exact He | discriminate].
  - split; [exact He | discriminate].
Qed.

Lemma hoare_tryCatch {A} P (Q : A -> Prop) m h :
  hoare P Q m -> (forall e, hoare P Q (h e)) ->
  hoare P Q (tryCatch m h).
Proof.
  intros Hm Hh st. unfold tryCatch. destruct (Hm st) as [He Hq].
  destruct (m st) as [[a|e|] st1]; simpl in *.
  - split; assumption.
  - destruct (Hh e st1) as [He' Hr].
    split; [now apply (extends_trans P st st1) | exact Hr].
  - split; [exact He | discriminate].
Qed.

Lemma hoare_weaken {A} P (Q Q' : A -> Prop) m :
  (forall a, Q a -> Q' a) -> hoare P Q m -> hoare P Q' m.
Proof.
  intros HQ Hm st. destruct (Hm st) as [He Hq].
  split; [exact He | intros a Ha; apply HQ, Hq, Ha].
Qed.

Lemma hoare_emit P ev : P ev -> hoare P (fun _ => True) (emit ev).
Proof.
  intros Hp st. split; [|easy]. exists [ev]. split; [reflexivity|].
  now constructor.
Qed.

Lemma hoare_statement P W : hoare P (fun _ => True) (statement W).
Proof.
  intros st. unfold statement. split; [|easy].
  destruct (dbFault W (dbClock st)); now apply extends_same.
Qed.

Lemma hoare_getTable P : hoare P (fun _ => True) getTable.
Proof. intros st. split; [apply extends_refl | easy]. Qed.

Lemma hoare_setTable P f : hoare P (fun _ => True) (setTable f).
Proof. intros st. split; [now apply extends_same | easy]. Qed.

Lemma eventsBetween_extends P st st' :
  extends P st st' -> Forall P (eventsBetween st st').
Proof.
  intros [evs [E F]]. unfold eventsBetween. rewrite E.
  rewrite skipn_app, skipn_all, Nat.sub_diag. exact F.
Qed.

Ltac hoare_step :=
  match goal with
  | |- hoare _ _ (bind _ _) =>
      eapply hoare_bind with (Q := fun _ => True); [|intros ? _]
  | |- hoare _ _ (tryCatch _ _) => apply hoare_tryCatch; [|intros ?]
  | |- hoare _ _ (emit _) => apply hoare_emit
  | |- hoare _ _ (ret _) => apply hoare_ret
  | |- hoare _ _ (throw _) => apply hoare_throw
  | |- hoare _ _ running => apply hoare_running
  | |- hoare _ _ (statement _) => apply hoare_statement
  | |- hoare _ _ getTable => apply hoare_getTable
  | |- hoare _ _ (setTable _) => apply hoare_setTable
  end.

(* ================================================================= *)
(** * The dimension guard of [findSimilarChunks] *)

Lemma findSimilarChunks_invalid D W q limit st :
  length q <> D ->
  findSimilarChunks D W q limit st =
  (Returned [],
   {| table := table st; dbClock := dbClock st;
      trace := trace st ++ [ConsoleError InvalidEmbedding] |}).
Proof.
  intros H. unfold findSimilarChunks, tryCatch, bind, emit, ret.
  now destruct (Nat.eqb_spec (length q) D).
Qed.

Lemma findSimilarChunks_valid_trace D W q limit :
  length q = D ->
  hoare notGuard (fun _ => True) (findSimilarChunks D W q limit).
Proof.
  intros H. unfold findSimilarChunks. rewrite H, Nat.eqb_refl. simpl.
  unfold dbNearest. repeat hoare_step; try easy; discriminate.
Qed.

Lemma getEmbedding_events D W text :
  hoare notGuard (fun _ => True) (getEmbedding D W text).
Proof.
  unfold getEmbedding. apply hoare_tryCatch.
  - destruct (apiKeySet W); simpl; [|apply hoare_throw].
    hoare_step; [hoare_step; discriminate|].
    destruct (embedContent W text) as [result|]; [|apply hoare_throw].
    destruct (length (extractEmbedding result) =? 0).
    + repeat hoare_step; discriminate.
    + destruct (D =? 768); now apply hoare_ret.
  - intros e. repeat hoare_step; discriminate.
Qed.

Lemma getEmbedding_trace D W text :
  hoare notGuard (fun v => length v = if D =? 768 then 768 else 1536)
    (getEmbedding D W text).
Proof.
  intros st. split; [apply getEmbedding_events|].
  intros v Hv. destruct (getEmbedding D W text st) as [o st'] eqn:E.
  simpl in Hv. subst o. now apply getEmbedding_returns in E.
Qed.

(** Under the configured dimension, [ask] never logs the message of
    the guard. *)
Lemma ask_trace W question :
  hoare notGuard (fun _ => True) (ask configuredDimension W question).
Proof.
  unfold ask. apply hoare_tryCatch.
  - eapply hoare_bind with (Q := fun _ => True).
    { unfold dbCountAll. repeat hoare_step; try easy; discriminate. }
    intros total _. destruct (total =? 0); [now apply hoare_ret|].
    eapply hoare_bind; [apply getEmbedding_trace|].
    intros v Hv. simpl in Hv.
    eapply hoare_bind with (Q := fun _ => True).
    { now apply findSimilarChunks_valid_trace. }
    intros similar _. destruct (length similar =? 0); [now apply hoare_ret|].
    hoare_step; [hoare_step; discriminate|].
    destruct (generateContent W _); [now apply hoare_ret | apply hoare_throw].
  - intros e. repeat hoare_step; discriminate.
Qed.

(** When the guard fires inside [ask], the answer is the sentinel for
    no relevant information. *)
Lemma ask_guard_sentinel D W question st v st1 :
  table st <> [] ->
  dbFault W (dbClock st) = false ->
  getEmbedding D W question
    {| table := table st; dbClock := S (dbClock st);
       trace := trace st ++ [DbCountAll] |} = (Returned v, st1) ->
  length v <> D ->
  fst (ask D W question st) = Returned noRelevantInformation.
Proof.
  intros Ht Hf Hg Hl.
  unfold ask, dbCountAll, tryCatch, bind, emit, statement, getTable, ret.
  cbn [table dbClock trace]. rewrite Hf. cbv beta iota.
  cbn [table dbClock trace].
  assert (Hn : (length (table st) =? 0) = false)
    by (destruct (table st); [easy | reflexivity]).
  rewrite Hn, Hg.
  rewrite (findSimilarChunks_invalid D W v 5 st1 Hl). reflexivity.
Qed.

(** C10. A query vector whose length is not the configured dimension
    makes [findSimilarChunks] return the empty list, without an error
    and without a statement sent to the database; inside [ask] that
    makes the answer the no-relevant-information sentinel. Under the
    configured dimension 768 every vector [getEmbedding] returns has
    768 entries, and no run of [ask] takes the guard's branch. *)
Theorem findSimilarChunks_guard :
  (forall D W q limit st,
     length q <> D ->
     findSimilarChunks D W q limit st =
     (Returned [],
      {| table := table st; dbClock := dbClock st;
         trace := trace st ++ [ConsoleError InvalidEmbedding] |}))
  /\ (forall D W question st v st1,
        table st <> [] ->
        dbFault W (dbClock st) = false ->
        getEmbedding D W question
          {| table := table st; dbClock := S (dbClock st);
             trace := trace st ++ [DbCountAll] |} = (Returned v, st1) ->
        length v <> D ->
        fst (ask D W question st) = Returned noRelevantInformation)
  /\ (forall W text st v st',
        getEmbedding configuredDimension W text st = (Returned v, st') ->
        length v = 768 /\ configuredDimension = 768)
  /\ (forall W question st,
        ~ In (ConsoleError InvalidEmbedding)
            (eventsBetween st (snd (ask configuredDimension W question st)))).
Proof.
  split; [exact findSimilarChunks_invalid|].
  split; [exact ask_guard_sentinel|]. split.
  - intros W text st v st' H. split; [|reflexivity].
    now apply getEmbedding_returns in H.
  - intros W question st Hin.
    destruct (ask_trace W question st) as [He _].
    apply eventsBetween_extends in He.
    rewrite Forall_forall in He. now apply (He _ Hin).
Qed.

Lemma findSimilarChunks_guard_witness :
  length vecQ <> 768
  /\ findSimilarChunks 768 calmWorld vecQ 5 emptyState =
     (Returned [],
      {| table := table emptyState; dbClock := dbClock emptyState;
         trace := trace emptyState ++ [ConsoleError InvalidEmbedding] |}).
Proof.
  split; [simpl; lia|].
  apply (proj1 findSimilarChunks_guard 768 calmWorld vecQ 5 emptyState).
  simpl; lia.
Defined.

(** Were the dimension configured to a value the adapter does not know,
    the guard would fire in [ask]. *)
Example ask_guard_fires :
  fst (ask 4 calmWorld (u "q") rankingState) = Returned noRelevantInformation.
Proof. vm_compute. reflexivity. Qed.

(* ================================================================= *)
(** * Ordering by distance *)

Lemma nanLast_refl x : nanLast x x.
Proof. destruct x; simpl; [lra | exact I]. Qed.

Lemma nanLast_trans x y z : nanLast x y -> nanLast y z -> nanLast x z.
Proof.
  destruct x as [a|], y as [b|], z as [c|]; simpl; try easy. lra.
Qed.

Lemma nanLast_total x y : ~ nanLast x y -> nanLast y x.
Proof.
  destruct x as [a|], y as [b|]; simpl; try easy; try tauto. lra.
Qed.

Section OrderBy.

Context {A : Type} (key : A -> option R).

Lemma insertBy_perm x l : Permutation (insertBy key x l) (x :: l).
Proof.
  induction l as [|y l IH]; simpl; [reflexivity|].
  destruct (nanLast_dec (key x) (key y)); [reflexivity|].
  rewrite IH. apply perm_swap.
Qed.

Lemma orderBy_perm l : Permutation (orderBy key l) l.
Proof.
  induction l as [|x l IH]; simpl; [reflexivity|].
  rewrite insertBy_perm. now constructor.
Qed.

Lemma insertBy_sorted x l :
  StronglySorted (keyLe key) l -> StronglySorted (keyLe key) (insertBy key x l).
Proof.
  induction 1 as [|y l Hs IH Hy]; simpl.
  - repeat constructor.
  - destruct (nanLast_dec (key x) (key y)) as [Hle|Hgt].
    + constructor; [now constructor|]. constructor; [exact Hle|].
      eapply Forall_impl; [|exact Hy]. unfold keyLe. intros z Hz.
      eapply nanLast_trans; eassumption.
    + constructor; [exact IH|].
      eapply Permutation_Forall; [symmetry; apply insertBy_perm|].
      constructor; [now apply nanLast_total | exact Hy].
Qed.

Lemma orderBy_sorted l : StronglySorted (keyLe key) (orderBy key l).
Proof.
  induction l as [|x l IH]; simpl; [constructor|].
  now apply insertBy_sorted.
Qed.

Lemma StronglySorted_app (l1 l2 : list A) :
  StronglySorted (keyLe key) (l1 ++ l2) ->
  StronglySorted (keyLe key) l1
  /\ forall a b, In a l1 -> In b l2 -> keyLe key a b.
Proof.
  induction l1 as [|x l1 IH]; simpl; intros H.
  - split; [constructor | easy].
  - inversion H as [|? ? Hs Hx]; subst. destruct (IH Hs) as [H1 H2].
    apply Forall_app in Hx. destruct Hx as [Hx1 Hx2]. split.
    + now constructor.
    + intros a b [<-|Ha] Hb.
      * rewrite Forall_forall in Hx2. now apply Hx2.
      * now apply H2.
Qed.

Lemma insertBy_le x y l :
  nanLast (key x) (key y) -> insertBy key x (y :: l) = x :: y :: l.
Proof. intros H. simpl. now destruct (nanLast_dec (key x) (key y)). Qed.

Lemma insertBy_gt x y l :
  ~ nanLast (key x) (key y) ->
  insertBy key x (y :: l) = y :: insertBy key x l.
Proof.
  intros H. simpl. now destruct (nanLast_dec (key x) (key y)).
Qed.

End OrderBy.

(* ================================================================= *)
(** * Cosine distance *)

Lemma dot_sumOfProducts a : forall b, dot a b = sumOfProducts a b.
Proof.
  unfold sumOfProducts.
  induction a as [|x a IH]; intros [|y b]; simpl; try reflexivity.
  now rewrite IH.
Qed.

Lemma norm_euclideanLength a : norm a = euclideanLength a.
Proof. unfold norm, euclideanLength. now rewrite dot_sumOfProducts. Qed.

Lemma cosineDistance_some a b :
  (norm a * norm b <> 0)%R ->
  cosineDistance a b = Some (1 - dot a b / (norm a * norm b))%R.
Proof.
  intros H. unfold cosineDistance.
  now destruct (Req_EM_T (norm a * norm b) 0).
Qed.

Lemma cosineDistance_none a b :
  (norm a * norm b = 0)%R -> cosineDistance a b = None.
Proof.
  intros H. unfold cosineDistance.
  now destruct (Req_EM_T (norm a * norm b) 0).
Qed.

(** The operator of the database computes the distance of the
    specification, and NaN exactly where that one has no value. *)
Lemma cosineDistance_spec a b :
  (cosineDefined a b -> cosineDistance a b = Some (specCosineDistance a b))
  /\ (~ cosineDefined a b -> cosineDistance a b = None).
Proof.
  unfold cosineDefined, specCosineDistance.
  rewrite <- !norm_euclideanLength, <- dot_sumOfProducts. split.
  - apply cosineDistance_some.
  - intros H. apply cosineDistance_none.
    destruct (Req_EM_T (norm a * norm b) 0); [assumption | contradiction].
Qed.

Lemma cosineDistance_defined a b d :
  cosineDistance a b = Some d ->
  cosineDefined a b /\ d = specCosineDistance a b.
Proof.
  intros H.
  destruct (Req_EM_T (euclideanLength a * euclideanLength b) 0) as [E|E].
  - rewrite (proj2 (cosineDistance_spec a b)) in H; [discriminate|].
    unfold cosineDefined. intros Hn. now apply Hn.
  - rewrite (proj1 (cosineDistance_spec a b) E) in H.
    injection H as <-. now split.
Qed.

(** Ascending distance is descending similarity, rows without a
    similarity last. *)
Lemma keyLe_rankedBefore D q a b :
  keyLe (rowDistance D q) a b -> rankedBefore D q a b.
Proof.
  unfold keyLe, rowDistance, rankedBefore.
  intros H va vb Ha Hb Hdef. rewrite Ha, Hb in H.
  rewrite (proj1 (cosineDistance_spec vb q) Hdef) in H.
  destruct (cosineDistance va q) as [da|] eqn:Eda; [|contradiction].
  apply cosineDistance_defined in Eda. destruct Eda as [Hda ->].
  split; [exact Hda|]. unfold cosineSimilarity. simpl in H. lra.
Qed.


(* ================================================================= *)
(** * Nearest neighbours *)

Lemma In_firstn {A} (x : A) n l : In x (firstn n l) -> In x l.
Proof.
  intros H. rewrite <- (firstn_skipn n l). apply in_or_app. now left.
Qed.

Lemma nearestRows_spec D t q limit :
  let candidates := filter (fun r => isNotNull (embeddingField D r)) t in
  let sel := nearestRows D t q limit in
  exists rest,
    length sel = Nat.min limit (length candidates)
    /\ Permutation (sel ++ rest) candidates
    /\ (forall r, In r sel -> In r t /\ embeddingField D r <> None)
    /\ StronglySorted (rankedBefore D q) sel
    /\ (forall r s, In r rest -> In s sel -> rankedBefore D q s r).
Proof.
  intros candidates sel. unfold sel, nearestRows. fold candidates.
  set (sorted := orderBy (rowDistance D q) candidates).
  pose proof (orderBy_perm (rowDistance D q) candidates) as Hperm.
  pose proof (orderBy_sorted (rowDistance D q) candidates) as Hsorted.
  fold sorted in Hperm, Hsorted.
  rewrite <- (firstn_skipn limit sorted) in Hsorted.
  apply StronglySorted_app in Hsorted. destruct Hsorted as [Hs Hcut].
  exists (skipn limit sorted).
  split; [|split; [|split; [|split]]].
  - rewrite length_firstn. now rewrite (Permutation_length Hperm).
  - now rewrite firstn_skipn.
  - intros r Hr. apply In_firstn in Hr.
    apply (Permutation_in _ Hperm) in Hr. unfold candidates in Hr.
    apply filter_In in Hr. destruct Hr as [Hin Hnn]. split; [exact Hin|].
    now destruct (embeddingField D r).
  - clear -Hs. induction Hs as [|x l Hl IH Hx]; constructor; [exact IH|].
    eapply Forall_impl; [|exact Hx]. intros z Hz.
    now apply keyLe_rankedBefore.
  - intros r s Hr Hin. apply keyLe_rankedBefore. now apply Hcut.
Qed.

Lemma findSimilarChunks_valid D W q limit st :
  length q = D -> dbFault W (dbClock st) = false ->
  findSimilarChunks D W q limit st =
  (Returned (map (build D) (nearestRows D (table st) (castVector W q) limit)),
   {| table := table st; dbClock := S (dbClock st);
      trace := trace st ++ [DbSelect limit] |}).
Proof.
  intros Hq Hf.
  unfold findSimilarChunks, dbNearest, tryCatch, bind, emit, statement,
    getTable, ret.
  rewrite Hq, Nat.eqb_refl. cbn [negb table dbClock trace].
  now rewrite Hf.
Qed.


(** *** The ranking example *)

Lemma norm_unit_x : norm [1; 0]%R = 1%R.
Proof.
  unfold norm. simpl.
  replace (1 * 1 + (0 * 0 + 0))%R with (1 * 1)%R by lra.
  apply sqrt_square. lra.
Qed.

Lemma norm_unit_y : norm [0; 1]%R = 1%R.
Proof.
  unfold norm. simpl.
  replace (0 * 0 + (1 * 1 + 0))%R with (1 * 1)%R by lra.
  apply sqrt_square. lra.
Qed.

Lemma norm_opposite_x : norm [-1; 0]%R = 1%R.
Proof.
  unfold norm. simpl.
  replace (-1 * -1 + (0 * 0 + 0))%R with (1 * 1)%R by lra.
  apply sqrt_square. lra.
Qed.

Lemma norm_zero : norm [0; 0]%R = 0%R.
Proof.
  unfold norm. simpl.
  replace (0 * 0 + (0 * 0 + 0))%R with 0%R by lra.
  apply sqrt_0.
Qed.

Lemma rowDistance_inserted D src sourceId i c e q :
  rowDistance D q (insertedRow D src sourceId i c e) = cosineDistance e q.
Proof.
  unfold rowDistance, embeddingField, insertedRow. simpl.
  now destruct (D =? 768).
Qed.

Lemma distance_A : rowDistance 2 vecQ rowA = Some 0%R.
Proof.
  unfold rowA. rewrite rowDistance_inserted.
  unfold vecA, vecQ. rewrite cosineDistance_some; rewrite norm_unit_x;
    [|lra].
  cbn [dot]. f_equal. field.
Qed.

Lemma distance_B : rowDistance 2 vecQ rowB = Some 1%R.
Proof.
  unfold rowB. rewrite rowDistance_inserted.
  unfold vecB, vecQ.
  rewrite cosineDistance_some; rewrite norm_unit_x, norm_unit_y; [|lra].
  cbn [dot]. f_equal. field.
Qed.



Lemma distance_N : rowDistance 2 vecQ rowN = Some 2%R.
Proof.
  unfold rowN. rewrite rowDistance_inserted.
  unfold vecN, vecQ.
  rewrite cosineDistance_some; rewrite norm_unit_x, norm_opposite_x; [|lra].
  cbn [dot]. f_equal. field.
Qed.

Lemma distance_Z : rowDistance 2 vecQ rowZ = None.
Proof.
  unfold rowZ. rewrite rowDistance_inserted.
  unfold vecZ, vecQ. apply cosineDistance_none. rewrite norm_zero. lra.
Qed.



(** A stored vector of zeros has no distance to the query: its row
    sorts after every other one, also after the row that points away
    from the query. *)
Example zero_vector_ranks_last :
  fst (findSimilarChunks 2 calmWorld vecQ 1 zeroVectorState)
  = Returned [rowN]
  /\ fst (findSimilarChunks 2 calmWorld vecQ 2 zeroVectorState)
     = Returned [rowN; rowZ].
Proof.
  assert (H : orderBy (rowDistance 2 vecQ) [rowZ; rowN] = [rowN; rowZ]).
  { cbn [orderBy].
    change (insertBy (rowDistance 2 vecQ) rowN []) with [rowN].
    rewrite (insertBy_gt (rowDistance 2 vecQ) rowZ rowN)
      by (rewrite distance_Z, distance_N; simpl; tauto).
    reflexivity. }
  split; rewrite findSimilarChunks_valid by reflexivity; cbn [fst];
    unfold nearestRows;
    change (castVector calmWorld vecQ) with (map (fun x : R => x) vecQ);
    rewrite map_id;
    change (filter _ (table zeroVectorState)) with [rowZ; rowN];
    rewrite H; reflexivity.
Qed.

(** The ranking of the example does not hang on how single precision
    renders 0.9 and 0.1: whatever positive numbers the row C holds, it
    comes after A and before B. *)
Lemma ranking_example_rounded W limit c1 c2 :
  dbFault W 0 = false -> castVector W vecQ = vecQ ->
  (0 < c1)%R -> (0 < c2)%R ->
  let rowC' := insertedRow 2 (u "pdf") (u "doc") 2 (u "C") [c1; c2] in
  fst (findSimilarChunks 2 W vecQ limit
         {| table := [rowA; rowB; rowC']; dbClock := 0; trace := [] |})
  = Returned (firstn limit [rowA; rowC'; rowB]).
Proof.
  intros Hf Hq H1 H2 rowC'.
  assert (Hs : (norm [c1; c2] * norm [c1; c2] = c1 * c1 + c2 * c2
                /\ c1 < norm [c1; c2])%R).
  { unfold norm. cbn [dot].
    replace (c1 * c1 + (c2 * c2 + 0))%R with (c1 * c1 + c2 * c2)%R by lra.
    split; [apply sqrt_sqrt; nra|].
    replace c1 with (sqrt (c1 * c1)) at 1 by (apply sqrt_square; lra).
    apply sqrt_lt_1; nra. }
  destruct Hs as [Hsq Hlt].
  assert (HC : exists d, rowDistance 2 vecQ rowC' = Some d
                         /\ (0 < d < 1)%R).
  { unfold rowC'. rewrite rowDistance_inserted. unfold vecQ.
    rewrite cosineDistance_some; rewrite norm_unit_x; [|lra].
    eexists. split; [reflexivity|].
    set (s := norm [c1; c2]) in *.
    replace (dot [c1; c2] [1; 0]%R) with c1 by (cbn [dot]; lra).
    unfold Rdiv. rewrite Rmult_1_r.
    assert (Hinv : (/ s * s = 1)%R) by (field; lra).
    assert (Hpos : (0 < / s)%R) by (apply Rinv_0_lt_compat; lra).
    split; nra. }
  destruct HC as [d [HC Hd]].
  pose proof distance_A as HA. pose proof distance_B as HB.
  assert (Ho : orderBy (rowDistance 2 vecQ) [rowA; rowB; rowC']
               = [rowA; rowC'; rowB]).
  { cbn [orderBy].
    change (insertBy (rowDistance 2 vecQ) rowC' []) with [rowC'].
    rewrite (insertBy_gt (rowDistance 2 vecQ) rowB rowC')
      by (rewrite HB, HC; simpl; lra).
    change (insertBy (rowDistance 2 vecQ) rowB []) with [rowB].
    apply insertBy_le. rewrite HA, HC. simpl. lra. }
  rewrite findSimilarChunks_valid by (try reflexivity; exact Hf).
  cbn [fst table]. rewrite Hq. unfold nearestRows.
  change (filter _ [rowA; rowB; rowC']) with [rowA; rowB; rowC'].
  rewrite Ho.
  destruct limit as [|[|[|limit]]]; try reflexivity.
  cbn [firstn]. rewrite firstn_nil. reflexivity.
Qed.




(* ================================================================= *)
(** * Replacing the chunks of a source *)

Lemma streq_refl s : streq s s = true.
Proof.
  induction s as [|c s IH]; [reflexivity|]. simpl.
  now rewrite N.eqb_refl, IH.
Qed.

Lemma streq_eq a b : streq a b = true -> a = b.
Proof.
  revert b. induction a as [|x a IH]; intros [|y b]; simpl; try easy.
  intros H. apply andb_prop in H. destruct H as [Hx Hr].
  apply N.eqb_eq in Hx. subst y. f_equal. now apply IH.
Qed.

Lemma length_mapi {A B} (f : nat -> A -> B) l : forall i,
  length (mapi f i l) = length l.
Proof. induction l as [|x l IH]; intros i; simpl; [|rewrite IH]; easy. Qed.

Lemma nth_error_skipn_cons {A} (l : list A) : forall i e,
  nth_error l i = Some e -> skipn i l = e :: skipn (S i) l.
Proof.
  induction l as [|x l IH]; intros [|i] e; simpl; try easy.
  - now intros [= ->].
  - intros H. now apply IH.
Qed.

Section Store.

Variable D : nat.
Variable W : World.
Variables src sourceId : jsstring.
Variable embeddings : list vector.

Lemma rowsFrom_cons i chunk rest e :
  nth_error embeddings i = Some e ->
  rowsFrom D W src sourceId i (chunk :: rest) embeddings
  = insertedRow D src sourceId i chunk (castVector W e)
      :: rowsFrom D W src sourceId (S i) rest embeddings.
Proof.
  intros H. unfold rowsFrom.
  now rewrite (nth_error_skipn_cons embeddings i e H).
Qed.

Lemma dbInsert_ok i chunk e st :
  dbFault W (dbClock st) = false -> length e = D ->
  dbInsert D W src sourceId i chunk e st =
  (Returned tt,
   {| table := table st
               ++ [insertedRow D src sourceId i chunk (castVector W e)];
      dbClock := S (dbClock st);
      trace := trace st ++ [DbInsert src sourceId i] |}).
Proof.
  intros Hf He. unfold dbInsert, bind, emit, statement, setTable.
  cbn [table dbClock trace]. now rewrite Hf, He, Nat.eqb_refl.
Qed.

Lemma dbInsert_fail i chunk e st :
  negb (dbFault W (dbClock st)) && (length e =? D) = false ->
  dbInsert D W src sourceId i chunk e st =
  (Thrown DbError,
   {| table := table st; dbClock := S (dbClock st);
      trace := trace st ++ [DbInsert src sourceId i] |}).
Proof.
  intros H. unfold dbInsert, bind, emit, statement, setTable, throw.
  cbn [table dbClock trace].
  destruct (dbFault W (dbClock st)); [reflexivity|].
  simpl in H. now rewrite H.
Qed.

(** The loop inserts the rows one by one and stops at the first insert
    that fails; what went in before stays in the table. *)
Lemma insertLoop_run chunks : forall i st,
  exists o st',
    insertLoop D W src sourceId chunks embeddings i st = (o, st')
    /\ table st' =
       table st
       ++ firstn (successes D W embeddings (dbClock st) i chunks)
            (rowsFrom D W src sourceId i chunks embeddings)
    /\ (successes D W embeddings (dbClock st) i chunks = length chunks ->
        o = Returned tt)
    /\ (successes D W embeddings (dbClock st) i chunks <> length chunks ->
        isThrown o = true).
Proof.
  induction chunks as [|chunk rest IH]; intros i st.
  - exists (Returned tt), st. simpl. rewrite app_nil_r. now repeat split.
  - cbn [insertLoop successes]. unfold insertOk.
    destruct (nth_error embeddings i) as [e|] eqn:En.
    + destruct (negb (dbFault W (dbClock st)) && (length e =? D)) eqn:Ok.
      * apply andb_prop in Ok. destruct Ok as [Hf He].
        apply negb_true_iff in Hf. apply Nat.eqb_eq in He.
        unfold bind. rewrite (dbInsert_ok i chunk e st Hf He).
        destruct (IH (S i)
                    {| table := table st
                                ++ [insertedRow D src sourceId i chunk
                                      (castVector W e)];
                       dbClock := S (dbClock st);
                       trace := trace st ++ [DbInsert src sourceId i] |})
          as [o [st' [E [Ht [Hr Hth]]]]].
        cbn [table dbClock trace] in *.
        exists o, st'. split; [exact E|]. split; [|split].
        -- rewrite Ht, (rowsFrom_cons i chunk rest e En). cbn [firstn].
           now rewrite <- app_assoc.
        -- intros H. apply Hr. simpl in H. lia.
        -- intros H. apply Hth. simpl in H. lia.
      * unfold bind. rewrite (dbInsert_fail i chunk e st Ok).
        eexists _, _. split; [reflexivity|]. cbn [table firstn].
        rewrite app_nil_r. now repeat split.
    + exists (Thrown TypeError), st. unfold throw. cbn [firstn].
      rewrite app_nil_r. now repeat split.
Qed.

Lemma successes_le_rows chunks : forall clock i,
  successes D W embeddings clock i chunks
  <= length (rowsFrom D W src sourceId i chunks embeddings)
  /\ length (rowsFrom D W src sourceId i chunks embeddings) <= length chunks.
Proof.
  induction chunks as [|chunk rest IH]; intros clock i.
  - unfold rowsFrom. simpl. lia.
  - cbn [successes]. unfold insertOk.
    destruct (nth_error embeddings i) as [e|] eqn:En.
    + rewrite (rowsFrom_cons i chunk rest e En). simpl length.
      destruct (IH (S clock) (S i)) as [H1 H2].
      destruct (negb (dbFault W clock) && (length e =? D)); lia.
    + split; [lia|]. unfold rowsFrom. rewrite length_mapi, length_combine.
      apply Nat.le_min_l.
Qed.

Lemma successes_first_failure chunks : forall n clock i,
  n < length chunks ->
  (forall j, j < n -> insertOk D W embeddings (clock + j) (i + j) = true) ->
  insertOk D W embeddings (clock + n) (i + n) = false ->
  successes D W embeddings clock i chunks = n.
Proof.
  induction chunks as [|chunk rest IH]; intros n clock i Hn Hok Hbad;
    [simpl in Hn; lia|].
  cbn [successes]. destruct n as [|n].
  - rewrite !Nat.add_0_r in Hbad. now rewrite Hbad.
  - pose proof (Hok 0 ltac:(lia)) as H0. rewrite !Nat.add_0_r in H0.
    rewrite H0. f_equal. apply IH.
    + simpl in Hn. lia.
    + intros j Hj. specialize (Hok (S j) ltac:(lia)).
      now rewrite !Nat.add_succ_r in Hok.
    + now rewrite !Nat.add_succ_r in Hbad.
Qed.

Lemma matches_inserted i chunk e :
  matches src sourceId (insertedRow D src sourceId i chunk e) = true.
Proof. unfold matches. simpl. now rewrite !streq_refl. Qed.

Lemma rowsFrom_match chunks : forall i,
  Forall (fun r => matches src sourceId r = true)
    (rowsFrom D W src sourceId i chunks embeddings).
Proof.
  unfold rowsFrom. intros i.
  generalize (combine chunks (skipn i embeddings)) as l. intros l. revert i.
  induction l as [|x l IH]; intros i; simpl; constructor;
    [apply matches_inserted | apply IH].
Qed.

Lemma filter_all {A} (f : A -> bool) l :
  Forall (fun x => f x = true) l -> filter f l = l.
Proof.
  induction 1 as [|x l Hx Hl IH]; simpl; [easy|]. now rewrite Hx, IH.
Qed.

Lemma filter_none {A} (f : A -> bool) l :
  Forall (fun x => f x = false) l -> filter f l = [].
Proof.
  induction 1 as [|x l Hx Hl IH]; simpl; [easy|]. now rewrite Hx.
Qed.

Lemma filter_negb_matches t :
  filter (matches src sourceId)
    (filter (fun r => negb (matches src sourceId r)) t) = [].
Proof.
  apply filter_none, Forall_forall. intros r Hr.
  apply filter_In in Hr. destruct Hr as [_ Hr].
  now apply negb_true_iff in Hr.
Qed.

(** The rows of the pair after the table was cleared of them and a
    prefix of the new rows was appended. *)
Lemma pair_rows_after t n chunks :
  filter (matches src sourceId)
    (filter (fun r => negb (matches src sourceId r)) t
     ++ firstn n (rowsFrom D W src sourceId 0 chunks embeddings))
  = firstn n (rowsFrom D W src sourceId 0 chunks embeddings).
Proof.
  rewrite filter_app, filter_negb_matches. simpl.
  apply filter_all, Forall_firstn, rowsFrom_match.
Qed.

Lemma other_rows_after t n chunks :
  filter (fun r => negb (matches src sourceId r))
    (filter (fun r => negb (matches src sourceId r)) t
     ++ firstn n (rowsFrom D W src sourceId 0 chunks embeddings))
  = filter (fun r => negb (matches src sourceId r)) t.
Proof.
  rewrite filter_app. rewrite (filter_none _ (firstn n _)).
  - rewrite app_nil_r. apply filter_all, Forall_forall.
    intros r Hr. now apply filter_In in Hr.
  - apply Forall_firstn.
    eapply Forall_impl; [|apply rowsFrom_match with (i := 0)].
    intros r Hr. simpl in Hr. now rewrite Hr.
Qed.

(** [storeChunks] in one step: the delete, then the loop. *)
Lemma storeChunks_run chunks st :
  dbFault W (dbClock st) = false ->
  let n := successes D W embeddings (S (dbClock st)) 0 chunks in
  exists o st',
    storeChunks D W src sourceId chunks embeddings st = (o, st')
    /\ table st' =
       filter (fun r => negb (matches src sourceId r)) (table st)
       ++ firstn n (rowsFrom D W src sourceId 0 chunks embeddings)
    /\ (n = length chunks -> o = Returned tt)
    /\ (n <> length chunks ->
        isThrown o = true
        /\ exists t, trace st' = t ++ [ConsoleError AtStoreChunks]).
Proof.
  intros Hf n.
  destruct (insertLoop_run chunks 0
              {| table := filter (fun r => negb (matches src sourceId r))
                            (table st);
                 dbClock := S (dbClock st);
                 trace := trace st ++ [DbDestroy src sourceId] |})
    as [o [st1 [E [Ht [Hr Hth]]]]].
  cbn [table dbClock trace] in *. fold n in Ht, Hr, Hth.
  unfold storeChunks, tryCatch, bind at 1, dbDestroy, bind, emit,
    statement, setTable.
  cbn [table dbClock trace]. rewrite Hf. cbv beta iota.
  cbn [table dbClock trace]. rewrite E.
  destruct (Nat.eq_dec n (length chunks)) as [Hn|Hn].
  - rewrite (Hr Hn). exists (Returned tt), st1. now repeat split.
  - specialize (Hth Hn). destruct o as [[]|e|]; try discriminate.
    eexists _, _. split; [reflexivity|]. cbn [table trace].
    split; [exact Ht|]. split; [easy|]. intros _. split; [reflexivity|].
    now exists (trace st1).
Qed.

Lemma storeChunks_no_db chunks st :
  dbFault W (dbClock st) = true ->
  storeChunks D W src sourceId chunks embeddings st =
  (Thrown DbError,
   {| table := table st; dbClock := S (dbClock st);
      trace := trace st ++ [DbDestroy src sourceId;
                            ConsoleError AtStoreChunks] |}).
Proof.
  intros Hf.
  unfold storeChunks, tryCatch, bind at 1, dbDestroy, bind, emit,
    statement, setTable, throw.
  cbn [table dbClock trace]. rewrite Hf. cbv beta iota.
  cbn [table dbClock trace]. now rewrite <- app_assoc.
Qed.

End Store.

Lemma map_index_mapi D W src sourceId (l : list (jsstring * vector)) :
  forall i,
  map chunk_index
    (mapi (fun k ce =>
             insertedRow D src sourceId k (fst ce) (castVector W (snd ce)))
       i l)
  = seq i (length l).
Proof.
  induction l as [|x l IH]; intros i; simpl; [|rewrite IH]; reflexivity.
Qed.

Lemma map_content_mapi D W src sourceId (l : list (jsstring * vector)) :
  forall i,
  map chunk_content
    (mapi (fun k ce =>
             insertedRow D src sourceId k (fst ce) (castVector W (snd ce)))
       i l)
  = map fst l.
Proof.
  induction l as [|x l IH]; intros i; simpl; [|rewrite IH]; reflexivity.
Qed.

Lemma map_fst_combine {A B} (a : list A) : forall (b : list B),
  map fst (combine a b) = firstn (length b) a.
Proof.
  induction a as [|x a IH]; intros [|y b]; simpl; try reflexivity.
  now rewrite IH.
Qed.

Lemma newRows_content D W src sourceId chunks embeddings n :
  n <= length (newRows D W src sourceId chunks embeddings) ->
  map chunk_content (firstn n (newRows D W src sourceId chunks embeddings))
  = firstn n chunks.
Proof.
  unfold newRows, rowsFrom. rewrite length_mapi, length_combine.
  cbn [skipn]. intros Hn.
  rewrite <- firstn_map, map_content_mapi, map_fst_combine.
  rewrite firstn_firstn. f_equal. lia.
Qed.

(** C5. When [storeChunks] completes for a pair (source, sourceId), the
    rows of the table for that pair are exactly the rows of the new
    list, one per chunk, in order, the row of chunk number [i] carrying
    [chunk_index] [i]; no row stored before for the pair is left, and
    the rows of other pairs are untouched. *)
Theorem storeChunks_replaces D W src sourceId chunks embeddings st st' :
  storeChunks D W src sourceId chunks embeddings st = (Returned tt, st') ->
  table st' =
    filter (fun r => negb (matches src sourceId r)) (table st)
    ++ newRows D W src sourceId chunks embeddings
  /\ filter (matches src sourceId) (table st')
     = newRows D W src sourceId chunks embeddings
  /\ filter (fun r => negb (matches src sourceId r)) (table st')
     = filter (fun r => negb (matches src sourceId r)) (table st)
  /\ map chunk_index (newRows D W src sourceId chunks embeddings)
     = seq 0 (length chunks)
  /\ map chunk_content (newRows D W src sourceId chunks embeddings) = chunks.
Proof.
  intros Hrun.
  destruct (dbFault W (dbClock st)) eqn:Hf.
  { now rewrite storeChunks_no_db in Hrun. }
  destruct (storeChunks_run D W src sourceId embeddings chunks st Hf)
    as [o [st1 [E [Ht [_ Hth]]]]].
  rewrite E in Hrun. injection Hrun as -> ->.
  set (n := successes D W embeddings (S (dbClock st)) 0 chunks) in *.
  assert (Hn : n = length chunks).
  { destruct (Nat.eq_dec n (length chunks)) as [Hn|Hn]; [exact Hn|].
    now destruct (Hth Hn). }
  destruct (successes_le_rows D W src sourceId embeddings chunks
              (S (dbClock st)) 0) as [H1 H2].
  fold n in H1. fold (newRows D W src sourceId chunks embeddings) in *.
  assert (Hlen : length (newRows D W src sourceId chunks embeddings)
                 = length chunks) by lia.
  assert (Hall : firstn n (newRows D W src sourceId chunks embeddings)
                 = newRows D W src sourceId chunks embeddings)
    by (apply firstn_all2; lia).
  split; [now rewrite Ht, Hall|]. split; [|split; [|split]].
  - rewrite Ht. unfold newRows. rewrite pair_rows_after. exact Hall.
  - rewrite Ht. unfold newRows. apply other_rows_after.
  - unfold newRows, rowsFrom at 1. rewrite map_index_mapi. f_equal.
    unfold newRows, rowsFrom in Hlen. now rewrite length_mapi in Hlen.
  - rewrite <- (firstn_all (newRows D W src sourceId chunks embeddings)).
    rewrite newRows_content by lia. rewrite Hlen. apply firstn_all.
Qed.

Lemma storeChunks_replaces_witness :
  storeChunks 2 calmWorld (u "pdf") (u "doc") [u "x"; u "y"] [vecB; vecA]
    rankingState
  = (Returned tt,
     snd (storeChunks 2 calmWorld (u "pdf") (u "doc") [u "x"; u "y"]
            [vecB; vecA] rankingState))
  /\ table (snd (storeChunks 2 calmWorld (u "pdf") (u "doc")
                   [u "x"; u "y"] [vecB; vecA] rankingState))
     = filter (fun r => negb (matches (u "pdf") (u "doc") r))
         (table rankingState)
       ++ newRows 2 calmWorld (u "pdf") (u "doc") [u "x"; u "y"] [vecB; vecA]
  /\ filter (matches (u "pdf") (u "doc"))
       (table (snd (storeChunks 2 calmWorld (u "pdf") (u "doc")
                      [u "x"; u "y"] [vecB; vecA] rankingState)))
     = newRows 2 calmWorld (u "pdf") (u "doc") [u "x"; u "y"] [vecB; vecA]
  /\ filter (fun r => negb (matches (u "pdf") (u "doc") r))
       (table (snd (storeChunks 2 calmWorld (u "pdf") (u "doc")
                      [u "x"; u "y"] [vecB; vecA] rankingState)))
     = filter (fun r => negb (matches (u "pdf") (u "doc") r))
         (table rankingState)
  /\ map chunk_index
       (newRows 2 calmWorld (u "pdf") (u "doc") [u "x"; u "y"] [vecB; vecA])
     = seq 0 (length [u "x"; u "y"])
  /\ map chunk_content
       (newRows 2 calmWorld (u "pdf") (u "doc") [u "x"; u "y"] [vecB; vecA])
     = [u "x"; u "y"].
Proof.
  split; [reflexivity|].
  apply (storeChunks_replaces 2 calmWorld (u "pdf") (u "doc")
           [u "x"; u "y"] [vecB; vecA] rankingState).
  reflexivity.
Defined.

(** C9. [storeChunks] deletes and inserts statement by statement, with
    no transaction around them: when the delete went through, the
    inserts of the chunks before number [i] went through and the insert
    of chunk [i] fails, [storeChunks] throws and leaves the table
    without the old rows of the pair and with the rows of the first [i]
    new chunks, and only those, for the pair. *)
Theorem storeChunks_partial D W src sourceId chunks embeddings st i :
  dbFault W (dbClock st) = false ->
  i < length chunks ->
  (forall j, j < i ->
     insertOk D W embeddings (S (dbClock st) + j) j = true) ->
  insertOk D W embeddings (S (dbClock st) + i) i = false ->
  exists e st',
    storeChunks D W src sourceId chunks embeddings st = (Thrown e, st')
    /\ table st' =
       filter (fun r => negb (matches src sourceId r)) (table st)
       ++ firstn i (newRows D W src sourceId chunks embeddings)
    /\ filter (matches src sourceId) (table st')
       = firstn i (newRows D W src sourceId chunks embeddings)
    /\ length (firstn i (newRows D W src sourceId chunks embeddings)) = i
    /\ map chunk_content
         (firstn i (newRows D W src sourceId chunks embeddings))
       = firstn i chunks.
Proof.
  intros Hf Hi Hok Hbad.
  destruct (storeChunks_run D W src sourceId embeddings chunks st Hf)
    as [o [st' [E [Ht [_ Hth]]]]].
  assert (Hn : successes D W embeddings (S (dbClock st)) 0 chunks = i).
  { apply successes_first_failure; [exact Hi | exact Hok | exact Hbad]. }
  rewrite Hn in *. destruct (Hth ltac:(lia)) as [Hthrown _].
  destruct o as [?|e|]; try discriminate.
  destruct (successes_le_rows D W src sourceId embeddings chunks
              (S (dbClock st)) 0) as [H1 _].
  rewrite Hn in H1. fold (newRows D W src sourceId chunks embeddings) in *.
  exists e, st'. split; [exact E|]. split; [exact Ht|]. split; [|split].
  - rewrite Ht. unfold newRows. apply pair_rows_after.
  - rewrite length_firstn. lia.
  - now apply newRows_content.
Qed.

Lemma storeChunks_partial_witness :
  dbFault (faultAt 2) (dbClock rankingState) = false
  /\ 1 < length [u "x"; u "y"; u "z"]
  /\ (forall j, j < 1 ->
        insertOk 2 (faultAt 2) [vecB; vecA; vecC]
          (S (dbClock rankingState) + j) j = true)
  /\ insertOk 2 (faultAt 2) [vecB; vecA; vecC]
       (S (dbClock rankingState) + 1) 1 = false
  /\ exists e st',
       storeChunks 2 (faultAt 2) (u "pdf") (u "doc")
         [u "x"; u "y"; u "z"] [vecB; vecA; vecC] rankingState
       = (Thrown e, st')
       /\ table st' =
          filter (fun r => negb (matches (u "pdf") (u "doc") r))
            (table rankingState)
          ++ firstn 1 (newRows 2 (faultAt 2) (u "pdf") (u "doc")
                         [u "x"; u "y"; u "z"] [vecB; vecA; vecC])
       /\ filter (matches (u "pdf") (u "doc")) (table st')
          = firstn 1 (newRows 2 (faultAt 2) (u "pdf") (u "doc")
                        [u "x"; u "y"; u "z"] [vecB; vecA; vecC])
       /\ length (firstn 1 (newRows 2 (faultAt 2) (u "pdf") (u "doc")
                              [u "x"; u "y"; u "z"] [vecB; vecA; vecC]))
          = 1
       /\ map chunk_content
            (firstn 1 (newRows 2 (faultAt 2) (u "pdf") (u "doc")
                         [u "x"; u "y"; u "z"] [vecB; vecA; vecC]))
          = firstn 1 [u "x"; u "y"; u "z"].
Proof.
  assert (H : forall j, j < 1 ->
            insertOk 2 (faultAt 2) [vecB; vecA; vecC]
              (S (dbClock rankingState) + j) j = true).
  { intros j Hj. replace j with 0 by lia. reflexivity. }
  split; [reflexivity|]. split; [simpl; lia|]. split; [exact H|].
  split; [reflexivity|].
  apply (storeChunks_partial 2 (faultAt 2) (u "pdf") (u "doc")
           [u "x"; u "y"; u "z"] [vecB; vecA; vecC] rankingState 1);
    [reflexivity | simpl; lia | exact H | reflexivity].
Defined.

(** The same, run: the old rows A, B, C of the pair are gone, the row
    of the first new chunk is there, the other two are not. *)
Example storeChunks_fault_run :
  map chunk_content
    (table (snd (storeChunks 2 (faultAt 2) (u "pdf") (u "doc")
                   [u "x"; u "y"; u "z"] [vecB; vecA; vecC] rankingState)))
  = [u "x"]
  /\ fst (storeChunks 2 (faultAt 2) (u "pdf") (u "doc")
            [u "x"; u "y"; u "z"] [vecB; vecA; vecC] rankingState)
     = Thrown DbError.
Proof. split; reflexivity. Qed.

(** A chunk without an embedding stops the loop in the same way. *)
Example storeChunks_missing_embedding :
  map chunk_content
    (table (snd (storeChunks 2 calmWorld (u "pdf") (u "doc")
                   [u "x"; u "y"] [vecB] rankingState)))
  = [u "x"]
  /\ fst (storeChunks 2 calmWorld (u "pdf") (u "doc")
            [u "x"; u "y"] [vecB] rankingState)
     = Thrown TypeError.
Proof. split; reflexivity. Qed.

(* ================================================================= *)
(** * Ingestion *)

Lemma sourceExists_run W src sourceId st :
  dbFault W (dbClock st) = false ->
  sourceExists W src sourceId st =
  (Returned (0 <? length (filter (matches src sourceId) (table st))),
   {| table := table st; dbClock := S (dbClock st);
      trace := trace st ++ [DbCount src sourceId] |}).
Proof.
  intros Hf.
  unfold sourceExists, tryCatch, dbCount, bind, emit, statement, getTable,
    ret.
  cbn [table dbClock trace]. now rewrite Hf.
Qed.

Lemma sourceExists_no_db W src sourceId st :
  dbFault W (dbClock st) = true ->
  sourceExists W src sourceId st =
  (Returned false,
   {| table := table st; dbClock := S (dbClock st);
      trace := trace st ++ [DbCount src sourceId;
                            ConsoleError AtSourceExists] |}).
Proof.
  intros Hf.
  unfold sourceExists, tryCatch, dbCount, bind, emit, statement, getTable,
    ret.
  cbn [table dbClock trace]. rewrite Hf. cbv beta iota.
  cbn [table dbClock trace]. now rewrite <- app_assoc.
Qed.



Lemma ingestSource_present D W fuel k sourceId st :
  dbFault W (dbClock st) = false ->
  filter (matches (sourceName k) sourceId) (table st) <> [] ->
  ingestSource D W fuel k sourceId st =
  (Returned tt,
   {| table := table st; dbClock := S (dbClock st);
      trace := trace st ++ [DbCount (sourceName k) sourceId] |}).
Proof.
  intros Hf Hrows. unfold ingestSource, bind at 1.
  rewrite (sourceExists_run W (sourceName k) sourceId st Hf).
  destruct (filter (matches (sourceName k) sourceId) (table st));
    [easy | reflexivity].
Qed.

(** Twice in a row: once a run has left rows for the pair, the next
    run changes nothing. *)
Lemma ingestSource_twice D W fuel k sourceId st o st1 :
  ingestSource D W fuel k sourceId st = (o, st1) ->
  filter (matches (sourceName k) sourceId) (table st1) <> [] ->
  dbFault W (dbClock st1) = false ->
  fst (ingestSource D W fuel k sourceId st1) = Returned tt
  /\ table (snd (ingestSource D W fuel k sourceId st1)) = table st1.
Proof.
  intros _ Hrows Hf.
  now rewrite (ingestSource_present D W fuel k sourceId st1 Hf Hrows).
Qed.


(** The first run stores one chunk for the PDF; after the second run
    the table still holds that one row. *)
Example ingest_twice_one_set :
  map chunk_content (table onceIngested) = [u "alpha beta"]
  /\ map chunk_content
       (table (snd (ingestSource 768 calmWorld 3 Pdf firstPdf onceIngested)))
     = [u "alpha beta"].
Proof. split; vm_compute; reflexivity. Qed.


(* ================================================================= *)
(** * The batch loader *)

Lemma forEach_app {A} (xs ys : list A) body st :
  forEach (xs ++ ys) body st =
  match forEach xs body st with
  | (Returned _, st') => forEach ys body st'
  | (Thrown e, st') => (Thrown e, st')
  | (Running, st') => (Running, st')
  end.
Proof.
  revert st. induction xs as [|x xs IH]; intros st; [reflexivity|].
  cbn [forEach app]. unfold bind.
  destruct (body x st) as [[[]|e|] st1]; [apply IH|reflexivity|reflexivity].
Qed.

Lemma forEach_map {A B} (f : A -> B) (xs : list A) body st :
  forEach (map f xs) body st = forEach xs (fun x => body (f x)) st.
Proof.
  revert st. induction xs as [|x xs IH]; intros st; [reflexivity|].
  simpl. unfold bind. destruct (body (f x) st) as [[[]|e|] st1];
    [apply IH|reflexivity|reflexivity].
Qed.

(** The three loops of [loadAllData] are one loop over [allSources]. *)
Lemma loadAllData_allSources D W fuel st :
  loadAllData D W fuel st =
  tryCatch
    (forEach allSources (fun p => ingestSource D W fuel (fst p) (snd p)))
    (fun error => emit (ConsoleError AtLoadAllData) ;; throw error) st.
Proof.
  unfold loadAllData, tryCatch. f_equal. unfold allSources, bind.
  rewrite forEach_app, (forEach_map (pair Pdf)). cbn [fst snd].
  destruct (forEach pdfFiles (fun x => ingestSource D W fuel Pdf x) st)
    as [[[]|e|] st1]; [|reflexivity|reflexivity].
  rewrite forEach_app, (forEach_map (pair Article)). cbn [fst snd].
  destruct (forEach articleIds (fun x => ingestSource D W fuel Article x) st1)
    as [[[]|e|] st2]; [|reflexivity|reflexivity].
  now rewrite (forEach_map (pair Slack)).
Qed.

Lemma forEach_stops {A} (pre post : list A) x body st st1 st2 e :
  forEach pre body st = (Returned tt, st1) ->
  body x st1 = (Thrown e, st2) ->
  forEach (pre ++ x :: post) body st = (Thrown e, st2).
Proof.
  intros Hpre Hx. rewrite forEach_app, Hpre.
  cbn [forEach]. unfold bind. now rewrite Hx.
Qed.

(** C2 (amended). When the ingestion of one source throws, the sources
    before it having been ingested, [loadAllData] adds one error message
    to the trace and throws the same error: the run ends in the state
    the failing source left, so no source after it is attempted. *)
Theorem loadAllData_fail_fast D W fuel pre k sourceId post st st1 st2 e :
  allSources = pre ++ (k, sourceId) :: post ->
  forEach pre (fun p => ingestSource D W fuel (fst p) (snd p)) st
    = (Returned tt, st1) ->
  ingestSource D W fuel k sourceId st1 = (Thrown e, st2) ->
  loadAllData D W fuel st =
  (Thrown e,
   {| table := table st2; dbClock := dbClock st2;
      trace := trace st2 ++ [ConsoleError AtLoadAllData] |}).
Proof.
  intros Hall Hpre Hx. rewrite loadAllData_allSources, Hall.
  unfold tryCatch.
  rewrite (forEach_stops pre post (k, sourceId)
             (fun p => ingestSource D W fuel (fst p) (snd p))
             st st1 st2 e Hpre Hx).
  reflexivity.
Qed.

Lemma loadAllData_fail_fast_witness :
  allSources = [(Pdf, firstPdf)] ++ (Pdf, secondPdf) :: skipn 2 allSources
  /\ forEach [(Pdf, firstPdf)]
       (fun p => ingestSource 768 secondPdfFails 3 (fst p) (snd p))
       emptyState
     = (Returned tt, onceIngested)
  /\ ingestSource 768 secondPdfFails 3 Pdf secondPdf onceIngested
     = (Thrown PdfError,
        snd (ingestSource 768 secondPdfFails 3 Pdf secondPdf onceIngested))
  /\ loadAllData 768 secondPdfFails 3 emptyState =
     (Thrown PdfError,
      {| table :=
           table (snd (ingestSource 768 secondPdfFails 3 Pdf secondPdf
                         onceIngested));
         dbClock :=
           dbClock (snd (ingestSource 768 secondPdfFails 3 Pdf secondPdf
                           onceIngested));
         trace :=
           trace (snd (ingestSource 768 secondPdfFails 3 Pdf secondPdf
                         onceIngested))
           ++ [ConsoleError AtLoadAllData] |}).
Proof.
  assert (H1 : forEach [(Pdf, firstPdf)]
                 (fun p => ingestSource 768 secondPdfFails 3 (fst p) (snd p))
                 emptyState
               = (Returned tt, onceIngested))
    by (vm_compute; reflexivity).
  assert (H2 : ingestSource 768 secondPdfFails 3 Pdf secondPdf onceIngested
               = (Thrown PdfError,
                  snd (ingestSource 768 secondPdfFails 3 Pdf secondPdf
                         onceIngested)))
    by (vm_compute; reflexivity).
  split; [reflexivity|]. split; [exact H1|]. split; [exact H2|].
  apply (loadAllData_fail_fast 768 secondPdfFails 3 [(Pdf, firstPdf)] Pdf
           secondPdf (skipn 2 allSources) emptyState onceIngested
           (snd (ingestSource 768 secondPdfFails 3 Pdf secondPdf onceIngested))
           PdfError);
    [reflexivity | exact H1 | exact H2].
Defined.

(** C2 as stated fails: when the first PDF cannot be read, the batch
    throws after four events, none of which concerns another of the
    eleven sources. *)
Lemma loadAllData_aborts :
  length allSources = 11
  /\ loadAllData 768 noPdfWorld 3 emptyState =
     (Thrown PdfError,
      {| table := []; dbClock := 1;
         trace := [DbCount (u "pdf") firstPdf; ReadPdf firstPdf;
                   ConsoleError AtLoadPDF; ConsoleError AtLoadAllData] |}).
Proof. split; reflexivity. Qed.

(** The same when an embedding call fails: the articles and the chat
    channels, whose sources answer, are never fetched. *)
Example loadAllData_aborts_on_embedding :
  fst (loadAllData 768 noEmbeddingWorld 3 emptyState) = Thrown EmbedApiError
  /\ filter isFetch
       (trace (snd (loadAllData 768 noEmbeddingWorld 3 emptyState)))
     = [ReadPdf firstPdf].
Proof. split; vm_compute; reflexivity. Qed.

(** With every collaborator answering, the batch stores the eleven
    sources. *)
Example loadAllData_calm :
  fst (loadAllData 768 calmWorld 3 emptyState) = Returned tt
  /\ length (table (snd (loadAllData 768 calmWorld 3 emptyState))) = 11.
Proof. split; vm_compute; reflexivity. Qed.

(* ================================================================= *)
(** * Where failures go *)

Lemma slackLoop_never_throws W fuel : forall channel page messages st e,
  fst (slackLoop W fuel channel page messages st) <> Thrown e.
Proof.
  induction fuel as [|fuel IH]; intros channel page messages st e;
    [discriminate|].
  cbn [slackLoop]. unfold bind at 1, emit at 1.
  destruct (fetchSlack W channel page) as [|[|] [data|]];
    try discriminate.
  destruct (negb (hasMoreIsFalse data)
            && match data_messages data with
               | MessageArray msgs => 0 <? length msgs
               | NotAnArray truthyWithLength => truthyWithLength
               end); [apply IH | discriminate].
Qed.

Lemma slackLoop_rejected W fuel channel page messages st :
  fetchSlack W channel page = Rejected ->
  slackLoop W (S fuel) channel page messages st =
  (Returned messages,
   {| table := table st; dbClock := dbClock st;
      trace := trace st ++ [FetchSlack channel page;
                            ConsoleError AtLoadSlackChannel] |}).
Proof.
  intros H. cbn [slackLoop]. unfold bind, emit, ret. rewrite H.
  cbn [table dbClock trace]. now rewrite <- app_assoc.
Qed.

Lemma getEmbedding_api_error D W text st :
  apiKeySet W = true -> embedContent W text = None ->
  getEmbedding D W text st =
  (Thrown EmbedApiError,
   {| table := table st; dbClock := dbClock st;
      trace := trace st ++ [EmbedCall text; ConsoleError AtGetEmbedding] |}).
Proof.
  intros Hk He. unfold getEmbedding, tryCatch, bind, emit, throw.
  rewrite Hk, He. cbn [negb table dbClock trace].
  now rewrite <- app_assoc.
Qed.

Lemma loadPDF_error W file st :
  readPdf W file = None ->
  loadPDF W file st =
  (Thrown PdfError,
   {| table := table st; dbClock := dbClock st;
      trace := trace st ++ [ReadPdf file; ConsoleError AtLoadPDF] |}).
Proof.
  intros H. unfold loadPDF, tryCatch, bind, emit, throw. rewrite H.
  cbn [table dbClock trace]. now rewrite <- app_assoc.
Qed.

Lemma loadArticle_error W articleId index st :
  indexOf articleIds articleId = Some index ->
  fetchArticle W (index + 1) articleId = Rejected ->
  loadArticle W articleId st =
  (Thrown FetchFailed,
   {| table := table st; dbClock := dbClock st;
      trace := trace st ++ [FetchArticle (index + 1) articleId;
                            ConsoleError AtLoadArticle] |}).
Proof.
  intros Hi H. unfold loadArticle, tryCatch, bind, emit, throw.
  rewrite Hi, H. cbn [table dbClock trace]. now rewrite <- app_assoc.
Qed.

Lemma findSimilarChunks_no_db D W q limit st :
  length q = D -> dbFault W (dbClock st) = true ->
  findSimilarChunks D W q limit st =
  (Thrown DbError,
   {| table := table st; dbClock := S (dbClock st);
      trace := trace st ++ [DbSelect limit;
                            ConsoleError AtFindSimilarChunks] |}).
Proof.
  intros Hq Hf.
  unfold findSimilarChunks, dbNearest, tryCatch, bind, emit, statement,
    getTable, ret, throw.
  rewrite Hq, Nat.eqb_refl. cbn [negb table dbClock trace]. rewrite Hf.
  cbv beta iota. cbn [table dbClock trace]. now rewrite <- app_assoc.
Qed.

Lemma ask_no_db D W question st :
  dbFault W (dbClock st) = true ->
  ask D W question st =
  (Thrown DbError,
   {| table := table st; dbClock := S (dbClock st);
      trace := trace st ++ [DbCountAll; ConsoleError AtAsk] |}).
Proof.
  intros Hf.
  unfold ask, dbCountAll, tryCatch, bind, emit, statement, getTable, ret,
    throw.
  cbn [table dbClock trace]. rewrite Hf. cbv beta iota.
  cbn [table dbClock trace]. now rewrite <- app_assoc.
Qed.

(** C8 (amended). Two failures do not reach the caller: a database
    failure during the existence check is caught in [sourceExists],
    which logs it and answers [false]; a failure of the fetch of a chat
    page is caught in [loadSlackChannel], which logs it and returns the
    messages of the pages before, so that [loadSlackChannel] never
    throws. The other failures are logged and thrown on to the caller
    after the one attempt: a failing embedding call in [getEmbedding],
    an unreadable PDF in [loadPDF], a failing article fetch in
    [loadArticle], a database failure in [storeChunks], in
    [findSimilarChunks] and in the count of [ask]. *)
Theorem failure_propagation :
  (forall W src sourceId st,
     dbFault W (dbClock st) = true ->
     sourceExists W src sourceId st =
     (Returned false,
      {| table := table st; dbClock := S (dbClock st);
         trace := trace st ++ [DbCount src sourceId;
                               ConsoleError AtSourceExists] |}))
  /\ (forall W fuel channel page messages st,
        fetchSlack W channel page = Rejected ->
        slackLoop W (S fuel) channel page messages st =
        (Returned messages,
         {| table := table st; dbClock := dbClock st;
            trace := trace st ++ [FetchSlack channel page;
                                  ConsoleError AtLoadSlackChannel] |}))
  /\ (forall W fuel channel st e,
        fst (loadSlackChannel W fuel channel st) <> Thrown e)
  /\ (forall D W text st,
        apiKeySet W = true -> embedContent W text = None ->
        getEmbedding D W text st =
        (Thrown EmbedApiError,
         {| table := table st; dbClock := dbClock st;
            trace := trace st ++ [EmbedCall text;
                                  ConsoleError AtGetEmbedding] |}))
  /\ (forall W file st,
        readPdf W file = None ->
        loadPDF W file st =
        (Thrown PdfError,
         {| table := table st; dbClock := dbClock st;
            trace := trace st ++ [ReadPdf file; ConsoleError AtLoadPDF] |}))
  /\ (forall W articleId index st,
        indexOf articleIds articleId = Some index ->
        fetchArticle W (index + 1) articleId = Rejected ->
        loadArticle W articleId st =
        (Thrown FetchFailed,
         {| table := table st; dbClock := dbClock st;
            trace := trace st ++ [FetchArticle (index + 1) articleId;
                                  ConsoleError AtLoadArticle] |}))
  /\ (forall D W src sourceId chunks embeddings st,
        dbFault W (dbClock st) = true ->
        storeChunks D W src sourceId chunks embeddings st =
        (Thrown DbError,
         {| table := table st; dbClock := S (dbClock st);
            trace := trace st ++ [DbDestroy src sourceId;
                                  ConsoleError AtStoreChunks] |}))
  /\ (forall D W q limit st,
        length q = D -> dbFault W (dbClock st) = true ->
        findSimilarChunks D W q limit st =
        (Thrown DbError,
         {| table := table st; dbClock := S (dbClock st);
            trace := trace st ++ [DbSelect limit;
                                  ConsoleError AtFindSimilarChunks] |}))
  /\ (forall D W question st,
        dbFault W (dbClock st) = true ->
        ask D W question st =
        (Thrown DbError,
         {| table := table st; dbClock := S (dbClock st);
            trace := trace st ++ [DbCountAll; ConsoleError AtAsk] |})).
Proof.
  split; [exact sourceExists_no_db|].
  split; [exact slackLoop_rejected|].
  split; [intros W fuel channel st e; apply slackLoop_never_throws|].
  split; [exact getEmbedding_api_error|].
  split; [exact loadPDF_error|].
  split; [exact loadArticle_error|].
  split; [intros D W src sourceId chunks embeddings st;
          apply storeChunks_no_db|].
  split; [exact findSimilarChunks_no_db | exact ask_no_db].
Qed.

Lemma failure_propagation_witness :
  dbFault noDbWorld (dbClock emptyState) = true
  /\ sourceExists noDbWorld (u "pdf") firstPdf emptyState =
     (Returned false,
      {| table := table emptyState; dbClock := S (dbClock emptyState);
         trace := trace emptyState
                  ++ [DbCount (u "pdf") firstPdf;
                      ConsoleError AtSourceExists] |})
  /\ ask 768 noDbWorld (u "q") emptyState =
     (Thrown DbError,
      {| table := table emptyState; dbClock := S (dbClock emptyState);
         trace := trace emptyState
                  ++ [DbCountAll; ConsoleError AtAsk] |}).
Proof.
  split; [reflexivity|]. split.
  - apply (proj1 failure_propagation noDbWorld (u "pdf") firstPdf emptyState).
    reflexivity.
  - apply (proj2 (proj2 (proj2 (proj2 (proj2 (proj2 (proj2
             (proj2 failure_propagation))))))) 768 noDbWorld (u "q")
             emptyState).
    reflexivity.
Defined.

(** C8 as stated fails on both of its examples: with the database
    down, the existence check returns [false] instead of throwing, and
    with the chat endpoint down, loading a channel returns the empty
    list instead of throwing. *)
Lemma caught_failures :
  fst (sourceExists noDbWorld (u "slack") (u "lab-notes") emptyState)
    = Returned false
  /\ fst (loadSlackChannel noSlackWorld 3 (u "lab-notes") emptyState)
     = Returned []
  /\ sourceExists noDbWorld (u "slack") (u "lab-notes") emptyState
     <> (Thrown DbError,
         snd (sourceExists noDbWorld (u "slack") (u "lab-notes") emptyState))
  /\ loadSlackChannel noSlackWorld 3 (u "lab-notes") emptyState
     <> (Thrown FetchFailed,
         snd (loadSlackChannel noSlackWorld 3 (u "lab-notes") emptyState)).
Proof. repeat split; discriminate. Qed.

(** With the chat endpoint down the batch still succeeds: the failure
    is not seen by the loader, and the channels are left unloaded. *)
Example loadAllData_without_slack :
  fst (loadAllData 768 noSlackWorld 3 emptyState) = Returned tt
  /\ length (table (snd (loadAllData 768 noSlackWorld 3 emptyState))) = 8.
Proof. split; vm_compute; reflexivity. Qed.

(** A page whose [messages] is not an array adds nothing, yet the loop
    goes on when the value is truthy and has a length above 0: the next
    page is asked for. *)
Example loadSlackChannel_not_an_array :
  loadSlackChannel stringPageWorld 3 (u "lab-notes") emptyState
  = (Returned [],
     {| table := []; dbClock := 0;
        trace := [FetchSlack (u "lab-notes") 1;
                  FetchSlack (u "lab-notes") 2] |}).
Proof. reflexivity. Qed.

(* ================================================================= *)
(** * More on the chunker *)

Lemma words_allBlank s : allBlank s -> words s = [].
Proof. intros H. now rewrite <- (app_nil_l s), words_app_ws. Qed.

Lemma words_nil_allBlank s : words s = [] -> allBlank s.
Proof.
  induction s as [|c r IH]; intros H; [constructor|].
  destruct (isWhiteSpace c) eqn:Hc.
  - constructor; [exact Hc|]. apply IH. now rewrite <- (words_cons_ws c r Hc).
  - unfold words in H. rewrite split_cons_clean in H by assumption.
    discriminate.
Qed.

(** X1. A text yields no chunk at all exactly when it is made of white
    space only; the empty text is such a text. *)
Theorem chunkText_no_chunks text w :
  0 < w -> (chunkText text w = Some [] <-> allBlank text).
Proof.
  intros Hw. rewrite chunkText_chunksOf by assumption.
  assert (Hr : flat_map split (chunksOf (length (split text)) w (split text))
               = words text)
    by (apply chunksOf_words; [assumption | apply split_wsFree | lia]).
  destruct (chunksOf (length (split text)) w (split text)) as [|c rest].
  - split; [intros _ | reflexivity]. now apply words_nil_allBlank.
  - split; [discriminate|]. intros Hb.
    rewrite (words_allBlank text Hb) in Hr.
    simpl in Hr. apply app_eq_nil in Hr. destruct Hr as [Hc _].
    now apply split_not_nil in Hc.
Qed.

(** X2. With a window of 0 words the loop of [chunkText] never ends: the
    counter stays at 0, below the number of words, whatever the fuel. *)
Theorem chunkText_zero_window text :
  (forall fuel chunks, chunkLoop fuel (split text) 0 0 chunks = None)
  /\ chunkText text 0 = None.
Proof.
  assert (H : forall fuel chunks,
             chunkLoop fuel (split text) 0 0 chunks = None).
  { induction fuel as [|fuel IH]; intros chunks; cbn [chunkLoop];
      destruct (Nat.ltb_spec 0 (length (split text))) as [_|Hl];
      try reflexivity; try apply IH;
      pose proof (split_not_nil text);
      destruct (split text); simpl in Hl; (easy || lia). }
  split; [exact H | apply H].
Qed.

Lemma ceilDiv_small n w : 1 <= n <= w -> ceilDiv n w = 1.
Proof.
  intros H. unfold ceilDiv. symmetry.
  apply (Nat.div_unique _ _ _ (n - 1)); lia.
Qed.

Lemma ceilDiv_zero w : 0 < w -> ceilDiv 0 w = 0.
Proof. intros H. unfold ceilDiv. apply Nat.div_small. lia. Qed.

Lemma ceilDiv_step n w : 0 < w -> ceilDiv (w + n) w = S (ceilDiv n w).
Proof.
  intros H. unfold ceilDiv.
  replace (w + n + w - 1) with (1 * w + (n + w - 1)) by lia.
  rewrite Nat.div_add_l by lia. reflexivity.
Qed.

Lemma chunksOf_count fuel w :
  0 < w ->
  forall l, Forall wsFree l -> innerNonEmpty l -> length l <= fuel ->
  length (chunksOf fuel w l) = ceilDiv (length (filter nonEmpty l)) w.
Proof.
  intros Hw. induction fuel as [|fuel IH]; intros l Hl Hin Hf.
  - destruct l; [|simpl in Hf; lia]. simpl. now rewrite ceilDiv_zero.
  - destruct l as [|x l]; [simpl; now rewrite ceilDiv_zero|].
    rewrite chunksOf_cons.
    assert (Hsplit : length (filter nonEmpty (x :: l))
                     = length (filter nonEmpty (firstn w (x :: l)))
                       + length (filter nonEmpty (skipn w (x :: l)))).
    { rewrite <- length_app, <- filter_app. now rewrite firstn_skipn. }
    rewrite Hsplit. clear Hsplit.
    set (S := firstn w (x :: l)).
    destruct (skipn w (x :: l)) as [|y l'] eqn:E.
    + rewrite chunksOf_nil, app_nil_r. simpl filter. rewrite Nat.add_0_r.
      pose proof (filter_length_le nonEmpty S) as Hle.
      assert (HS : length S <= w) by (unfold S; rewrite length_firstn; lia).
      destruct (chunk_of_window S (Forall_firstn _ w _ Hl)) as [[T F]|[T F]].
      * rewrite T, F. simpl. now rewrite ceilDiv_zero.
      * rewrite ltb_length_nonEmpty.
        destruct (trim (join [space] S)) eqn:ET; [easy|]. simpl.
        rewrite ceilDiv_small; [reflexivity|]. split; [|lia].
        rewrite <- F. pose proof (split_not_nil (c :: j)).
        destruct (split (c :: j)); [easy | simpl; lia].
    + assert (Hs : skipn w (x :: l) <> []) by now rewrite E.
      destruct (innerNonEmpty_firstn w _ Hin Hs) as [Hne Hlen].
      fold S in Hne, Hlen.
      rewrite (filter_nonEmpty_all S Hne), Hlen, ceilDiv_step by assumption.
      destruct (chunk_of_window S (Forall_firstn _ w _ Hl)) as [[_ F]|[T F]].
      * rewrite filter_nonEmpty_all in F by assumption.
        rewrite F in Hlen. simpl in Hlen. lia.
      * rewrite ltb_length_nonEmpty.
        destruct (trim (join [space] S)) eqn:ET; [easy|].
        cbn [nonEmpty app length]. f_equal. rewrite <- E. apply IH.
        -- now apply Forall_skipn.
        -- now apply innerNonEmpty_skipn.
        -- rewrite length_skipn. simpl in Hf. simpl length. lia.
Qed.

(** X3. For a text that does not start with white space, the number of
    chunks is the number of its words divided by the window size,
    rounded up. *)
Theorem chunkText_count text w chunks :
  0 < w -> startsClean text ->
  chunkText text w = Some chunks ->
  length chunks = ceilDiv (length (words text)) w.
Proof.
  intros Hw Hb. rewrite chunkText_chunksOf by assumption. intros [= <-].
  apply chunksOf_count;
    [assumption | apply split_wsFree | now apply split_inner | lia].
Qed.

Lemma chunkText_count_witness :
  0 < 2 /\ startsClean (u "a b c d e")
  /\ chunkText (u "a b c d e") 2 = Some [u "a b"; u "c d"; u "e"]
  /\ length [u "a b"; u "c d"; u "e"]
     = ceilDiv (length (words (u "a b c d e"))) 2.
Proof.
  split; [lia|]. split; [reflexivity|]. split; [reflexivity|].
  apply (chunkText_count (u "a b c d e") 2 [u "a b"; u "c d"; u "e"]);
    [lia | reflexivity | reflexivity].
Defined.

Lemma chunkText_no_chunks_witness :
  0 < 3 /\ (chunkText (u "  ") 3 = Some [] <-> allBlank (u "  ")).
Proof. split; [lia | apply (chunkText_no_chunks (u "  ") 3); lia]. Defined.

(** *** The text of a chunk *)

Lemma trimStart_allBlank s : allBlank s -> trimStart s = [].
Proof. induction 1 as [|c s Hc Hs IH]; simpl; [|rewrite Hc]; easy. Qed.

Lemma trimEnd_allBlank s : allBlank s -> trimEnd s = [].
Proof.
  induction 1 as [|c s Hc Hs IH]; simpl; [easy|]. now rewrite IH, Hc.
Qed.

Lemma trimEnd_app_blank x b : allBlank b -> trimEnd (x ++ b) = trimEnd x.
Proof.
  intros Hb. induction x as [|c x IH]; simpl.
  - now apply trimEnd_allBlank.
  - now rewrite IH.
Qed.

Lemma trimStart_clean s : startsClean s -> trimStart s = s.
Proof. destruct s as [|c r]; simpl; [easy|]. now intros ->. Qed.

Lemma trimEnd_clean s : endsClean s -> trimEnd s = s.
Proof.
  induction s as [|c r IH]; [easy|]. destruct r as [|d r'].
  - simpl. now intros ->.
  - intros H. change (trimEnd (c :: d :: r')) with
      (match trimEnd (d :: r') with
       | [] => if isWhiteSpace c then [] else [c]
       | r0 => c :: r0
       end).
    now rewrite IH.
Qed.

Lemma endsClean_app x y : y <> [] -> endsClean y -> endsClean (x ++ y).
Proof.
  intros Hy He. induction x as [|c x IH]; [exact He|].
  simpl app. destruct (x ++ y) eqn:E; [|exact IH].
  destruct x; simpl in E; [now subst | discriminate].
Qed.

Lemma wsFree_endsClean w : wsFree w -> endsClean w.
Proof.
  induction 1 as [|c w Hc Hw IH]; [exact I|].
  destruct w; [exact Hc | exact IH].
Qed.

Lemma join_all_empty E : Forall (fun w => w = []) E -> allBlank (join [space] E).
Proof.
  induction 1 as [|w E Hw HE IH]; [constructor|]. subst w.
  destruct E as [|w' E']; [constructor|].
  rewrite join_cons2. simpl app. constructor; [reflexivity | exact IH].
Qed.

Lemma join_cons_empty Y :
  trimStart (join [space] ([] :: Y)) = trimStart (join [space] Y).
Proof. destruct Y as [|y Y]; [reflexivity|]. now rewrite join_cons2. Qed.

Lemma trimStart_join_empties E1 Y :
  Forall (fun w => w = []) E1 ->
  trimStart (join [space] (E1 ++ Y)) = trimStart (join [space] Y).
Proof.
  induction 1 as [|w E Hw HE IH]; [reflexivity|]. subst w.
  simpl app. now rewrite join_cons_empty.
Qed.

Lemma join_app_tail M Y :
  M <> [] ->
  join [space] (M ++ Y)
  = join [space] M
    ++ match Y with [] => [] | _ :: _ => space :: join [space] Y end.
Proof.
  induction M as [|m M IH]; [easy|]. intros _. destruct M as [|m' M'].
  - simpl app. destruct Y as [|y Y]; [now rewrite app_nil_r|].
    now rewrite join_cons2.
  - change ((m :: m' :: M') ++ Y) with (m :: (m' :: M') ++ Y).
    change ((m' :: M') ++ Y) with (m' :: M' ++ Y) at 1.
    rewrite !join_cons2.
    change (m' :: M' ++ Y) with ((m' :: M') ++ Y).
    rewrite IH by discriminate. now rewrite <- !app_assoc.
Qed.

Lemma join_words_clean M :
  M <> [] -> Forall wsFree M -> Forall (fun w => w <> []) M ->
  join [space] M <> []
  /\ startsClean (join [space] M) /\ endsClean (join [space] M).
Proof.
  induction M as [|m M IH]; [easy|]. intros _ Hw Hn.
  inversion Hw as [|? ? Hm Hw']; subst. inversion Hn as [|? ? Hm' Hn']; subst.
  destruct M as [|m' M'].
  - simpl. split; [exact Hm'|]. split; [|now apply wsFree_endsClean].
    destruct m; [easy|]. now inversion Hm.
  - destruct (IH ltac:(discriminate) Hw' Hn') as [H1 [H2 H3]].
    rewrite join_cons2. split; [|split].
    + destruct m; [easy | discriminate].
    + destruct m; [easy|]. now inversion Hm.
    + rewrite app_assoc. now apply endsClean_app.
Qed.

(** Trimming the join of a window keeps its non-empty words, joined. *)
Lemma trim_join_window E1 M E2 :
  Forall (fun w => w = []) E1 -> Forall (fun w => w = []) E2 ->
  Forall wsFree M -> Forall (fun w => w <> []) M ->
  trim (join [space] (E1 ++ M ++ E2)) = join [space] M.
Proof.
  intros HE1 HE2 Hw Hn. unfold trim.
  rewrite trimStart_join_empties by assumption.
  destruct M as [|m M'].
  - simpl app. rewrite trimStart_allBlank by now apply join_all_empty.
    reflexivity.
  - destruct (join_words_clean (m :: M') ltac:(discriminate) Hw Hn)
      as [H1 [H2 H3]].
    rewrite join_app_tail by discriminate.
    rewrite trimStart_clean.
    + rewrite trimEnd_app_blank; [now apply trimEnd_clean|].
      destruct E2 as [|e E2']; [constructor|].
      constructor; [reflexivity | now apply join_all_empty].
    + destruct (join [space] (m :: M')); [easy | exact H2].
Qed.

Lemma filter_nonEmpty_none E :
  Forall (fun w : jsstring => w = []) E -> filter nonEmpty E = [].
Proof. induction 1 as [|w E Hw HE IH]; [easy|]. subst w. exact IH. Qed.

Lemma emptiesAtEnds_firstn n S : emptiesAtEnds S -> emptiesAtEnds (firstn n S).
Proof.
  intros [E1 [M [E2 [-> [H1 [H2 H3]]]]]].
  exists (firstn n E1), (firstn (n - length E1) M),
    (firstn (n - length E1 - length M) E2).
  rewrite !firstn_app. repeat split; now apply Forall_firstn.
Qed.

Lemma emptiesAtEnds_skipn n S : emptiesAtEnds S -> emptiesAtEnds (skipn n S).
Proof.
  intros [E1 [M [E2 [-> [H1 [H2 H3]]]]]].
  exists (skipn n E1), (skipn (n - length E1) M),
    (skipn (n - length E1 - length M) E2).
  rewrite !skipn_app. repeat split; now apply Forall_skipn.
Qed.

Lemma innerNonEmpty_ends T :
  innerNonEmpty T ->
  exists M E2, T = M ++ E2 /\ Forall (fun w => w <> []) M
               /\ Forall (fun w => w = []) E2.
Proof.
  induction T as [|x T IH]; intros H.
  - exists [], []. repeat split; constructor.
  - destruct T as [|y T'].
    + destruct x as [|c x'].
      * exists [], [[]]. repeat split; repeat constructor.
      * exists [c :: x'], []. repeat split; repeat constructor. discriminate.
    + destruct H as [Hx H]. destruct (IH H) as [M [E2 [E [HM HE]]]].
      exists (x :: M), E2. rewrite E. repeat split; [now constructor|exact HE].
Qed.

Lemma split_emptiesAtEnds s : emptiesAtEnds (split s).
Proof.
  pose proof (split_tl_inner s) as H. pose proof (split_not_nil s) as Hn.
  destruct (split s) as [|h T]; [easy|]. cbn [tl] in H.
  destruct (innerNonEmpty_ends T H) as [M [E2 [-> [HM HE]]]].
  destruct h as [|c h'].
  - exists [[]], M, E2. repeat split; try assumption. repeat constructor.
  - exists [], (( c :: h') :: M), E2. repeat split; try assumption;
      constructor; try assumption. discriminate.
Qed.

Lemma window_tidy S :
  Forall wsFree S -> emptiesAtEnds S ->
  trim (join [space] S) <> [] -> tidyChunk (trim (join [space] S)).
Proof.
  intros Hw [E1 [M [E2 [-> [H1 [H2 H3]]]]]] Hne.
  assert (HwM : Forall wsFree M).
  { apply Forall_app in Hw. destruct Hw as [_ Hw].
    now apply Forall_app in Hw. }
  rewrite trim_join_window in * by assumption.
  destruct M as [|m M']; [easy|].
  destruct (join_words_clean (m :: M') ltac:(discriminate) HwM H2)
    as [Ha [Hb Hc]].
  split; [exact Ha|]. split; [exact Hb|]. split; [exact Hc|].
  rewrite split_clean_ends by assumption.
  rewrite words_join by assumption.
  now rewrite filter_nonEmpty_all.
Qed.

Lemma chunksOf_tidy fuel w :
  forall l, Forall wsFree l -> emptiesAtEnds l ->
  Forall tidyChunk (chunksOf fuel w l).
Proof.
  induction fuel as [|fuel IH]; intros l Hl He; [constructor|].
  destruct l as [|x l]; [constructor|].
  rewrite chunksOf_cons. apply Forall_app. split.
  - rewrite ltb_length_nonEmpty.
    destruct (trim (join [space] (firstn w (x :: l)))) eqn:ET; [constructor|].
    cbn [nonEmpty]. constructor; [|constructor]. rewrite <- ET.
    apply window_tidy;
      [now apply Forall_firstn | now apply emptiesAtEnds_firstn|].
    now rewrite ET.
  - apply IH; [now apply Forall_skipn | now apply emptiesAtEnds_skipn].
Qed.

(** X4. Every chunk is tidy: it is not empty, has no white space at either
    end, and is its own words joined by single spaces, whatever white
    space separated them in the text. *)
Theorem chunkText_tidy text w chunks :
  0 < w -> chunkText text w = Some chunks -> Forall tidyChunk chunks.
Proof.
  intros Hw. rewrite chunkText_chunksOf by assumption. intros [= <-].
  apply chunksOf_tidy; [apply split_wsFree | apply split_emptiesAtEnds].
Qed.

Lemma chunkText_tidy_witness :
  0 < 2
  /\ chunkText (9%N :: u "a" ++ [newline; newline] ++ u "b  c ") 2
     = Some [u "a"; u "b c"]
  /\ Forall tidyChunk [u "a"; u "b c"].
Proof.
  split; [lia|]. split; [reflexivity|].
  apply (chunkText_tidy
           (9%N :: u "a" ++ [newline; newline] ++ u "b  c ") 2);
    [lia | reflexivity].
Defined.

Lemma trim_tidy c : tidyChunk c -> trim c = c.
Proof.
  intros [_ [Hb [He _]]]. unfold trim.
  rewrite trimStart_clean by assumption. now apply trimEnd_clean.
Qed.

(** X5. Chunking a chunk again, with a window at least as large as the
    number of its words, gives back the chunk alone. *)
Theorem chunkText_again text w chunks c w' :
  0 < w -> chunkText text w = Some chunks -> In c chunks ->
  length (split c) <= w' ->
  chunkText c w' = Some [c].
Proof.
  intros Hw Hrun Hin Hw'.
  assert (Ht : tidyChunk c).
  { rewrite chunkText_chunksOf in Hrun by assumption.
    injection Hrun as <-.
    pose proof (chunksOf_tidy (length (split text)) w (split text)
                  (split_wsFree text) (split_emptiesAtEnds text)) as H.
    rewrite Forall_forall in H. now apply H. }
  pose proof (split_not_nil c) as Hn.
  assert (Hpos : 0 < w') by (destruct (split c); [easy | simpl in Hw'; lia]).
  rewrite chunkText_chunksOf by assumption.
  destruct (split c) as [|x l] eqn:E; [easy|].
  cbn [length]. rewrite chunksOf_cons.
  rewrite firstn_all2, skipn_all2, chunksOf_nil by exact Hw'.
  rewrite <- E. destruct Ht as [Hne [Hb [He Hj]]].
  rewrite Hj. rewrite (trim_tidy c) by (repeat split; assumption).
  rewrite ltb_length_nonEmpty. now destruct c.
Qed.

Lemma chunkText_again_witness :
  0 < 2
  /\ chunkText (u " a b  c d e") 2 = Some [u "a"; u "b c"; u "d e"]
  /\ In (u "b c") [u "a"; u "b c"; u "d e"]
  /\ length (split (u "b c")) <= 2
  /\ chunkText (u "b c") 2 = Some [u "b c"].
Proof.
  split; [lia|]. split; [reflexivity|]. split; [simpl; tauto|].
  split; [simpl; lia|].
  apply (chunkText_again (u " a b  c d e") 2 [u "a"; u "b c"; u "d e"]
           (u "b c") 2); [lia | reflexivity | simpl; tauto | simpl; lia].
Defined.

(* ================================================================= *)
(** * What the operations leave alone *)

Section Frames.

Variable R : State -> State -> Prop.
Hypothesis R_refl : forall st, R st st.
Hypothesis R_trans : forall a b c, R a b -> R b c -> R a c.

Lemma respects_ret {A} (a : A) : respects R (ret a).
Proof. intros st. apply R_refl. Qed.

Lemma respects_throw {A} e : respects R (@throw A e).
Proof. intros st. apply R_refl. Qed.

Lemma respects_running {A} : respects R (@running A).
Proof. intros st. apply R_refl. Qed.

Lemma respects_bind {A B} (m : M A) (k : A -> M B) :
  respects R m -> (forall a, respects R (k a)) -> respects R (bind m k).
Proof.
  intros Hm Hk st. unfold bind. specialize (Hm st).
  destruct (m st) as [[a|e|] st1]; simpl in *; try exact Hm.
  eapply R_trans; [exact Hm | apply Hk].
Qed.

Lemma respects_tryCatch {A} (m : M A) h :
  respects R m -> (forall e, respects R (h e)) -> respects R (tryCatch m h).
Proof.
  intros Hm Hh st. unfold tryCatch. specialize (Hm st).
  destruct (m st) as [[a|e|] st1]; simpl in *; try exact Hm.
  eapply R_trans; [exact Hm | apply Hh].
Qed.

Lemma respects_forEach {A} (xs : list A) body :
  (forall x, In x xs -> respects R (body x)) -> respects R (forEach xs body).
Proof.
  induction xs as [|x xs IH]; intros H; [apply respects_ret|].
  cbn [forEach]. apply respects_bind.
  - apply H. now left.
  - intros _. apply IH. intros y Hy. apply H. now right.
Qed.

End Frames.

Lemma respects_weaken {A} (R R' : State -> State -> Prop) (m : M A) :
  (forall st st', R st st' -> R' st st') -> respects R m -> respects R' m.
Proof. intros H Hm st. apply H, Hm. Qed.

Lemma sameDb_refl st : sameDb st st.
Proof. now split. Qed.

Lemma sameDb_trans a b c : sameDb a b -> sameDb b c -> sameDb a c.
Proof. intros [H1 H2] [H3 H4]. split; congruence. Qed.

Lemma sameDb_emit ev : respects sameDb (emit ev).
Proof. intros st. now split. Qed.

Ltac db_free :=
  repeat first
    [ apply (respects_bind sameDb sameDb_trans); [|intros ?]
    | apply (respects_tryCatch sameDb sameDb_trans); [|intros ?]
    | apply sameDb_emit
    | apply (respects_ret sameDb sameDb_refl)
    | apply (respects_throw sameDb sameDb_refl)
    | apply (respects_running sameDb sameDb_refl) ].

Lemma getEmbedding_sameDb D W text : respects sameDb (getEmbedding D W text).
Proof.
  unfold getEmbedding. apply (respects_tryCatch sameDb sameDb_trans).
  - destruct (apiKeySet W); simpl; [|db_free]. 
    apply (respects_bind sameDb sameDb_trans); [db_free|]. intros _.
    destruct (embedContent W text) as [result|]; [|db_free].
    destruct (length (extractEmbedding result) =? 0); [db_free|].
    destruct (D =? 768); db_free.
  - intros e. db_free.
Qed.

Lemma loadPDF_sameDb W file : respects sameDb (loadPDF W file).
Proof.
  unfold loadPDF. apply (respects_tryCatch sameDb sameDb_trans).
  - apply (respects_bind sameDb sameDb_trans); [db_free|]. intros _.
    destruct (readPdf W file); db_free.
  - intros e. db_free.
Qed.

Lemma loadArticle_sameDb W articleId : respects sameDb (loadArticle W articleId).
Proof.
  unfold loadArticle. apply (respects_tryCatch sameDb sameDb_trans).
  - destruct (indexOf articleIds articleId) as [index|]; [|db_free].
    apply (respects_bind sameDb sameDb_trans); [db_free|]. intros _.
    destruct (fetchArticle W (index + 1) articleId) as [|[|] [body|]];
      db_free.
  - intros e. db_free.
Qed.

Lemma slackLoop_sameDb W fuel : forall channel page messages,
  respects sameDb (slackLoop W fuel channel page messages).
Proof.
  induction fuel as [|fuel IH]; intros channel page messages;
    cbn [slackLoop]; [db_free|].
  apply (respects_bind sameDb sameDb_trans); [db_free|]. intros _.
  destruct (fetchSlack W channel page) as [|[|] [data|]]; try db_free.
  destruct (negb (hasMoreIsFalse data)
            && match data_messages data with
               | MessageArray msgs => 0 <? length msgs
               | NotAnArray truthyWithLength => truthyWithLength
               end); [apply IH | db_free].
Qed.

Lemma embedAll_sameDb D W chunks : respects sameDb (embedAll D W chunks).
Proof.
  induction chunks as [|c rest IH]; cbn [embedAll]; [db_free|].
  apply (respects_bind sameDb sameDb_trans); [apply getEmbedding_sameDb|].
  intros e. apply (respects_bind sameDb sameDb_trans); [exact IH|].
  intros es. db_free.
Qed.

(** X6. The adapters never touch the database: whatever they return or
    throw, an embedding call, the loading of a PDF, of an article or of
    a chat channel sends no statement and leaves the table as it was. *)
Theorem adapters_leave_database D W fuel s st :
  sameDb st (snd (getEmbedding D W s st))
  /\ sameDb st (snd (loadPDF W s st))
  /\ sameDb st (snd (loadArticle W s st))
  /\ sameDb st (snd (loadSlackChannel W fuel s st)).
Proof.
  split; [apply getEmbedding_sameDb|]. split; [apply loadPDF_sameDb|].
  split; [apply loadArticle_sameDb | apply slackLoop_sameDb].
Qed.

(** *** Operations that read or write the table *)

Section TableFrames.

Variable R : State -> State -> Prop.
Hypothesis R_table : forall st st', table st' = table st -> R st st'.
Hypothesis R_trans : forall a b c, R a b -> R b c -> R a c.

Lemma table_refl st : R st st.
Proof. now apply R_table. Qed.

Lemma respects_emit ev : respects R (emit ev).
Proof. intros st. now apply R_table. Qed.

Lemma respects_statement W : respects R (statement W).
Proof.
  intros st. unfold statement.
  destruct (dbFault W (dbClock st)); now apply R_table.
Qed.

Lemma respects_getTable : respects R getTable.
Proof. intros st. now apply R_table. Qed.

Lemma respects_sameDb {A} (m : M A) : respects sameDb m -> respects R m.
Proof. intros H st. apply R_table. apply H. Qed.

Lemma dbCount_respects W src sourceId : respects R (dbCount W src sourceId).
Proof.
  unfold dbCount.
  repeat first
    [ apply (respects_bind R R_trans); [|intros ?]
    | apply respects_emit | apply respects_statement
    | apply respects_getTable | apply (respects_ret R table_refl) ].
Qed.

Lemma sourceExists_respects W src sourceId :
  respects R (sourceExists W src sourceId).
Proof.
  unfold sourceExists. apply (respects_tryCatch R R_trans).
  - apply (respects_bind R R_trans); [apply dbCount_respects|].
    intros n. apply (respects_ret R table_refl).
  - intros e. apply (respects_bind R R_trans); [apply respects_emit|].
    intros _. apply (respects_ret R table_refl).
Qed.

Lemma findSimilarChunks_respects D W q limit :
  respects R (findSimilarChunks D W q limit).
Proof.
  unfold findSimilarChunks, dbNearest. apply (respects_tryCatch R R_trans).
  - destruct (negb (length q =? D));
      repeat first
        [ apply (respects_bind R R_trans); [|intros ?]
        | apply respects_emit | apply respects_statement
        | apply respects_getTable | apply (respects_ret R table_refl) ].
  - intros e. apply (respects_bind R R_trans); [apply respects_emit|].
    intros _. apply (respects_throw R table_refl).
Qed.

Lemma ask_respects D W question : respects R (ask D W question).
Proof.
  unfold ask, dbCountAll. apply (respects_tryCatch R R_trans).
  - apply (respects_bind R R_trans).
    { repeat first
        [ apply (respects_bind R R_trans); [|intros ?]
        | apply respects_emit | apply respects_statement
        | apply respects_getTable | apply (respects_ret R table_refl) ]. }
    intros total. destruct (total =? 0); [apply (respects_ret R table_refl)|].
    apply (respects_bind R R_trans);
      [apply respects_sameDb, getEmbedding_sameDb|].
    intros v. apply (respects_bind R R_trans);
      [apply findSimilarChunks_respects|].
    intros similar.
    destruct (length similar =? 0); [apply (respects_ret R table_refl)|].
    apply (respects_bind R R_trans); [apply respects_emit|]. intros _.
    destruct (generateContent W _);
      [apply (respects_ret R table_refl) | apply (respects_throw R table_refl)].
  - intros e. apply (respects_bind R R_trans); [apply respects_emit|].
    intros _. apply (respects_throw R table_refl).
Qed.

(** Ingesting a source respects [R] as soon as storing its chunks
    does. *)
Lemma ingestSource_respects D W fuel k sourceId :
  (forall chunks embeddings,
     respects R (storeChunks D W (sourceName k) sourceId chunks embeddings)) ->
  respects R (ingestSource D W fuel k sourceId).
Proof.
  intros Hstore. unfold ingestSource.
  apply (respects_bind R R_trans); [apply sourceExists_respects|].
  intros loaded. destruct loaded; [apply (respects_ret R table_refl)|].
  assert (Htail : forall text,
            respects R
              (chunks <- chunkTextM text ;;
               embeddings <- embedAll D W chunks ;;
               storeChunks D W (sourceName k) sourceId chunks embeddings)).
  { intros text. apply (respects_bind R R_trans).
    - unfold chunkTextM. destruct (chunkText text defaultWordsPerChunk);
        [apply (respects_ret R table_refl)
        | apply (respects_running R table_refl)].
    - intros chunks. apply (respects_bind R R_trans);
        [apply respects_sameDb, embedAll_sameDb|].
      intros embeddings. apply Hstore. }
  destruct k.
  - apply (respects_bind R R_trans);
      [apply respects_sameDb, loadPDF_sameDb | intros text; apply Htail].
  - apply (respects_bind R R_trans);
      [apply respects_sameDb, loadArticle_sameDb | intros text; apply Htail].
  - apply (respects_bind R R_trans);
      [apply respects_sameDb, slackLoop_sameDb|].
    intros messages. destruct (length messages =? 0);
      [apply (respects_ret R table_refl) | apply Htail].
Qed.

Lemma loadAllData_respects D W fuel :
  (forall k sourceId chunks embeddings,
     In (k, sourceId) allSources ->
     respects R (storeChunks D W (sourceName k) sourceId chunks embeddings)) ->
  respects R (loadAllData D W fuel).
Proof.
  intros Hstore. unfold loadAllData. apply (respects_tryCatch R R_trans).
  - assert (Hloop : forall k ids,
              (forall x, In x ids -> In (k, x) allSources) ->
              respects R (forEach ids (ingestSource D W fuel k))).
    { intros k ids Hin. apply (respects_forEach R table_refl R_trans).
      intros x Hx. apply ingestSource_respects.
      intros chunks embeddings. apply Hstore, Hin, Hx. }
    unfold allSources in Hstore |- *.
    apply (respects_bind R R_trans);
      [|intros _; apply (respects_bind R R_trans); [|intros _]];
      apply Hloop; intros x Hx; unfold allSources;
      rewrite !in_app_iff, !in_map_iff; eauto 6.
  - intros e. apply (respects_bind R R_trans); [apply respects_emit|].
    intros _. apply (respects_throw R table_refl).
Qed.

End TableFrames.

Lemma sameTable_table st st' : table st' = table st -> sameTable st st'.
Proof. easy. Qed.

Lemma sameTable_trans a b c : sameTable a b -> sameTable b c -> sameTable a c.
Proof. unfold sameTable. congruence. Qed.

(** X7. Answering never changes the store: whatever [ask],
    [findSimilarChunks] and [sourceExists] return or throw, the table
    is the one they started from. *)
Theorem ask_read_only D W question q limit src sourceId st :
  table (snd (ask D W question st)) = table st
  /\ table (snd (findSimilarChunks D W q limit st)) = table st
  /\ table (snd (sourceExists W src sourceId st)) = table st.
Proof.
  split; [|split].
  - apply (ask_respects sameTable sameTable_table sameTable_trans).
  - apply (findSimilarChunks_respects sameTable sameTable_table
             sameTable_trans).
  - apply (sourceExists_respects sameTable sameTable_table sameTable_trans).
Qed.

(** *** Rows of other sources *)

Lemma storeChunks_others D W src sourceId chunks embeddings st :
  filter (fun r => negb (matches src sourceId r))
    (table (snd (storeChunks D W src sourceId chunks embeddings st)))
  = filter (fun r => negb (matches src sourceId r)) (table st).
Proof.
  destruct (dbFault W (dbClock st)) eqn:Hf.
  - now rewrite storeChunks_no_db.
  - destruct (storeChunks_run D W src sourceId embeddings chunks st Hf)
      as [o [st' [E [Ht _]]]].
    rewrite E. cbn [snd]. rewrite Ht. apply other_rows_after.
Qed.

Lemma filter_filter_implied {A} (f g : A -> bool) l :
  (forall x, f x = true -> g x = true) ->
  filter f (filter g l) = filter f l.
Proof.
  intros H. induction l as [|x l IH]; [reflexivity|]. simpl.
  destruct (g x) eqn:Hg; simpl.
  - now rewrite IH.
  - destruct (f x) eqn:Hf; [|exact IH]. apply H in Hf. congruence.
Qed.

Lemma matches_exclusive src sourceId src' sourceId' r :
  ~ (src = src' /\ sourceId = sourceId') ->
  matches src' sourceId' r = true -> negb (matches src sourceId r) = true.
Proof.
  intros Hne Hm. apply negb_true_iff.
  destruct (matches src sourceId r) eqn:Hm'; [|reflexivity].
  unfold matches in Hm, Hm'.
  apply andb_prop in Hm. apply andb_prop in Hm'.
  destruct Hm as [H1 H2]. destruct Hm' as [H3 H4].
  apply streq_eq in H1, H2, H3, H4. exfalso. apply Hne. split; congruence.
Qed.

Lemma storeChunks_pairKept D W src sourceId src' sourceId' chunks embeddings :
  ~ (src = src' /\ sourceId = sourceId') ->
  respects (pairKept src' sourceId')
    (storeChunks D W src sourceId chunks embeddings).
Proof.
  intros Hne st. unfold pairKept.
  rewrite <- (filter_filter_implied (matches src' sourceId')
                (fun r => negb (matches src sourceId r))
                (table (snd _)))
    by (intros r; apply matches_exclusive; exact Hne).
  rewrite storeChunks_others.
  apply filter_filter_implied. intros r. now apply matches_exclusive.
Qed.

Lemma pairKept_table src sourceId st st' :
  table st' = table st -> pairKept src sourceId st st'.
Proof. unfold pairKept. now intros ->. Qed.

Lemma pairKept_trans src sourceId a b c :
  pairKept src sourceId a b -> pairKept src sourceId b c ->
  pairKept src sourceId a c.
Proof. unfold pairKept. congruence. Qed.

(** X8. Replacing the chunks of one pair, whether it completes or fails
    half-way, leaves every row of every other pair in the table, in
    the same order. *)
Theorem storeChunks_frame D W src sourceId chunks embeddings st :
  filter (fun r => negb (matches src sourceId r))
    (table (snd (storeChunks D W src sourceId chunks embeddings st)))
  = filter (fun r => negb (matches src sourceId r)) (table st).
Proof. apply storeChunks_others. Qed.

(** X9. The batch loader only ever changes rows of its eleven configured
    sources: the rows of any other pair (source, sourceId) are the
    same after [loadAllData], whatever its outcome. *)
Theorem loadAllData_foreign_rows D W fuel src sourceId st :
  (forall k id, In (k, id) allSources ->
     ~ (sourceName k = src /\ id = sourceId)) ->
  filter (matches src sourceId) (table (snd (loadAllData D W fuel st)))
  = filter (matches src sourceId) (table st).
Proof.
  intros Hforeign.
  apply (loadAllData_respects (pairKept src sourceId)
           (pairKept_table src sourceId) (pairKept_trans src sourceId)).
  intros k id chunks embeddings Hin.
  apply storeChunks_pairKept. now apply Hforeign.
Qed.

Lemma loadAllData_foreign_rows_witness :
  (forall k id, In (k, id) allSources ->
     ~ (sourceName k = u "pdf" /\ id = u "doc"))
  /\ filter (matches (u "pdf") (u "doc"))
       (table (snd (loadAllData 768 calmWorld 3 rankingState)))
     = filter (matches (u "pdf") (u "doc")) (table rankingState).
Proof.
  assert (H : forall k id, In (k, id) allSources ->
                ~ (sourceName k = u "pdf" /\ id = u "doc")).
  { intros k id Hin [_ Hid]. subst id. vm_compute in Hin.
    repeat (destruct Hin as [Hin|Hin]; [discriminate|]). exact Hin. }
  split; [exact H|].
  apply (loadAllData_foreign_rows 768 calmWorld 3 (u "pdf") (u "doc")
           rankingState H).
Defined.

(** *** The dimension of stored vectors *)

Lemma embeddingField_inserted D src sourceId i c e :
  embeddingField D (insertedRow D src sourceId i c e) = Some e.
Proof. unfold embeddingField, insertedRow. simpl. now destruct (D =? 768). Qed.

Lemma successes_dimensioned D W src sourceId embeddings chunks :
  forall clock i,
  wellDimensioned D
    (firstn (successes D W embeddings clock i chunks)
       (rowsFrom D W src sourceId i chunks embeddings)).
Proof.
  induction chunks as [|chunk rest IH]; intros clock i; [constructor|].
  cbn [successes]. unfold insertOk.
  destruct (nth_error embeddings i) as [e|] eqn:En; [|constructor].
  destruct (negb (dbFault W clock) && (length e =? D)) eqn:Ok; [|constructor].
  rewrite (rowsFrom_cons D W src sourceId embeddings i chunk rest e En).
  cbn [firstn]. constructor; [|apply IH].
  rewrite embeddingField_inserted. apply andb_prop in Ok.
  unfold castVector. rewrite length_map. now apply Nat.eqb_eq.
Qed.

Lemma wellDimensioned_filter D f t :
  wellDimensioned D t -> wellDimensioned D (filter f t).
Proof.
  unfold wellDimensioned. rewrite !Forall_forall. intros H r Hr.
  apply filter_In in Hr. now apply H.
Qed.

Lemma storeChunks_dimensionKept D W src sourceId chunks embeddings :
  respects (dimensionKept D) (storeChunks D W src sourceId chunks embeddings).
Proof.
  intros st Hwd. destruct (dbFault W (dbClock st)) eqn:Hf.
  - now rewrite storeChunks_no_db.
  - destruct (storeChunks_run D W src sourceId embeddings chunks st Hf)
      as [o [st' [E [Ht _]]]].
    rewrite E. cbn [snd]. rewrite Ht. apply Forall_app. split.
    + now apply wellDimensioned_filter.
    + apply successes_dimensioned.
Qed.

Lemma dimensionKept_table D st st' :
  table st' = table st -> dimensionKept D st st'.
Proof. unfold dimensionKept. now intros ->. Qed.

Lemma dimensionKept_trans D a b c :
  dimensionKept D a b -> dimensionKept D b c -> dimensionKept D a c.
Proof. unfold dimensionKept. auto. Qed.

(** X10. The table never holds a vector of the wrong length in the
    configured column: if every stored embedding has the configured
    number of entries, this is still so after [storeChunks] and after
    [loadAllData], whatever they were given and however they end. *)
Theorem dimension_invariant D W fuel src sourceId chunks embeddings st :
  wellDimensioned D (table st) ->
  wellDimensioned D
    (table (snd (storeChunks D W src sourceId chunks embeddings st)))
  /\ wellDimensioned D (table (snd (loadAllData D W fuel st))).
Proof.
  intros H. split.
  - now apply storeChunks_dimensionKept.
  - apply (loadAllData_respects (dimensionKept D) (dimensionKept_table D)
             (dimensionKept_trans D)); [|exact H].
    intros k id cs es _. apply storeChunks_dimensionKept.
Qed.

Lemma dimension_invariant_witness :
  wellDimensioned 2 (table rankingState)
  /\ wellDimensioned 2
       (table (snd (storeChunks 2 calmWorld (u "pdf") (u "doc")
                      [u "x"; u "y"] [vecB; [1]%R] rankingState)))
  /\ wellDimensioned 2 (table (snd (loadAllData 2 calmWorld 3 rankingState))).
Proof.
  assert (H : wellDimensioned 2 (table rankingState))
    by (repeat constructor).
  split; [exact H|].
  apply (dimension_invariant 2 calmWorld 3 (u "pdf") (u "doc")
           [u "x"; u "y"] [vecB; [1]%R] rankingState H).
Defined.

(* ================================================================= *)
(** * Existence check and replacement together *)

Lemma filter_nonempty_exists {A} (f : A -> bool) l :
  filter f l <> [] <-> exists x, In x l /\ f x = true.
Proof.
  split.
  - intros H. destruct (filter f l) as [|x t] eqn:E; [easy|].
    exists x. apply filter_In. rewrite E. now left.
  - intros [x Hx] E. apply filter_In in Hx. now rewrite E in Hx.
Qed.

Lemma matches_iff src sourceId r :
  matches src sourceId r = true <-> source r = src /\ source_id r = sourceId.
Proof.
  unfold matches. split.
  - intros H. apply andb_prop in H. destruct H as [H1 H2].
    split; now apply streq_eq.
  - intros [<- <-]. now rewrite !streq_refl.
Qed.

(** X11. When the count query is answered, [sourceExists] answers [true]
    exactly when some row of the table carries this very source and
    this very sourceId. *)
Theorem sourceExists_iff W src sourceId st :
  dbFault W (dbClock st) = false ->
  (fst (sourceExists W src sourceId st) = Returned true
   <-> exists r, In r (table st)
                 /\ source r = src /\ source_id r = sourceId).
Proof.
  intros Hf. rewrite (sourceExists_run W src sourceId st Hf). cbn [fst].
  split.
  - intros [= H].
    destruct (filter (matches src sourceId) (table st)) as [|r t] eqn:E;
      [discriminate|].
    exists r. rewrite <- matches_iff. apply filter_In. rewrite E. now left.
  - intros [r [Hin Hm]]. apply matches_iff in Hm.
    destruct (filter (matches src sourceId) (table st)) eqn:E; [|reflexivity].
    assert (Hr : In r (filter (matches src sourceId) (table st)))
      by now apply filter_In.
    now rewrite E in Hr.
Qed.

Lemma sourceExists_iff_witness :
  dbFault calmWorld (dbClock rankingState) = false
  /\ (fst (sourceExists calmWorld (u "pdf") (u "doc") rankingState)
      = Returned true
      <-> exists r, In r (table rankingState)
                    /\ source r = u "pdf" /\ source_id r = u "doc").
Proof.
  split; [reflexivity|].
  apply (sourceExists_iff calmWorld (u "pdf") (u "doc") rankingState).
  reflexivity.
Defined.

(** What a completed [storeChunks] has done. *)
Lemma storeChunks_done D W src sourceId chunks embeddings st st' :
  storeChunks D W src sourceId chunks embeddings st = (Returned tt, st') ->
  successes D W embeddings (S (dbClock st)) 0 chunks = length chunks
  /\ filter (matches src sourceId) (table st')
     = newRows D W src sourceId chunks embeddings
  /\ length (newRows D W src sourceId chunks embeddings) = length chunks.
Proof.
  intros Hrun.
  destruct (dbFault W (dbClock st)) eqn:Hf.
  { now rewrite storeChunks_no_db in Hrun. }
  destruct (storeChunks_run D W src sourceId embeddings chunks st Hf)
    as [o [st1 [E [Ht [_ Hth]]]]].
  rewrite E in Hrun. injection Hrun as -> ->.
  set (n := successes D W embeddings (S (dbClock st)) 0 chunks) in *.
  assert (Hn : n = length chunks).
  { destruct (Nat.eq_dec n (length chunks)) as [Hn|Hn]; [exact Hn|].
    now destruct (Hth Hn). }
  destruct (successes_le_rows D W src sourceId embeddings chunks
              (S (dbClock st)) 0) as [H1 H2].
  fold n in H1. fold (newRows D W src sourceId chunks embeddings) in *.
  split; [exact Hn|]. split; [|lia].
  rewrite Ht. unfold newRows. rewrite pair_rows_after.
  apply firstn_all2. fold (newRows D W src sourceId chunks embeddings). lia.
Qed.

(** X12. Insert, then look up: after [storeChunks] has completed for a
    pair, [sourceExists] for that pair (its query being answered)
    answers [true] when the chunk list was not empty and [false] when
    it was, whatever the table held before. *)
Theorem storeChunks_then_exists D W src sourceId chunks embeddings st st' :
  storeChunks D W src sourceId chunks embeddings st = (Returned tt, st') ->
  dbFault W (dbClock st') = false ->
  fst (sourceExists W src sourceId st')
  = Returned (negb (length chunks =? 0)).
Proof.
  intros Hrun Hf.
  destruct (storeChunks_done D W src sourceId chunks embeddings st st' Hrun)
    as [_ [Hrows Hlen]].
  rewrite (sourceExists_run W src sourceId st' Hf). cbn [fst].
  rewrite Hrows, Hlen. now destruct chunks.
Qed.

Lemma storeChunks_then_exists_witness :
  storeChunks 2 calmWorld (u "pdf") (u "doc") [] [] rankingState
  = (Returned tt,
     snd (storeChunks 2 calmWorld (u "pdf") (u "doc") [] [] rankingState))
  /\ dbFault calmWorld
       (dbClock (snd (storeChunks 2 calmWorld (u "pdf") (u "doc") [] []
                        rankingState))) = false
  /\ fst (sourceExists calmWorld (u "pdf") (u "doc")
            (snd (storeChunks 2 calmWorld (u "pdf") (u "doc") [] []
                    rankingState)))
     = Returned (negb (length (@nil jsstring) =? 0)).
Proof.
  split; [reflexivity|]. split; [reflexivity|].
  apply (storeChunks_then_exists 2 calmWorld (u "pdf") (u "doc") [] []
           rankingState); reflexivity.
Defined.

Lemma successes_all D W embeddings chunks : forall clock i,
  successes D W embeddings clock i chunks = length chunks ->
  length chunks <= length (skipn i embeddings)
  /\ Forall (fun e => length e = D)
       (firstn (length chunks) (skipn i embeddings)).
Proof.
  induction chunks as [|chunk rest IH]; intros clock i H.
  - simpl. split; [lia | constructor].
  - cbn [successes] in H. unfold insertOk in H.
    destruct (nth_error embeddings i) as [e|] eqn:En; [|discriminate].
    destruct (negb (dbFault W clock) && (length e =? D)) eqn:Ok;
      [|discriminate].
    injection H as H. destruct (IH (S clock) (S i) H) as [H1 H2].
    rewrite (nth_error_skipn_cons embeddings i e En). cbn [length firstn].
    split; [lia|]. constructor; [|exact H2].
    apply andb_prop in Ok. now apply Nat.eqb_eq.
Qed.

(** X13. [storeChunks] completes only when every chunk has its embedding
    and each of these has the configured number of entries: with fewer
    embeddings than chunks, or one of another length, it throws. *)
Theorem storeChunks_needs_embeddings D W src sourceId chunks embeddings
    st st' :
  storeChunks D W src sourceId chunks embeddings st = (Returned tt, st') ->
  length chunks <= length embeddings
  /\ Forall (fun e => length e = D) (firstn (length chunks) embeddings).
Proof.
  intros Hrun.
  destruct (storeChunks_done D W src sourceId chunks embeddings st st' Hrun)
    as [Hn _].
  exact (successes_all D W embeddings chunks (S (dbClock st)) 0 Hn).
Qed.

Lemma storeChunks_needs_embeddings_witness :
  storeChunks 2 calmWorld (u "pdf") (u "doc") [u "x"] [vecB; [1]%R]
    rankingState
  = (Returned tt,
     snd (storeChunks 2 calmWorld (u "pdf") (u "doc") [u "x"] [vecB; [1]%R]
            rankingState))
  /\ length [u "x"] <= length [vecB; [1]%R]
  /\ Forall (fun e => length e = 2)
       (firstn (length [u "x"]) [vecB; [1]%R]).
Proof.
  split; [reflexivity|].
  apply (storeChunks_needs_embeddings 2 calmWorld (u "pdf") (u "doc")
           [u "x"] [vecB; [1]%R] rankingState
           (snd (storeChunks 2 calmWorld (u "pdf") (u "doc") [u "x"]
                   [vecB; [1]%R] rankingState))).
  reflexivity.
Defined.

(* ================================================================= *)
(** * Running the batch on a loaded store *)

Lemma forEach_all_present D W fuel (xs : list (SourceKind * jsstring)) :
  forall st,
  (forall j, j < length xs -> dbFault W (dbClock st + j) = false) ->
  (forall k id, In (k, id) xs ->
     filter (matches (sourceName k) id) (table st) <> []) ->
  forEach xs (fun p => ingestSource D W fuel (fst p) (snd p)) st =
  (Returned tt,
   {| table := table st; dbClock := dbClock st + length xs;
      trace := trace st
               ++ map (fun p => DbCount (sourceName (fst p)) (snd p)) xs |}).
Proof.
  induction xs as [|[k id] xs IH]; intros st Hf Hrows.
  - simpl. unfold ret. rewrite Nat.add_0_r, app_nil_r. now destruct st.
  - cbn [forEach fst snd]. unfold bind.
    rewrite ingestSource_present.
    + rewrite IH.
      * cbn [table dbClock trace length map fst snd].
        replace (S (dbClock st) + length xs)
          with (dbClock st + S (length xs)) by lia.
        now rewrite <- app_assoc.
      * intros j Hj. cbn [dbClock].
        replace (S (dbClock st) + j) with (dbClock st + S j) by lia.
        apply Hf. simpl. lia.
      * intros k' id' Hin. cbn [table]. apply Hrows. now right.
    + specialize (Hf 0 ltac:(simpl; lia)). now rewrite Nat.add_0_r in Hf.
    + apply Hrows. now left.
Qed.

(** X14. When every configured source already has rows and the eleven count
    queries are answered, [loadAllData] asks those eleven questions
    and nothing else: no fetch, no embedding call, no write; the table
    is unchanged. *)
Theorem loadAllData_all_present D W fuel st :
  (forall j, j < 11 -> dbFault W (dbClock st + j) = false) ->
  (forall k id, In (k, id) allSources ->
     filter (matches (sourceName k) id) (table st) <> []) ->
  loadAllData D W fuel st =
  (Returned tt,
   {| table := table st; dbClock := dbClock st + 11;
      trace := trace st
               ++ map (fun p => DbCount (sourceName (fst p)) (snd p))
                    allSources |}).
Proof.
  intros Hf Hrows. rewrite loadAllData_allSources. unfold tryCatch.
  now rewrite (forEach_all_present D W fuel allSources st Hf Hrows).
Qed.

Lemma loadAllData_all_present_witness :
  (forall j, j < 11 -> dbFault calmWorld (dbClock allLoaded + j) = false)
  /\ (forall k id, In (k, id) allSources ->
        filter (matches (sourceName k) id) (table allLoaded) <> [])
  /\ loadAllData 768 calmWorld 3 allLoaded =
     (Returned tt,
      {| table := table allLoaded; dbClock := dbClock allLoaded + 11;
         trace := trace allLoaded
                  ++ map (fun p => DbCount (sourceName (fst p)) (snd p))
                       allSources |}).
Proof.
  assert (H1 : forall j, j < 11 ->
                 dbFault calmWorld (dbClock allLoaded + j) = false)
    by (intros j _; reflexivity).
  assert (H2 : forall k id, In (k, id) allSources ->
                 filter (matches (sourceName k) id) (table allLoaded) <> []).
  { intros k id Hin. vm_compute in Hin.
    repeat (destruct Hin as [Hin|Hin];
            [injection Hin as <- <-; vm_compute; discriminate|]).
    destruct Hin. }
  split; [exact H1|]. split; [exact H2|].
  apply (loadAllData_all_present 768 calmWorld 3 allLoaded H1 H2).
Defined.

(* ================================================================= *)
(** * Answering *)

(** [ask] up to the retrieval, when the store is not empty, the two
    statements are answered and the question gets its embedding. *)
Lemma ask_run D W question st result :
  table st <> [] ->
  dbFault W (dbClock st) = false ->
  dbFault W (S (dbClock st)) = false ->
  D = 768 \/ D = 1536 ->
  apiKeySet W = true ->
  embedContent W question = Some result ->
  extractEmbedding result <> [] ->
  let v := fitDimension D (extractEmbedding result) in
  let similar :=
    map (build D) (nearestRows D (table st) (castVector W v) 5) in
  let st3 := {| table := table st; dbClock := S (S (dbClock st));
                trace := trace st ++ [DbCountAll; EmbedCall question;
                                      DbSelect 5] |} in
  let prompt := promptOf (contextOf similar) question in
  let st4 := {| table := table st; dbClock := S (S (dbClock st));
                trace := trace st ++ [DbCountAll; EmbedCall question;
                                      DbSelect 5; GenerateCall prompt] |} in
  ask D W question st =
  match similar with
  | [] => (Returned noRelevantInformation, st3)
  | _ :: _ =>
      match generateContent W prompt with
      | Some answer => (Returned answer, st4)
      | None =>
          (Thrown LlmError,
           {| table := table st; dbClock := S (S (dbClock st));
              trace := trace st4 ++ [ConsoleError AtAsk] |})
      end
  end.
Proof.
  intros Ht Hf0 Hf1 HD Hk Hr He v similar st3 prompt st4.
  assert (Hn : (length (table st) =? 0) = false)
    by (destruct (table st); [easy | reflexivity]).
  assert (Hv : length v = D) by apply fitDimension_length.
  unfold ask, dbCountAll, tryCatch, bind, emit, statement, getTable, ret.
  cbn [table dbClock trace]. rewrite Hf0. cbv beta iota.
  cbn [table dbClock trace]. rewrite Hn.
  rewrite (getEmbedding_usable D W question result _ Hk Hr He).
  replace (if D =? 768 then fitDimension 768 (extractEmbedding result)
           else fitDimension 1536 (extractEmbedding result)) with v
    by (unfold v; now destruct HD as [-> | ->]).
  rewrite (findSimilarChunks_valid D W v 5 _ Hv)
    by (cbn [dbClock]; exact Hf1).
  cbn [table dbClock trace]. fold similar. rewrite <- !app_assoc.
  cbn [app]. fold st3.
  destruct similar as [|r rest] eqn:Es; [reflexivity|].
  cbn [length Nat.eqb]. fold prompt.
  destruct (generateContent W prompt) as [answer|];
    unfold throw, st4, st3; cbn [table dbClock trace];
    rewrite <- ?app_assoc; reflexivity.
Qed.

(** X15. On an empty table [ask] returns the empty-knowledge-base sentence
    after the count alone: neither the embedding model nor the
    generation model is called. *)
Theorem ask_empty_store D W question st :
  table st = [] -> dbFault W (dbClock st) = false ->
  ask D W question st =
  (Returned emptyKnowledgeBase,
   {| table := table st; dbClock := S (dbClock st);
      trace := trace st ++ [DbCountAll] |}).
Proof.
  intros Ht Hf.
  unfold ask, dbCountAll, tryCatch, bind, emit, statement, getTable, ret.
  cbn [table dbClock trace]. rewrite Hf. cbv beta iota.
  cbn [table dbClock trace]. now rewrite Ht.
Qed.

Lemma ask_empty_store_witness :
  table emptyState = [] /\ dbFault calmWorld (dbClock emptyState) = false
  /\ ask 768 calmWorld (u "anything") emptyState =
     (Returned emptyKnowledgeBase,
      {| table := table emptyState; dbClock := S (dbClock emptyState);
         trace := trace emptyState ++ [DbCountAll] |}).
Proof.
  split; [reflexivity|]. split; [reflexivity|].
  apply (ask_empty_store 768 calmWorld (u "anything") emptyState);
    reflexivity.
Defined.

Lemma nearestRows_nil D t q limit :
  (forall r, In r t -> embeddingField D r = None) ->
  nearestRows D t q limit = [].
Proof.
  intros H. unfold nearestRows. rewrite filter_none; [now destruct limit|].
  apply Forall_forall. intros r Hr. now rewrite (H r Hr).
Qed.

Lemma nearestRows_cons D t q limit r :
  0 < limit -> In r t -> embeddingField D r <> None ->
  nearestRows D t q limit <> [].
Proof.
  intros Hl Hin Hnn E.
  destruct (nearestRows_spec D t q limit) as [rest [Hlen _]].
  cbv zeta in Hlen. rewrite E in Hlen. simpl in Hlen.
  assert (Hc : In r (filter (fun r => isNotNull (embeddingField D r)) t)).
  { apply filter_In. split; [exact Hin|]. now destruct (embeddingField D r). }
  destruct (filter (fun r => isNotNull (embeddingField D r)) t);
    [easy | simpl in Hlen; lia].
Qed.

(** X16. With rows in the table but no embedding in the configured column
    of any of them, [ask] embeds the question, runs the query and
    returns the no-relevant-information sentence; the generation model
    is not called. *)
Theorem ask_without_embeddings D W question st result :
  table st <> [] ->
  dbFault W (dbClock st) = false ->
  dbFault W (S (dbClock st)) = false ->
  D = 768 \/ D = 1536 ->
  apiKeySet W = true ->
  embedContent W question = Some result ->
  extractEmbedding result <> [] ->
  (forall r, In r (table st) -> embeddingField D r = None) ->
  ask D W question st =
  (Returned noRelevantInformation,
   {| table := table st; dbClock := S (S (dbClock st));
      trace := trace st ++ [DbCountAll; EmbedCall question; DbSelect 5] |}).
Proof.
  intros Ht Hf0 Hf1 HD Hk Hr He Hnone.
  rewrite (ask_run D W question st result Ht Hf0 Hf1 HD Hk Hr He).
  now rewrite nearestRows_nil.
Qed.

Lemma ask_without_embeddings_witness :
  table rankingState <> []
  /\ dbFault calmWorld (dbClock rankingState) = false
  /\ dbFault calmWorld (S (dbClock rankingState)) = false
  /\ (768 = 768 \/ 768 = 1536)
  /\ apiKeySet calmWorld = true
  /\ embedContent calmWorld (u "q")
     = Some (EmbeddingObject (Some [1; 2]%R) None)
  /\ extractEmbedding (EmbeddingObject (Some [1; 2]%R) None) <> []
  /\ (forall r, In r (table rankingState) -> embeddingField 768 r = None)
  /\ ask 768 calmWorld (u "q") rankingState =
     (Returned noRelevantInformation,
      {| table := table rankingState;
         dbClock := S (S (dbClock rankingState));
         trace := trace rankingState
                  ++ [DbCountAll; EmbedCall (u "q"); DbSelect 5] |}).
Proof.
  assert (H : forall r, In r (table rankingState) ->
                embeddingField 768 r = None).
  { intros r Hin. simpl in Hin.
    destruct Hin as [<-|[<-|[<-|[]]]]; reflexivity. }
  split; [discriminate|]. split; [reflexivity|]. split; [reflexivity|].
  split; [left; reflexivity|]. split; [reflexivity|].
  split; [reflexivity|]. split; [discriminate|]. split; [exact H|].
  apply (ask_without_embeddings 768 calmWorld (u "q") rankingState
           (EmbeddingObject (Some [1; 2]%R) None));
    [discriminate | reflexivity | reflexivity | left; reflexivity
    | reflexivity | reflexivity | discriminate | exact H].
Defined.

(** X17. As soon as one row has an embedding, however dissimilar to the
    question, [ask] goes on to generation: it makes one embedding
    call, one query with limit 5 and one generation call, on the prompt
    built from the retrieved rows and the question, and returns the
    generated text as it is. *)
Theorem ask_answers D W question st result r answer :
  dbFault W (dbClock st) = false ->
  dbFault W (S (dbClock st)) = false ->
  D = 768 \/ D = 1536 ->
  apiKeySet W = true ->
  embedContent W question = Some result ->
  extractEmbedding result <> [] ->
  In r (table st) -> embeddingField D r <> None ->
  generateContent W
    (promptOf
       (contextOf
          (map (build D)
             (nearestRows D (table st)
                (castVector W (fitDimension D (extractEmbedding result)))
                5)))
       question) = Some answer ->
  ask D W question st =
  (Returned answer,
   {| table := table st; dbClock := S (S (dbClock st));
      trace :=
        trace st
        ++ [DbCountAll; EmbedCall question; DbSelect 5;
            GenerateCall
              (promptOf
                 (contextOf
                    (map (build D)
                       (nearestRows D (table st)
                          (castVector W
                             (fitDimension D (extractEmbedding result)))
                          5)))
                 question)] |}).
Proof.
  intros Hf0 Hf1 HD Hk Hr He Hin Hnn Hg.
  assert (Ht : table st <> []) by (intros E; now rewrite E in Hin).
  rewrite (ask_run D W question st result Ht Hf0 Hf1 HD Hk Hr He).
  pose proof (nearestRows_cons D (table st)
                (castVector W (fitDimension D (extractEmbedding result))) 5 r
                ltac:(lia) Hin Hnn) as Hne.
  destruct (nearestRows D (table st)
              (castVector W (fitDimension D (extractEmbedding result))) 5)
    as [|x l] eqn:E;
    [easy|].
  cbn [map] in *. now rewrite Hg.
Qed.

Lemma ask_answers_witness :
  dbFault calmWorld (dbClock onceIngested) = false
  /\ fst (ask 768 calmWorld (u "q") onceIngested) = Returned (u "an answer").
Proof.
  split; [reflexivity|].
  assert (Hin : In (nth 0 (table onceIngested) rowA) (table onceIngested))
    by (vm_compute; now left).
  assert (Hnn : embeddingField 768 (nth 0 (table onceIngested) rowA) <> None)
    by (vm_compute; discriminate).
  rewrite (ask_answers 768 calmWorld (u "q") onceIngested
             (EmbeddingObject (Some [1; 2]%R) None)
             (nth 0 (table onceIngested) rowA) (u "an answer")
             eq_refl eq_refl (or_introl eq_refl) eq_refl eq_refl
             ltac:(discriminate) Hin Hnn eq_refl).
  reflexivity.
Defined.

(* ================================================================= *)
(** * More on the embedding adapter *)

(** X18. [getEmbedding] returns a vector exactly when the API key is set,
    the model answers and a non-empty array is extracted from the
    answer; in every other case it throws. Without the key the model
    is not called at all. *)
Theorem getEmbedding_outcome D W text st :
  ((exists v, fst (getEmbedding D W text st) = Returned v)
   <-> apiKeySet W = true
       /\ exists result, embedContent W text = Some result
                         /\ extractEmbedding result <> [])
  /\ ((forall v, fst (getEmbedding D W text st) <> Returned v) ->
      exists e, fst (getEmbedding D W text st) = Thrown e)
  /\ (apiKeySet W = false ->
      getEmbedding D W text st =
      (Thrown MissingApiKey,
       {| table := table st; dbClock := dbClock st;
          trace := trace st ++ [ConsoleError AtGetEmbedding] |})).
Proof.
  unfold getEmbedding, tryCatch, bind, emit, throw, ret.
  destruct (apiKeySet W); cbn [negb].
  - destruct (embedContent W text) as [result|].
    + destruct (length (extractEmbedding result) =? 0) eqn:E.
      * apply length_eqb_0 in E. cbn. split; [split|split].
        -- intros [v Hv]. discriminate.
        -- intros [_ [r [[= <-] Hr]]]. easy.
        -- intros _. now exists ExtractFailed.
        -- discriminate.
      * assert (He : extractEmbedding result <> [])
          by (intros H; rewrite H in E; discriminate).
        destruct (D =? 768); cbn; (split; [split|split]);
          try discriminate; eauto;
          intros H; exfalso; eapply H; reflexivity.
    + cbn. split; [split|split].
      * intros [v Hv]. discriminate.
      * intros [_ [r [Hr _]]]. discriminate.
      * intros _. now exists EmbedApiError.
      * discriminate.
  - cbn. split; [split|split].
    + intros [v Hv]. discriminate.
    + intros [Hk _]. discriminate.
    + intros _. now exists MissingApiKey.
    + reflexivity.
Qed.

Lemma dot_zeros_l k b : dot (repeat 0%R k) b = 0%R.
Proof.
  revert b. induction k as [|k IH]; intros [|y b]; simpl; try reflexivity.
  rewrite IH. lra.
Qed.

Lemma dot_zeros_r k a : dot a (repeat 0%R k) = 0%R.
Proof.
  revert a. induction k as [|k IH]; intros [|x a]; simpl; try reflexivity.
  rewrite IH. lra.
Qed.

Lemma dot_pad a : forall b k m,
  dot (a ++ repeat 0%R k) (b ++ repeat 0%R m) = dot a b.
Proof.
  induction a as [|x a IH]; intros b k m.
  - simpl app. rewrite dot_zeros_l. now destruct b.
  - destruct b as [|y b].
    + simpl app. change (x :: a ++ repeat 0%R k) with
        ((x :: a) ++ repeat 0%R k). now rewrite dot_zeros_r.
    + simpl. now rewrite IH.
Qed.

Lemma fitDimension_pad n a :
  length a <= n -> fitDimension n a = a ++ repeat 0%R (n - length a).
Proof.
  intros H. unfold fitDimension. destruct (Nat.leb_spec n (length a)).
  - replace (n - length a) with 0 by lia. simpl.
    rewrite app_nil_r. apply firstn_all2. lia.
  - reflexivity.
Qed.

(** X19. The zero padding of [getEmbedding] does not move a vector: two
    vectors of at most [n] entries are at the same cosine distance
    before and after both are padded to [n] entries. *)
Theorem padding_keeps_distance n a b :
  length a <= n -> length b <= n ->
  cosineDistance (fitDimension n a) (fitDimension n b) = cosineDistance a b.
Proof.
  intros Ha Hb. rewrite !fitDimension_pad by assumption.
  unfold cosineDistance, norm. now rewrite !dot_pad.
Qed.

Lemma padding_keeps_distance_witness :
  length vecC <= 4 /\ length vecQ <= 4
  /\ cosineDistance (fitDimension 4 vecC) (fitDimension 4 vecQ)
     = cosineDistance vecC vecQ.
Proof.
  split; [simpl; lia|]. split; [simpl; lia|].
  apply (padding_keeps_distance 4 vecC vecQ); simpl; lia.
Defined.

(* ================================================================= *)
(** * More on the source adapters *)

(** X20. [loadArticle] returns a text exactly when the id is one of the five
    known ids and the fetch of article number (position + 1) answers ok
    with a readable body, which is then the text returned. An unknown
    id throws without any fetch. *)
Theorem loadArticle_outcome W articleId st :
  (forall body,
     fst (loadArticle W articleId st) = Returned body
     <-> exists index,
           indexOf articleIds articleId = Some index
           /\ fetchArticle W (index + 1) articleId
              = Response true (Some body))
  /\ (indexOf articleIds articleId = None ->
      loadArticle W articleId st =
      (Thrown UnknownArticle,
       {| table := table st; dbClock := dbClock st;
          trace := trace st ++ [ConsoleError AtLoadArticle] |})).
Proof.
  unfold loadArticle, tryCatch, bind, emit, throw, ret.
  destruct (indexOf articleIds articleId) as [index|].
  - split; [|discriminate]. intros body.
    split.
    + intros H. exists index. split; [reflexivity|].
      destruct (fetchArticle W (index + 1) articleId) as [|[|] [b|]];
        cbn in H; try discriminate H. now injection H as ->.
    + intros [i [[= <-] H]]. now rewrite H.
  - split; [|reflexivity]. intros body. cbn. split; [discriminate|].
    intros [i [H _]]. discriminate.
Qed.

Lemma pageMessages_nonBlank msgs : Forall nonBlank (pageMessages msgs).
Proof.
  unfold pageMessages. apply Forall_forall. intros t Ht.
  apply filter_In in Ht. destruct Ht as [_ Ht]. unfold nonBlank.
  destruct (trim t); [discriminate | discriminate].
Qed.

Lemma slackLoop_nonBlank W fuel : forall channel page messages st result,
  Forall nonBlank messages ->
  fst (slackLoop W fuel channel page messages st) = Returned result ->
  Forall nonBlank result.
Proof.
  induction fuel as [|fuel IH]; intros channel page messages st result Hm;
    [discriminate|].
  cbn [slackLoop]. unfold bind at 1, emit at 1.
  destruct (fetchSlack W channel page) as [|[|] [data|]];
    try (cbn; intros [= <-]; exact Hm).
  assert (Hm' : Forall nonBlank
                  match data_messages data with
                  | MessageArray msgs => messages ++ pageMessages msgs
                  | NotAnArray _ => messages
                  end).
  { destruct (data_messages data); [|exact Hm].
    apply Forall_app. split; [exact Hm | apply pageMessages_nonBlank]. }
  destruct (negb (hasMoreIsFalse data)
            && match data_messages data with
               | MessageArray msgs => 0 <? length msgs
               | NotAnArray truthyWithLength => truthyWithLength
               end).
  - now apply IH.
  - cbn. intros [= <-]. exact Hm'.
Qed.

(** X21. No message that [loadSlackChannel] returns is blank: each has
    something left after trimming. *)
Theorem loadSlackChannel_nonBlank W fuel channel st result :
  fst (loadSlackChannel W fuel channel st) = Returned result ->
  Forall nonBlank result.
Proof. apply slackLoop_nonBlank. constructor. Qed.

Lemma loadSlackChannel_nonBlank_witness :
  fst (loadSlackChannel calmWorld 3 (u "lab-notes") emptyState)
  = Returned [u "ann: hello"]
  /\ Forall nonBlank [u "ann: hello"].
Proof.
  split; [reflexivity|].
  apply (loadSlackChannel_nonBlank calmWorld 3 (u "lab-notes") emptyState).
  reflexivity.
Defined.

Lemma slackLoop_pages W fuel : forall channel page messages st,
  exists evs n,
    trace (snd (slackLoop W fuel channel page messages st))
    = trace st ++ evs
    /\ n <= fuel
    /\ filter isFetch evs = map (FetchSlack channel) (seq page n).
Proof.
  induction fuel as [|fuel IH]; intros channel page messages st.
  - exists [], 0. simpl. now rewrite app_nil_r.
  - cbn [slackLoop]. unfold bind at 1, emit at 1.
    assert (Hstop : forall evs st',
              trace st' = trace st ++ FetchSlack channel page :: evs ->
              filter isFetch evs = [] ->
              exists evs0 n,
                trace st' = trace st ++ evs0 /\ n <= S fuel
                /\ filter isFetch evs0
                   = map (FetchSlack channel) (seq page n)).
    { intros evs st' Ht He. exists (FetchSlack channel page :: evs), 1.
      split; [exact Ht|]. split; [lia|]. simpl. now rewrite He. }
    destruct (fetchSlack W channel page) as [|[|] [data|]].
    + apply (Hstop [ConsoleError AtLoadSlackChannel]); [|reflexivity].
      cbn. now rewrite <- app_assoc.
    + destruct (negb (hasMoreIsFalse data)
                && match data_messages data with
                   | MessageArray msgs => 0 <? length msgs
                   | NotAnArray truthyWithLength => truthyWithLength
                   end).
      * match goal with
        | |- context [slackLoop W fuel channel (S page) ?m ?s] =>
            destruct (IH channel (S page) m s) as [evs [n [Ht [Hn Hf]]]]
        end.
        exists (FetchSlack channel page :: evs), (S n).
        split; [|split; [lia|]].
        -- rewrite Ht. cbn [trace]. now rewrite <- app_assoc.
        -- simpl. now rewrite Hf.
      * apply (Hstop []); [reflexivity | reflexivity].
    + apply (Hstop [ConsoleError AtLoadSlackChannel]); [|reflexivity].
      cbn. now rewrite <- app_assoc.
    + apply (Hstop []); reflexivity.
    + apply (Hstop []); reflexivity.
Qed.

(** X22. [loadSlackChannel] asks for the pages of the channel one after the
    other from page 1, without a gap and never the same page twice; it
    does no other fetch. *)
Theorem loadSlackChannel_pages W fuel channel st :
  exists n,
    n <= fuel
    /\ filter isFetch
         (eventsBetween st (snd (loadSlackChannel W fuel channel st)))
       = map (FetchSlack channel) (seq 1 n).
Proof.
  destruct (slackLoop_pages W fuel channel 1 [] st) as [evs [n [Ht [Hn Hf]]]].
  exists n. split; [exact Hn|]. unfold eventsBetween, loadSlackChannel.
  rewrite Ht, skipn_app, skipn_all, Nat.sub_diag. exact Hf.
Qed.

(* ================================================================= *)
(** * More on retrieval *)

(** X23. When the limit is at least the number of rows that have an
    embedding, [findSimilarChunks] returns every one of them, each
    once: the result is a rearrangement of those rows. *)
Theorem findSimilarChunks_all D W q limit st :
  length q = D -> dbFault W (dbClock st) = false ->
  length (filter (fun r => isNotNull (embeddingField D r)) (table st))
    <= limit ->
  exists sel,
    fst (findSimilarChunks D W q limit st) = Returned (map (build D) sel)
    /\ Permutation sel
         (filter (fun r => isNotNull (embeddingField D r)) (table st)).
Proof.
  intros Hq Hf Hl. rewrite (findSimilarChunks_valid D W q limit st Hq Hf).
  exists (nearestRows D (table st) (castVector W q) limit).
  split; [reflexivity|].
  unfold nearestRows. rewrite firstn_all2.
  - apply orderBy_perm.
  - now rewrite (Permutation_length (orderBy_perm _ _)).
Qed.

Lemma findSimilarChunks_all_witness :
  length vecQ = 2 /\ dbFault calmWorld (dbClock rankingState) = false
  /\ length (filter (fun r => isNotNull (embeddingField 2 r))
               (table rankingState)) <= 5
  /\ exists sel,
       fst (findSimilarChunks 2 calmWorld vecQ 5 rankingState)
       = Returned (map (build 2) sel)
       /\ Permutation sel
            (filter (fun r => isNotNull (embeddingField 2 r))
               (table rankingState)).
Proof.
  split; [reflexivity|]. split; [reflexivity|]. split; [simpl; lia|].
  apply (findSimilarChunks_all 2 calmWorld vecQ 5 rankingState);
    [reflexivity | reflexivity | simpl; lia].
Defined.

(* ================================================================= *)
(** * The start of the server *)

Lemma onListen_absorbs initializeDB autoLoad D W fuel st e :
  fst (onListen initializeDB autoLoad D W fuel st) <> Thrown e.
Proof.
  unfold onListen, tryCatch at 1.
  match goal with
  | |- context [let (o, st') := ?m st in _] => destruct (m st) as [[a|e'|] st1]
  end; discriminate.
Qed.

(** X24. The start-up callback loads the data only when the table is empty
    and AUTO_LOAD_DATA is set: once the database is initialised and the
    count answered, a non-empty table or an unset flag ends the
    start-up after the count; with an empty table and the flag set the
    batch loader runs from there, and its failure, like any other, is
    absorbed: the callback never throws. *)
Theorem onListen_loads_when_empty initializeDB autoLoad D W fuel st st1 :
  initializeDB st = (Returned tt, st1) ->
  dbFault W (dbClock st1) = false ->
  let counted := {| table := table st1; dbClock := S (dbClock st1);
                    trace := trace st1 ++ [DbCountAll] |} in
  (table st1 <> [] \/ autoLoad = false ->
   onListen initializeDB autoLoad D W fuel st = (Returned tt, counted))
  /\ (table st1 = [] -> autoLoad = true ->
      snd (onListen initializeDB autoLoad D W fuel st)
      = snd (loadAllData D W fuel counted)
      /\ (isThrown (fst (loadAllData D W fuel counted)) = true ->
          fst (onListen initializeDB autoLoad D W fuel st) = Returned tt))
  /\ (forall e, fst (onListen initializeDB autoLoad D W fuel st) <> Thrown e).
Proof.
  intros Hinit Hf counted.
  assert (Hrun : onListen initializeDB autoLoad D W fuel st =
                 tryCatch
                   (if length (table st1) =? 0 then
                      if autoLoad then
                        tryCatch (loadAllData D W fuel) (fun _ => ret tt)
                      else ret tt
                    else ret tt)
                   (fun _ => ret tt) counted).
  { unfold onListen, tryCatch at 1 3, bind at 1. rewrite Hinit.
    unfold dbCountAll, bind, emit, statement, getTable, ret.
    cbn [table dbClock trace]. rewrite Hf. reflexivity. }
  split; [|split].
  - intros [Ht | Ha]; rewrite Hrun.
    + destruct (table st1); [easy | reflexivity].
    + subst autoLoad. now destruct (length (table st1) =? 0).
  - intros Ht Ha. rewrite Hrun, Ht, Ha. cbn [length Nat.eqb].
    unfold tryCatch, ret.
    destruct (loadAllData D W fuel counted) as [[[]|e|] st2];
      split; try reflexivity; discriminate.
  - intros e. apply onListen_absorbs.
Qed.

Lemma onListen_loads_when_empty_witness :
  ret tt emptyState = (Returned tt, emptyState)
  /\ dbFault noPdfWorld (dbClock emptyState) = false
  /\ fst (onListen (ret tt) true 768 noPdfWorld 3 emptyState) = Returned tt
  /\ fst (loadAllData 768 noPdfWorld 3
            {| table := table emptyState; dbClock := S (dbClock emptyState);
               trace := trace emptyState ++ [DbCountAll] |})
     = Thrown PdfError.
Proof.
  split; [reflexivity|]. split; [reflexivity|]. split; [|reflexivity].
  apply (proj1 (proj2 (onListen_loads_when_empty (ret tt) true 768
                         noPdfWorld 3 emptyState emptyState
                         eq_refl eq_refl)));
    reflexivity.
Defined.

(* ================================================================= *)
(** * Embedding and storing the chunks of a source *)

Lemma getEmbedding_inv D W text st v st' :
  getEmbedding D W text st = (Returned v, st') ->
  v = embeddingOf D W text
  /\ st' = {| table := table st; dbClock := dbClock st;
              trace := trace st ++ [EmbedCall text] |}.
Proof.
  unfold getEmbedding, embeddingOf, tryCatch, bind, emit, throw, ret.
  destruct (apiKeySet W); cbn [negb]; [|discriminate].
  destruct (embedContent W text) as [result|]; [|discriminate].
  destruct (length (extractEmbedding result) =? 0); [discriminate|].
  destruct (D =? 768); intros [= <- <-]; now split.
Qed.

(** X25. The embedding loop of [loadAllData] returns only after one call of
    the model per chunk, in the order of the chunks and with no call
    repeated; it then returns one vector per chunk, in that order. *)
Theorem embedAll_one_call_per_chunk D W chunks st embeddings st' :
  embedAll D W chunks st = (Returned embeddings, st') ->
  embeddings = map (embeddingOf D W) chunks
  /\ eventsBetween st st' = map EmbedCall chunks
  /\ sameDb st st'.
Proof.
  assert (H : forall chunks st embeddings st',
             embedAll D W chunks st = (Returned embeddings, st') ->
             embeddings = map (embeddingOf D W) chunks
             /\ trace st' = trace st ++ map EmbedCall chunks).
  { clear. induction chunks as [|c rest IH]; intros st embeddings st'.
    - cbn. intros [= <- <-]. now rewrite app_nil_r.
    - cbn [embedAll]. unfold bind at 1.
      destruct (getEmbedding D W c st) as [[v|e|] st1] eqn:Eg;
        try discriminate.
      apply getEmbedding_inv in Eg. destruct Eg as [-> ->].
      unfold bind at 1.
      match goal with
      | |- (let (o, s) := embedAll D W rest ?s0 in _) = _ -> _ =>
          destruct (embedAll D W rest s0) as [[es|e|] st2] eqn:Er;
            try discriminate;
          apply IH in Er; destruct Er as [-> Ht]
      end.
      cbn. intros [= <- <-]. split; [reflexivity|].
      rewrite Ht. cbn [trace]. now rewrite <- app_assoc. }
  intros Hrun. destruct (H chunks st embeddings st' Hrun) as [He Ht].
  split; [exact He|]. split.
  - unfold eventsBetween. rewrite Ht, skipn_app, skipn_all, Nat.sub_diag.
    reflexivity.
  - pose proof (embedAll_sameDb D W chunks st) as Hs.
    now rewrite Hrun in Hs.
Qed.

Lemma embedAll_one_call_per_chunk_witness :
  embedAll 768 calmWorld [u "x"; u "y"] emptyState
  = (Returned (returnedOr [] (embedAll 768 calmWorld [u "x"; u "y"] emptyState)),
     snd (embedAll 768 calmWorld [u "x"; u "y"] emptyState))
  /\ eventsBetween emptyState
       (snd (embedAll 768 calmWorld [u "x"; u "y"] emptyState))
     = map EmbedCall [u "x"; u "y"].
Proof.
  split; [reflexivity|].
  apply (embedAll_one_call_per_chunk 768 calmWorld [u "x"; u "y"] emptyState
           (returnedOr [] (embedAll 768 calmWorld [u "x"; u "y"] emptyState))
           (snd (embedAll 768 calmWorld [u "x"; u "y"] emptyState))).
  reflexivity.
Defined.

Lemma embedAll_run D W chunks : forall st,
  apiKeySet W = true -> embeddable W chunks ->
  embedAll D W chunks st =
  (Returned (map (embeddingOf D W) chunks),
   {| table := table st; dbClock := dbClock st;
      trace := trace st ++ map EmbedCall chunks |}).
Proof.
  intros st Hk He. revert st.
  induction He as [|c rest [result [Hr Hx]] Hrest IH]; intros st.
  - cbn. unfold ret. rewrite app_nil_r. now destruct st.
  - cbn [embedAll map]. unfold bind at 1.
    rewrite (getEmbedding_usable D W c result st Hk Hr Hx).
    unfold bind at 1. rewrite IH. cbn [table dbClock trace].
    assert (Hc : embeddingOf D W c
                 = if D =? 768 then fitDimension 768 (extractEmbedding result)
                   else fitDimension 1536 (extractEmbedding result))
      by (unfold embeddingOf; now rewrite Hr).
    rewrite Hc. unfold ret. now rewrite <- app_assoc.
Qed.

Lemma embeddingOf_length D W c :
  D = 768 \/ D = 1536 ->
  (exists result, embedContent W c = Some result
                  /\ extractEmbedding result <> []) ->
  length (embeddingOf D W c) = D.
Proof.
  intros HD [result [Hr _]]. unfold embeddingOf. rewrite Hr.
  destruct HD as [-> | ->]; apply fitDimension_length.
Qed.

Lemma successes_full D W embeddings chunks : forall clock i,
  (forall j, j < length chunks ->
     insertOk D W embeddings (clock + j) (i + j) = true) ->
  successes D W embeddings clock i chunks = length chunks.
Proof.
  induction chunks as [|c rest IH]; intros clock i H; [reflexivity|].
  cbn [successes length].
  pose proof (H 0 ltac:(simpl; lia)) as H0. rewrite !Nat.add_0_r in H0.
  rewrite H0. f_equal. apply IH. intros j Hj.
  specialize (H (S j) ltac:(simpl; lia)).
  now rewrite !Nat.add_succ_r in H.
Qed.

Lemma filter_negb_all {A} (f : A -> bool) l :
  filter f l = [] -> filter (fun x => negb (f x)) l = l.
Proof.
  induction l as [|x l IH]; [easy|]. simpl.
  destruct (f x); [discriminate|]. intros H. simpl. now rewrite IH.
Qed.

(** Storing chunks with their embeddings from [embedAll], the database
    answering. *)
Lemma storeChunks_embedded D W src sourceId chunks st :
  D = 768 \/ D = 1536 ->
  embeddable W chunks ->
  (forall j, j <= length chunks -> dbFault W (dbClock st + j) = false) ->
  exists st',
    storeChunks D W src sourceId chunks (map (embeddingOf D W) chunks) st
    = (Returned tt, st')
    /\ table st' =
       filter (fun r => negb (matches src sourceId r)) (table st)
       ++ newRows D W src sourceId chunks (map (embeddingOf D W) chunks).
Proof.
  intros HD He Hf.
  assert (Hf0 : dbFault W (dbClock st) = false)
    by (specialize (Hf 0 ltac:(lia)); now rewrite Nat.add_0_r in Hf).
  destruct (storeChunks_run D W src sourceId (map (embeddingOf D W) chunks)
              chunks st Hf0) as [o [st' [E [Ht [Hr _]]]]].
  assert (Hn : successes D W (map (embeddingOf D W) chunks)
                 (S (dbClock st)) 0 chunks = length chunks).
  { apply successes_full. intros j Hj. unfold insertOk. cbn [Nat.add].
    rewrite nth_error_map.
    destruct (nth_error chunks j) as [c|] eqn:Ec;
      [|apply nth_error_None in Ec; lia].
    cbn [option_map].
    assert (Hfj : dbFault W (S (dbClock st + j)) = false)
      by (rewrite <- Nat.add_succ_r; apply Hf; lia).
    rewrite Hfj. cbn [negb andb]. apply Nat.eqb_eq.
    apply embeddingOf_length; [exact HD|].
    unfold embeddable in He. rewrite Forall_forall in He.
    apply He. eapply nth_error_In; eassumption. }
  rewrite Hn in *. rewrite (Hr eq_refl) in E.
  exists st'. split; [exact E|]. rewrite Ht. f_equal.
  apply firstn_all2. unfold newRows.
  destruct (successes_le_rows D W src sourceId
              (map (embeddingOf D W) chunks) chunks (S (dbClock st)) 0)
    as [_ H2].
  exact H2.
Qed.

Lemma nth_error_mapi {A B} (f : nat -> A -> B) l : forall i k,
  nth_error (mapi f i l) k = option_map (f (i + k)) (nth_error l k).
Proof.
  induction l as [|x l IH]; intros i [|k]; simpl; try reflexivity.
  - now rewrite Nat.add_0_r.
  - rewrite IH. now rewrite Nat.add_succ_r.
Qed.

Lemma nth_error_combine {A B} (a : list A) : forall (b : list B) k x y,
  nth_error a k = Some x -> nth_error b k = Some y ->
  nth_error (combine a b) k = Some (x, y).
Proof.
  induction a as [|x0 a IH]; intros [|y0 b] [|k] x y; simpl; try easy.
  - now intros [= ->] [= ->].
  - apply IH.
Qed.

(** The row that a completed ingestion leaves for chunk number [i]. *)
Lemma newRows_nth D W src sourceId chunks (f : jsstring -> vector) i chunk :
  nth_error chunks i = Some chunk ->
  nth_error (newRows D W src sourceId chunks (map f chunks)) i
  = Some (insertedRow D src sourceId i chunk (castVector W (f chunk))).
Proof.
  intros H. unfold newRows, rowsFrom. cbn [skipn].
  rewrite nth_error_mapi.
  rewrite (nth_error_combine chunks (map f chunks) i chunk (f chunk) H)
    by (rewrite nth_error_map, H; reflexivity).
  reflexivity.
Qed.

(** X26. Ingesting a PDF that is not in the table yet, when the file can be
    read, the model answers for every chunk and the database answers:
    the run completes and has appended to the table one row per chunk
    of the text, in the order of the chunks. The row of chunk number
    [i] carries the source ["pdf"], the file name, [i] as its
    [chunk_index], the chunk as its [chunk_content] and, in the
    configured column, the vector [getEmbedding] returns for the chunk
    as the database keeps it; the other column is null. *)
Theorem ingestSource_pdf_stores D W fuel file st parsed chunks :
  D = 768 \/ D = 1536 ->
  filter (matches (sourceName Pdf) file) (table st) = [] ->
  readPdf W file = Some parsed ->
  chunkText (pdfToString parsed) defaultWordsPerChunk = Some chunks ->
  apiKeySet W = true ->
  embeddable W chunks ->
  (forall j, j <= S (length chunks) -> dbFault W (dbClock st + j) = false) ->
  exists rows,
    fst (ingestSource D W fuel Pdf file st) = Returned tt
    /\ table (snd (ingestSource D W fuel Pdf file st)) = table st ++ rows
    /\ length rows = length chunks
    /\ forall i chunk,
         nth_error chunks i = Some chunk ->
         exists r v,
           nth_error rows i = Some r
           /\ (forall st0, fst (getEmbedding D W chunk st0) = Returned v)
           /\ length v = D
           /\ source r = u "pdf"
           /\ source_id r = file
           /\ chunk_index r = i
           /\ chunk_content r = chunk
           /\ (if D =? 768 then embeddings_768 r else embeddings_1536 r)
              = Some (map (float4 W) v)
           /\ (if D =? 768 then embeddings_1536 r else embeddings_768 r)
              = None.
Proof.
  intros HD Hnew Hpdf Hchunks Hk He Hf.
  assert (Hf0 : dbFault W (dbClock st) = false)
    by (specialize (Hf 0 ltac:(lia)); now rewrite Nat.add_0_r in Hf).
  assert (Hrun : exists st',
            ingestSource D W fuel Pdf file st = (Returned tt, st')
            /\ table st' =
               filter (fun r => negb (matches (sourceName Pdf) file r))
                 (table st)
               ++ newRows D W (sourceName Pdf) file chunks
                    (map (embeddingOf D W) chunks)).
  { unfold ingestSource, bind at 1.
    rewrite (sourceExists_run W (sourceName Pdf) file st Hf0), Hnew.
    cbn [length Nat.ltb Nat.leb]. unfold bind at 1.
    unfold loadPDF, tryCatch, bind at 1, emit at 1. rewrite Hpdf.
    unfold ret at 1. cbn [table dbClock trace].
    unfold bind at 1, chunkTextM. rewrite Hchunks. unfold ret at 1.
    unfold bind at 1. rewrite (embedAll_run D W chunks _ Hk He).
    cbn [table dbClock trace].
    match goal with
    | |- context [storeChunks D W ?s file chunks ?es ?st0] =>
        destruct (storeChunks_embedded D W s file chunks st0 HD He)
          as [st' [E Ht]]
    end.
    { intros j Hj. cbn [dbClock].
      replace (S (dbClock st) + j) with (dbClock st + S j) by lia.
      apply Hf. lia. }
    exists st'. split; [exact E | exact Ht]. }
  destruct Hrun as [st' [E Ht]]. rewrite E. cbn [fst snd].
  exists (newRows D W (sourceName Pdf) file chunks
            (map (embeddingOf D W) chunks)).
  split; [reflexivity|]. split; [|split].
  - rewrite Ht. now rewrite filter_negb_all.
  - unfold newRows, rowsFrom.
    rewrite length_mapi, length_combine. cbn [skipn].
    rewrite length_map. lia.
  - intros i chunk Hi.
    assert (Hc : exists result, embedContent W chunk = Some result
                                /\ extractEmbedding result <> []).
    { unfold embeddable in He. rewrite Forall_forall in He.
      apply He. eapply nth_error_In; eassumption. }
    exists (insertedRow D (sourceName Pdf) file i chunk
              (castVector W (embeddingOf D W chunk))),
           (embeddingOf D W chunk).
    split; [now apply newRows_nth|]. split; [|split].
    + destruct Hc as [result [Hr Hx]]. intros st0.
      rewrite (getEmbedding_usable D W chunk result st0 Hk Hr Hx).
      unfold embeddingOf. now rewrite Hr.
    + now apply embeddingOf_length.
    + unfold insertedRow, castVector. cbn.
      destruct (D =? 768); repeat split; reflexivity.
Qed.

Lemma ingestSource_pdf_stores_witness :
  filter (matches (sourceName Pdf) secondPdf) (table onceIngested) = []
  /\ table onceIngested <> []
  /\ chunkText (pdfToString (PdfPages [u "w"; skipn 2 longText]))
       defaultWordsPerChunk
     = Some [firstn 799 longText; u "w"]
  /\ exists rows,
       fst (ingestSource 768 longPdfWorld 3 Pdf secondPdf onceIngested)
       = Returned tt
       /\ table (snd (ingestSource 768 longPdfWorld 3 Pdf secondPdf
                        onceIngested))
          = table onceIngested ++ rows
       /\ length rows = length [firstn 799 longText; u "w"]
       /\ forall i chunk,
            nth_error [firstn 799 longText; u "w"] i = Some chunk ->
            exists r v,
              nth_error rows i = Some r
              /\ (forall st0,
                    fst (getEmbedding 768 longPdfWorld chunk st0)
                    = Returned v)
              /\ length v = 768
              /\ source r = u "pdf"
              /\ source_id r = secondPdf
              /\ chunk_index r = i
              /\ chunk_content r = chunk
              /\ (if 768 =? 768 then embeddings_768 r
                  else embeddings_1536 r)
                 = Some (map (float4 longPdfWorld) v)
              /\ (if 768 =? 768 then embeddings_1536 r
                  else embeddings_768 r)
                 = None.
Proof.
  assert (Hc : chunkText (pdfToString (PdfPages [u "w"; skipn 2 longText]))
                 defaultWordsPerChunk
               = Some [firstn 799 longText; u "w"])
    by (vm_compute; reflexivity).
  split; [vm_compute; reflexivity|]. split; [vm_compute; discriminate|].
  split; [exact Hc|].
  apply (ingestSource_pdf_stores 768 longPdfWorld 3 secondPdf onceIngested
           (PdfPages [u "w"; skipn 2 longText])
           [firstn 799 longText; u "w"]);
    [left; reflexivity | vm_compute; reflexivity | vm_compute; reflexivity
    | exact Hc | reflexivity | | intros j _; reflexivity].
  repeat constructor; eexists; (split; [reflexivity | discriminate]).
Defined.

(* ================================================================= *)
(** * The order of the batch *)

Ltac no_count :=
  repeat first
    [ apply hoare_ret; exact I
    | apply hoare_throw
    | apply hoare_running
    | apply hoare_emit; reflexivity
    | apply hoare_statement
    | apply hoare_getTable
    | apply hoare_setTable
    | eapply hoare_bind with (Q := fun _ => True); [|intros ? _]
    | apply hoare_tryCatch; [|intros ?] ].

Lemma getEmbedding_no_count D W text :
  hoare notCount (fun _ => True) (getEmbedding D W text).
Proof.
  unfold getEmbedding. apply hoare_tryCatch; [|intros e; no_count].
  destruct (apiKeySet W); cbn [negb]; [|no_count].
  eapply hoare_bind with (Q := fun _ => True); [no_count|]. intros _ _.
  destruct (embedContent W text) as [result|]; [|no_count].
  destruct (length (extractEmbedding result) =? 0); [no_count|].
  destruct (D =? 768); no_count.
Qed.

Lemma embedAll_no_count D W chunks :
  hoare notCount (fun _ => True) (embedAll D W chunks).
Proof.
  induction chunks as [|c rest IH]; cbn [embedAll]; [no_count|].
  eapply hoare_bind with (Q := fun _ => True);
    [apply getEmbedding_no_count|]. intros e _.
  eapply hoare_bind with (Q := fun _ => True); [exact IH|]. intros es _.
  no_count.
Qed.

Lemma loadPDF_no_count W file : hoare notCount (fun _ => True) (loadPDF W file).
Proof.
  unfold loadPDF. apply hoare_tryCatch; [|intros e; no_count].
  eapply hoare_bind with (Q := fun _ => True); [no_count|]. intros _ _.
  destruct (readPdf W file); no_count.
Qed.

Lemma loadArticle_no_count W articleId :
  hoare notCount (fun _ => True) (loadArticle W articleId).
Proof.
  unfold loadArticle. apply hoare_tryCatch; [|intros e; no_count].
  destruct (indexOf articleIds articleId) as [index|]; [|no_count].
  eapply hoare_bind with (Q := fun _ => True); [no_count|]. intros _ _.
  destruct (fetchArticle W (index + 1) articleId) as [|[|] [body|]]; no_count.
Qed.

Lemma slackLoop_no_count W fuel : forall channel page messages,
  hoare notCount (fun _ => True) (slackLoop W fuel channel page messages).
Proof.
  induction fuel as [|fuel IH]; intros channel page messages;
    cbn [slackLoop]; [no_count|].
  eapply hoare_bind with (Q := fun _ => True); [no_count|]. intros _ _.
  destruct (fetchSlack W channel page) as [|[|] [data|]]; try no_count.
  destruct (negb (hasMoreIsFalse data)
            && match data_messages data with
               | MessageArray msgs => 0 <? length msgs
               | NotAnArray truthyWithLength => truthyWithLength
               end); [apply IH | no_count].
Qed.

Lemma insertLoop_no_count D W src sourceId embeddings chunks : forall i,
  hoare notCount (fun _ => True)
    (insertLoop D W src sourceId chunks embeddings i).
Proof.
  induction chunks as [|c rest IH]; intros i; cbn [insertLoop]; [no_count|].
  destruct (nth_error embeddings i) as [e|]; [|no_count].
  eapply hoare_bind with (Q := fun _ => True); [|intros _ _; apply IH].
  unfold dbInsert.
  eapply hoare_bind with (Q := fun _ => True); [no_count|]. intros _ _.
  eapply hoare_bind with (Q := fun _ => True); [no_count|]. intros _ _.
  destruct (length e =? D); no_count.
Qed.

Lemma storeChunks_no_count D W src sourceId chunks embeddings :
  hoare notCount (fun _ => True)
    (storeChunks D W src sourceId chunks embeddings).
Proof.
  unfold storeChunks. apply hoare_tryCatch; [|intros e; no_count].
  eapply hoare_bind with (Q := fun _ => True);
    [unfold dbDestroy; no_count|]. intros _ _. apply insertLoop_no_count.
Qed.

Lemma ingest_tail_no_count D W src sourceId text :
  hoare notCount (fun _ => True)
    (chunks <- chunkTextM text ;;
     embeddings <- embedAll D W chunks ;;
     storeChunks D W src sourceId chunks embeddings).
Proof.
  eapply hoare_bind with (Q := fun _ => True).
  - unfold chunkTextM. destruct (chunkText text defaultWordsPerChunk);
      no_count.
  - intros chunks _. eapply hoare_bind with (Q := fun _ => True);
      [apply embedAll_no_count|].
    intros es _. apply storeChunks_no_count.
Qed.

(** Ingesting a source starts with its existence check and asks no
    other existence question. *)
Lemma ingestSource_counts D W fuel k sourceId st :
  exists evs,
    trace (snd (ingestSource D W fuel k sourceId st))
    = trace st ++ DbCount (sourceName k) sourceId :: evs
    /\ Forall notCount evs.
Proof.
  assert (Hrest : forall loaded : bool,
            hoare notCount (fun _ : unit => True)
              (if loaded then ret tt
               else
                 match k with
                 | Pdf =>
                     text <- loadPDF W sourceId ;;
                     chunks <- chunkTextM text ;;
                     embeddings <- embedAll D W chunks ;;
                     storeChunks D W (sourceName Pdf) sourceId chunks
                       embeddings
                 | Article =>
                     text <- loadArticle W sourceId ;;
                     chunks <- chunkTextM text ;;
                     embeddings <- embedAll D W chunks ;;
                     storeChunks D W (sourceName Article) sourceId chunks
                       embeddings
                 | Slack =>
                     messages <- loadSlackChannel W fuel sourceId ;;
                     if length messages =? 0 then ret tt
                     else
                       chunks <- chunkTextM (join [newline] messages) ;;
                       embeddings <- embedAll D W chunks ;;
                       storeChunks D W (sourceName Slack) sourceId chunks
                         embeddings
                 end)).
  { intros [|]; [no_count|]. destruct k.
    - eapply hoare_bind with (Q := fun _ => True);
        [apply loadPDF_no_count | intros t _; apply ingest_tail_no_count].
    - eapply hoare_bind with (Q := fun _ => True);
        [apply loadArticle_no_count | intros t _; apply ingest_tail_no_count].
    - eapply hoare_bind with (Q := fun _ => True);
        [apply slackLoop_no_count|].
      intros ms _. destruct (length ms =? 0);
        [no_count | apply ingest_tail_no_count]. }
  unfold ingestSource, bind at 1.
  destruct (dbFault W (dbClock st)) eqn:Hf.
  - rewrite (sourceExists_no_db W (sourceName k) sourceId st Hf).
    destruct (Hrest false
                {| table := table st; dbClock := S (dbClock st);
                   trace := trace st
                            ++ [DbCount (sourceName k) sourceId;
                                ConsoleError AtSourceExists] |})
      as [[evs [Ht Hp]] _].
    exists (ConsoleError AtSourceExists :: evs). split.
    + rewrite Ht. cbn [trace]. now rewrite <- app_assoc.
    + constructor; [reflexivity | exact Hp].
  - rewrite (sourceExists_run W (sourceName k) sourceId st Hf).
    destruct (Hrest (0 <? length (filter (matches (sourceName k) sourceId)
                                    (table st)))
                {| table := table st; dbClock := S (dbClock st);
                   trace := trace st ++ [DbCount (sourceName k) sourceId] |})
      as [[evs [Ht Hp]] _].
    exists evs. split; [|exact Hp].
    rewrite Ht. cbn [trace]. now rewrite <- app_assoc.
Qed.

Lemma filter_notCount evs : Forall notCount evs -> filter isCount evs = [].
Proof. intros H. now apply filter_none. Qed.

Lemma forEach_counts D W fuel (xs : list (SourceKind * jsstring)) :
  forall st,
  exists evs n,
    trace (snd (forEach xs
                  (fun p => ingestSource D W fuel (fst p) (snd p)) st))
    = trace st ++ evs
    /\ n <= length xs
    /\ filter isCount evs = map countOf (firstn n xs)
    /\ (fst (forEach xs
               (fun p => ingestSource D W fuel (fst p) (snd p)) st)
        = Returned tt -> n = length xs).
Proof.
  induction xs as [|[k id] xs IH]; intros st.
  - exists [], 0. cbn. rewrite app_nil_r. now repeat split.
  - cbn [forEach fst snd]. unfold bind.
    destruct (ingestSource_counts D W fuel k id st) as [evs [Ht Hp]].
    destruct (ingestSource D W fuel k id st) as [[[]|e|] st1] eqn:E;
      cbn [snd] in Ht.
    + destruct (IH st1) as [evs' [n [Ht' [Hn [Hc Hr]]]]].
      exists ((DbCount (sourceName k) id :: evs) ++ evs'), (S n).
      split; [|split; [simpl; lia|split]].
      * rewrite Ht', Ht. now rewrite <- app_assoc.
      * rewrite filter_app. cbn [filter isCount].
        rewrite (filter_notCount evs Hp), Hc. reflexivity.
      * intros H. simpl. f_equal. now apply Hr.
    + exists (DbCount (sourceName k) id :: evs), 1.
      split; [exact Ht|]. split; [simpl; lia|]. split; [|discriminate].
      cbn [filter isCount]. now rewrite (filter_notCount evs Hp).
    + exists (DbCount (sourceName k) id :: evs), 1.
      split; [exact Ht|]. split; [simpl; lia|]. split; [|discriminate].
      cbn [filter isCount]. now rewrite (filter_notCount evs Hp).
Qed.

(** X27. [loadAllData] checks the sources in the fixed order of its lists
    (the PDFs, then the articles, then the chat channels), each at most
    once and none skipped: the existence checks it makes are those of
    the first [n] sources, and of all eleven when it returns. *)
Theorem loadAllData_order D W fuel st :
  exists n,
    n <= length allSources
    /\ filter isCount
         (eventsBetween st (snd (loadAllData D W fuel st)))
       = map countOf (firstn n allSources)
    /\ (fst (loadAllData D W fuel st) = Returned tt ->
        n = length allSources).
Proof.
  rewrite loadAllData_allSources. unfold tryCatch.
  destruct (forEach_counts D W fuel allSources st)
    as [evs [n [Ht [Hn [Hc Hr]]]]].
  exists n. split; [exact Hn|].
  destruct (forEach allSources
              (fun p => ingestSource D W fuel (fst p) (snd p)) st)
    as [[[]|e|] st1]; cbn [fst snd] in *.
  - split; [|exact Hr]. unfold eventsBetween.
    now rewrite Ht, skipn_app, skipn_all, Nat.sub_diag.
  - split; [|discriminate]. unfold eventsBetween, bind, emit, throw.
    cbn [snd trace]. rewrite Ht, <- app_assoc.
    rewrite skipn_app, skipn_all, Nat.sub_diag. cbn [skipn app].
    rewrite filter_app, Hc. cbn. now rewrite app_nil_r.
  - split; [|discriminate]. unfold eventsBetween.
    now rewrite Ht, skipn_app, skipn_all, Nat.sub_diag.
Qed.

Lemma slackLoop_events (P : Event -> Prop) W fuel :
  (forall c p, P (FetchSlack c p)) -> (forall s, P (ConsoleError s)) ->
  forall channel page messages,
  hoare P (fun _ => True) (slackLoop W fuel channel page messages).
Proof.
  intros Hfetch Herr.
  induction fuel as [|fuel IH]; intros channel page messages;
    cbn [slackLoop]; [apply hoare_running|].
  eapply hoare_bind with (Q := fun _ => True);
    [apply hoare_emit, Hfetch|]. intros _ _.
  destruct (fetchSlack W channel page) as [|[|] [data|]];
    try (apply hoare_ret; exact I);
    try (eapply hoare_bind with (Q := fun _ => True);
         [apply hoare_emit, Herr | intros _ _; apply hoare_ret; exact I]).
  destruct (negb (hasMoreIsFalse data)
            && match data_messages data with
               | MessageArray msgs => 0 <? length msgs
               | NotAnArray truthyWithLength => truthyWithLength
               end); [apply IH | apply hoare_ret; exact I].
Qed.

(** X28. A chat channel that yields no message is left out: nothing is
    embedded or written for it, so the table is unchanged and the
    channel will be fetched again by the next run. *)
Theorem ingestSource_empty_channel D W fuel channel st :
  dbFault W (dbClock st) = false ->
  filter (matches (sourceName Slack) channel) (table st) = [] ->
  fst (loadSlackChannel W fuel channel
         {| table := table st; dbClock := S (dbClock st);
            trace := trace st ++ [DbCount (sourceName Slack) channel] |})
  = Returned [] ->
  ingestSource D W fuel Slack channel st =
  (Returned tt,
   snd (loadSlackChannel W fuel channel
          {| table := table st; dbClock := S (dbClock st);
             trace := trace st ++ [DbCount (sourceName Slack) channel] |}))
  /\ table (snd (ingestSource D W fuel Slack channel st)) = table st
  /\ filter (fun ev => isEmbedCall ev || isStoreWrite ev)
       (eventsBetween st (snd (ingestSource D W fuel Slack channel st)))
     = [].
Proof.
  intros Hf Hnew Hload.
  set (st1 := {| table := table st; dbClock := S (dbClock st);
                 trace := trace st ++ [DbCount (sourceName Slack) channel] |})
    in *.
  assert (E : ingestSource D W fuel Slack channel st =
              (Returned tt, snd (loadSlackChannel W fuel channel st1))).
  { unfold ingestSource, bind at 1.
    rewrite (sourceExists_run W (sourceName Slack) channel st Hf), Hnew.
    cbn [length Nat.ltb Nat.leb]. fold st1. unfold bind at 1.
    destruct (loadSlackChannel W fuel channel st1) as [o st2].
    cbn [fst snd] in *. subst o. reflexivity. }
  rewrite E. cbn [snd]. split; [reflexivity|]. split.
  - destruct (slackLoop_sameDb W fuel channel 1 [] st1) as [Ht _].
    exact Ht.
  - destruct (slackLoop_events
                (fun ev => isEmbedCall ev || isStoreWrite ev = false)
                W fuel (fun _ _ => eq_refl) (fun _ => eq_refl)
                channel 1 [] st1) as [[evs [Ht Hp]] _].
    unfold eventsBetween, loadSlackChannel. rewrite Ht.
    unfold st1. cbn [trace]. rewrite <- app_assoc.
    rewrite skipn_app, skipn_all, Nat.sub_diag. cbn [skipn app filter].
    cbn [isEmbedCall isStoreWrite orb]. now apply filter_none.
Qed.

Lemma ingestSource_empty_channel_witness :
  dbFault noSlackWorld (dbClock emptyState) = false
  /\ table (snd (ingestSource 768 noSlackWorld 3 Slack (u "lab-notes")
                   emptyState)) = table emptyState.
Proof.
  split; [reflexivity|].
  apply (ingestSource_empty_channel 768 noSlackWorld 3 (u "lab-notes")
           emptyState); reflexivity.
Defined.

Lemma getEmbedding_outcome_witness :
  apiKeySet noKeyWorld = false
  /\ getEmbedding 768 noKeyWorld (u "q") emptyState =
     (Thrown MissingApiKey,
      {| table := table emptyState; dbClock := dbClock emptyState;
         trace := trace emptyState ++ [ConsoleError AtGetEmbedding] |}).
Proof.
  split; [reflexivity|].
  apply (proj2 (proj2 (getEmbedding_outcome 768 noKeyWorld (u "q")
                         emptyState))).
  reflexivity.
Defined.

Lemma loadArticle_outcome_witness :
  indexOf articleIds (u "no-such-article") = None
  /\ loadArticle calmWorld (u "no-such-article") emptyState =
     (Thrown UnknownArticle,
      {| table := table emptyState; dbClock := dbClock emptyState;
         trace := trace emptyState ++ [ConsoleError AtLoadArticle] |}).
Proof.
  split; [reflexivity|].
  apply (proj2 (loadArticle_outcome calmWorld (u "no-such-article")
                  emptyState)).
  reflexivity.
Defined.

Lemma loadAllData_order_witness :
  exists n,
    n <= length allSources
    /\ filter isCount
         (eventsBetween emptyState
            (snd (loadAllData 768 secondPdfFails 3 emptyState)))
       = map countOf (firstn n allSources)
    /\ (fst (loadAllData 768 secondPdfFails 3 emptyState) = Returned tt ->
        n = length allSources).
Proof. apply (loadAllData_order 768 secondPdfFails 3 emptyState). Defined.

(** In that run the second PDF fails: two sources were checked. *)
Example loadAllData_order_run :
  filter isCount
    (eventsBetween emptyState
       (snd (loadAllData 768 secondPdfFails 3 emptyState)))
  = map countOf (firstn 2 allSources).
Proof. vm_compute. reflexivity. Qed.
